(** * gTorrent: bencode codec, metainfo, peer-wire framing, writeback, verifier

    A shallow embedding of the Go sources

      - [bencode/bencode.go]      (Decode, Encode, NewData)
      - [torrent/torrent.go]      (TorrentFromBencodeData, TorrentFromBytes, VerifyTorrent)
      - [torrent/protocol.go]     (Message.Serialize, FormatRequest, Bitfield)
      - [download_manager.go]     (startDownloadFromPeers, createEmptyFiles, writePiece)

    Conventions.
      - A Go byte is a [Z] in [0, 256); a [[]byte] and a Go [string] are both
        [list Z] (Go strings are raw byte sequences).
      - Fixed-width integers are [Z] with the wrap-around written out
        ([wrap64], [wrapU32], [wrapU8]).
      - A Go slice is modelled with capacity equal to its length, so a slice
        expression past the end of the data is a runtime panic.
      - Runtime panics (nil dereference, slice bounds, failed type assertion,
        division by zero) are an explicit outcome, never a value. *)

From Stdlib Require Import ZArith Lia Ascii String List Sorting.Sorted Permutation.
From stdpp Require Import base tactics option list relations.

Local Open Scope Z_scope.
Set Warnings "-register-all".

(** ** Bytes and literals *)

Definition byte_of_ascii (a : ascii) : Z := Z.of_N (N_of_ascii a).

Fixpoint B (s : string) : list Z :=
  match s with
  | EmptyString => []
  | String a s' => byte_of_ascii a :: B s'
  end.

(** [len] is Go's [len(x)] as an [int]. *)
Definition len {A} (l : list A) : Z := Z.of_nat (length l).

(** Go slice expression [s[lo:hi]] on data that is known to be in range. *)
Definition slice {A} (l : list A) (lo hi : Z) : list A :=
  take (Z.to_nat (hi - lo)) (drop (Z.to_nat lo) l).

(** [s[lo:hi]] with Go's bounds check [0 <= lo <= hi <= len(s)]. *)
Definition slice_checked {A} (l : list A) (lo hi : Z) : option (list A) :=
  if (0 <=? lo) && (lo <=? hi) && (hi <=? len l) then Some (slice l lo hi) else None.

(** ** Fixed-width arithmetic *)

Definition wrapU8 (z : Z) : Z := z mod 2^8.
Definition wrapU32 (z : Z) : Z := z mod 2^32.
Definition wrapU64 (z : Z) : Z := z mod 2^64.
Definition wrap64 (z : Z) : Z := (z + 2^63) mod 2^64 - 2^63.

Definition minInt64 : Z := - 2^63.
Definition maxInt64 : Z := 2^63 - 1.

(** ** crypto/sha1 (FIPS 180-4), the model of [sha1.Sum] *)

Module SHA1.

Definition rotl (n x : Z) : Z :=
  Z.lor (wrapU32 (Z.shiftl x n)) (Z.shiftr x (32 - n)).

Definition add32 (x y : Z) : Z := wrapU32 (x + y).

Definition not32 (x : Z) : Z := Z.lxor x 0xFFFFFFFF.

Definition init : list Z :=
  [0x67452301; 0xEFCDAB89; 0x98BADCFE; 0x10325476; 0xC3D2E1F0].

Definition be64 (n : Z) : list Z :=
  map (fun k => Z.land (Z.shiftr n (8 * k)) 255) [7; 6; 5; 4; 3; 2; 1; 0].

Definition be32 (n : Z) : list Z :=
  map (fun k => Z.land (Z.shiftr n (8 * k)) 255) [3; 2; 1; 0].

Definition word_of (b3 b2 b1 b0 : Z) : Z :=
  Z.lor (Z.lor (Z.shiftl b3 24) (Z.shiftl b2 16)) (Z.lor (Z.shiftl b1 8) b0).

(** Padding: 0x80, zeros up to 56 mod 64, then the bit length, big-endian. *)
Definition pad (msg : list Z) : list Z :=
  let l := len msg in
  let k := (55 - l) mod 64 in
  msg ++ [0x80] ++ replicate (Z.to_nat k) 0 ++ be64 (wrapU64 (8 * l)).

Fixpoint words (bs : list Z) : list Z :=
  match bs with
  | b3 :: b2 :: b1 :: b0 :: rest => word_of b3 b2 b1 b0 :: words rest
  | _ => []
  end.

(** The message schedule, most recent word first. *)
Fixpoint schedule (n : nat) (wrev : list Z) : list Z :=
  match n with
  | O => wrev
  | S n' =>
      let x := Z.lxor (Z.lxor (nth 2 wrev 0) (nth 7 wrev 0))
                      (Z.lxor (nth 13 wrev 0) (nth 15 wrev 0)) in
      schedule n' (rotl 1 x :: wrev)
  end.

Definition f (t : nat) (b c d : Z) : Z :=
  if (t <? 20)%nat then Z.lor (Z.land b c) (Z.land (not32 b) d)
  else if (t <? 40)%nat then Z.lxor (Z.lxor b c) d
  else if (t <? 60)%nat then Z.lor (Z.land (Z.lor b c) d) (Z.land b c)
  else Z.lxor (Z.lxor b c) d.

Definition K (t : nat) : Z :=
  if (t <? 20)%nat then 0x5A827999
  else if (t <? 40)%nat then 0x6ED9EBA1
  else if (t <? 60)%nat then 0x8F1BBCDC
  else 0xCA62C1D6.

Record regs := Regs { ra : Z; rb : Z; rc : Z; rd : Z; re : Z }.

Definition round (r : regs) (tw : nat * Z) : regs :=
  let '(t, w) := tw in
  let tmp := add32 (add32 (add32 (add32 (rotl 5 (ra r)) (f t (rb r) (rc r) (rd r)))
                                 (re r)) w) (K t) in
  Regs tmp (ra r) (rotl 30 (rb r)) (rc r) (rd r).

Definition block (h : list Z) (blk : list Z) : list Z :=
  let w := rev (schedule 64 (rev (words blk))) in
  let r0 := Regs (nth 0 h 0) (nth 1 h 0) (nth 2 h 0) (nth 3 h 0) (nth 4 h 0) in
  let r := fold_left round (combine (seq 0 80) w) r0 in
  [add32 (nth 0 h 0) (ra r); add32 (nth 1 h 0) (rb r); add32 (nth 2 h 0) (rc r);
   add32 (nth 3 h 0) (rd r); add32 (nth 4 h 0) (re r)].

Fixpoint blocks (n : nat) (h : list Z) (bs : list Z) : list Z :=
  match n with
  | O => h
  | S n' => blocks n' (block h (take 64 bs)) (drop 64 bs)
  end.

(** [sha1.Sum(data)]: the 20-byte digest. *)
Definition Sum (data : list Z) : list Z :=
  let p := pad data in
  concat (map be32 (blocks (length p / 64) init p)).

End SHA1.

(** [fmt.Sprintf("%x", bs)] on a byte slice: two lower-case hex digits per byte. *)
Definition hex_digit (d : Z) : Z := if d <? 10 then 48 + d else 87 + d.

Definition hex (bs : list Z) : list Z :=
  flat_map (fun b => [hex_digit (Z.shiftr b 4); hex_digit (Z.land b 15)]) bs.

(** ** strconv and fmt *)

Fixpoint parse_digits (s : list Z) (acc : Z) : option Z :=
  match s with
  | [] => Some acc
  | c :: s' =>
      if (48 <=? c) && (c <=? 57) then parse_digits s' (acc * 10 + (c - 48))
      else None
  end.

(** [strconv.ParseInt(s, 10, 64)]; [None] stands for a non-nil error
    (syntax or range). An optional sign [+] or [-] is accepted, then at
    least one decimal digit; the value must fit in an int64. *)
Definition ParseInt (s : list Z) : option Z :=
  match s with
  | [] => None
  | c :: s' =>
      let neg := c =? 45 in
      let ds := if (c =? 43) || (c =? 45) then s' else s in
      match ds with
      | [] => None
      | _ =>
          match parse_digits ds 0 with
          | None => None
          | Some un =>
              if neg then (if un <=? 2^63 then Some (- un) else None)
              else (if un <? 2^63 then Some un else None)
          end
      end
  end.

(** [strconv.Atoi]: on a 64-bit platform the same language and range as
    [ParseInt(s, 10, 64)]. *)
Definition Atoi (s : list Z) : option Z := ParseInt s.

Fixpoint digits (fuel : nat) (n : Z) (acc : list Z) : list Z :=
  match fuel with
  | O => acc
  | S fuel' =>
      let acc' := (48 + n mod 10) :: acc in
      if n <? 10 then acc' else digits fuel' (n / 10) acc'
  end.

(** [fmt.Sprintf("%d", n)] for a 64-bit integer (at most 20 digits). *)
Definition FormatInt (n : Z) : list Z :=
  if n <? 0 then 45 :: digits 20 (- n) [] else digits 20 n [].

(** ** bencode/bencode.go *)

(** A [*Data]. [DNil] is the nil pointer; [DInvalid] is [NewData(nil)]
    (Type INVALID). The other four are what [NewData] builds from an int64,
    a []byte or string, a []*Data and a map[string]*Data. *)
Inductive Data : Type :=
| DNil
| DInvalid
| DString (s : list Z)
| DInteger (n : Z)
| DList (l : list Data)
| DDict (m : list (list Z * Data)).

(** *** map[string]*Data as an association list with unique keys *)

Definition key_eqb (a b : list Z) : bool := bool_decide (a = b).

Fixpoint dict_get {V} (k : list Z) (m : list (list Z * V)) : option V :=
  match m with
  | [] => None
  | (k', v) :: m' => if key_eqb k k' then Some v else dict_get k m'
  end.

(** [dict[k] = v]: overwrite in place when the key exists, else add. *)
Fixpoint dict_set {V} (k : list Z) (v : V) (m : list (list Z * V)) : list (list Z * V) :=
  match m with
  | [] => [(k, v)]
  | (k', v') :: m' => if key_eqb k k' then (k, v) :: m' else (k', v') :: dict_set k v m'
  end.

Definition dict_keys {V} (m : list (list Z * V)) : list (list Z) := map fst m.

(** Go's string ordering: lexicographic by byte. *)
Fixpoint lex_leb (a b : list Z) : bool :=
  match a, b with
  | [], _ => true
  | _ :: _, [] => false
  | x :: a', y :: b' => if x <? y then true else if y <? x then false else lex_leb a' b'
  end.

Definition lex_ltb (a b : list Z) : bool := negb (lex_leb b a).

Fixpoint sort_insert (k : list Z) (ks : list (list Z)) : list (list Z) :=
  match ks with
  | [] => [k]
  | k' :: ks' => if lex_leb k k' then k :: ks else k' :: sort_insert k ks'
  end.

(** [slices.Sort(keys)]: the ascending arrangement of the keys. *)
Fixpoint slices_Sort (ks : list (list Z)) : list (list Z) :=
  match ks with
  | [] => []
  | k :: ks' => sort_insert k (slices_Sort ks')
  end.

(** *** Encode *)

Definition encode_string (s : list Z) : list Z := FormatInt (len s) ++ [58] ++ s.

(** [for _, elem := range list { encoded = append(encoded, Encode(elem)...) }],
    given each element's encoding ([None] where Encode panics). *)
Fixpoint append_all (encs : list (option (list Z))) (encoded : list Z) : option (list Z) :=
  match encs with
  | [] => Some encoded
  | None :: _ => None
  | Some e :: encs' => append_all encs' (encoded ++ e)
  end.

(** [for _, key := range keys { append Encode(NewData(key)); append Encode(dict[key]) }],
    given the encoding of every value of the dict. *)
Fixpoint append_entries (keys : list (list Z)) (vals : list (list Z * option (list Z)))
    (encoded : list Z) : option (list Z) :=
  match keys with
  | [] => Some encoded
  | key :: keys' =>
      match dict_get key vals with
      | Some (Some e) => append_entries keys' vals (encoded ++ encode_string key ++ e)
      | _ => None
      end
  end.

(** [Encode(data *Data) []byte]; [None] is the nil-pointer panic at
    [data.Type]. In the dictionary branch the values are encoded first and
    [Encode(dict[key])] is read from that table, key by key in sorted
    order: the same bytes, in a form that recursion on [data] accepts. *)
Fixpoint Encode (data : Data) : option (list Z) :=
  match data with
  | DNil => None
  | DInvalid => Some []
  | DString s => Some (encode_string s)
  | DInteger n => Some ([105] ++ FormatInt n ++ [101])
  | DList l =>
      match append_all (map Encode l) [108] with
      | Some encoded => Some (encoded ++ [101])
      | None => None
      end
  | DDict m =>
      let vals := map (fun kv => (fst kv, Encode (snd kv))) m in
      match append_entries (slices_Sort (dict_keys m)) vals [100] with
      | Some encoded => Some (encoded ++ [101])
      | None => None
      end
  end.

(** *** Decode *)

(** What a call of [Decode] does: return [(data, count, err)], panic, or
    (in the fuelled model only) run out of fuel. The count of bytes read is
    never negative (a negative string length panics at the slice
    expression before anything is returned), so it is a [nat]. *)
Inductive Outcome : Type :=
| Ret (data : Data) (count : nat) (err : option string)
| Panic
| OutOfFuel.

(** First index [j >= i] with [content[j] = c]. *)
Fixpoint index_from (c : Z) (content : list Z) (i : nat) : option nat :=
  match content with
  | [] => None
  | x :: rest =>
      match i with
      | O => if x =? c then Some O else S <$> index_from c rest O
      | S i' => S <$> index_from c rest i'
      end
  end.

(** [case 'i']: scan for the first 'e' from index 1. *)
Definition decode_integer (content : list Z) : Outcome :=
  match index_from 101 content 1 with
  | Some i =>
      match ParseInt (slice content 1 (Z.of_nat i)) with
      | None => Ret DNil (i + 1) None
      | Some fVal => Ret (DInteger fVal) (i + 1) None
      end
  | None => Ret DInvalid (length content) (Some "invalid integer"%string)
  end.

(** [default]: scan for the first ':' from index 0. *)
Definition decode_string (content : list Z) : Outcome :=
  match index_from 58 content 0 with
  | Some i =>
      match Atoi (take i content) with
      | None => Ret DNil (i + 1) (Some "invalid string length"%string)
      | Some strLen =>
          match slice_checked content (Z.of_nat i + 1) (Z.of_nat i + 1 + strLen) with
          | Some strVal => Ret (DString strVal) (i + 1 + Z.to_nat strLen) None
          | None => Panic
          end
      end
  | None => Ret DNil (length content) (Some "invalid string"%string)
  end.

Section Loops.

(** The recursive call [Decode(content[i:])]. *)
Variable Decode_rec : list Z -> Outcome.

(** [case 'l']: the state of the loop is the index [i] and the list so
    far; one unfolding is one iteration, including the [i++]. *)
Fixpoint list_loop (n : nat) (content : list Z) (i : nat) (lst : list Data) : Outcome :=
  match n with
  | O => OutOfFuel
  | S n' =>
      match content !! i with
      | None => Ret (DList lst) (length content) (Some "invalid list"%string)
      | Some c =>
          if c =? 101 then Ret (DList lst) (i + 1) None
          else
            match Decode_rec (drop i content) with
            | Ret elem count (Some err) => Ret (DList lst) count (Some err)
            | Ret elem count None => list_loop n' content (i + count) (lst ++ [elem])
            | Panic => Panic
            | OutOfFuel => OutOfFuel
            end
      end
  end.

(** [case 'd']: key, then value; [key.Type] on a nil key and
    [content[i:]] past the end panic. *)
Fixpoint dict_loop (n : nat) (content : list Z) (i : nat) (dict : list (list Z * Data))
    : Outcome :=
  match n with
  | O => OutOfFuel
  | S n' =>
      match content !! i with
      | None => Ret (DDict dict) (length content) (Some "invalid dictionary"%string)
      | Some c =>
          if c =? 101 then Ret (DDict dict) (i + 1) None
          else
            match Decode_rec (drop i content) with
            | Ret _ count (Some err) => Ret (DDict dict) count (Some err)
            | Ret DNil count None => Panic
            | Ret (DString k) count None =>
                let i1 := (i + count)%nat in
                if (length content <? i1)%nat then Panic
                else
                  match Decode_rec (drop i1 content) with
                  | Ret val count2 (Some err) => Ret (DDict dict) count2 (Some err)
                  | Ret val count2 None =>
                      dict_loop n' content (i1 + count2) (dict_set k val dict)
                  | Panic => Panic
                  | OutOfFuel => OutOfFuel
                  end
            | Ret _ count None => Ret (DDict dict) count (Some "invalid dictionary key"%string)
            | Panic => Panic
            | OutOfFuel => OutOfFuel
            end
      end
  end.

End Loops.

Fixpoint DecodeF (fuel : nat) (content : list Z) : Outcome :=
  match fuel with
  | O => OutOfFuel
  | S fuel' =>
      match content with
      | [] => Ret DNil 0 None
      | firstByte :: _ =>
          if firstByte =? 105 then decode_integer content
          else if firstByte =? 108 then list_loop (DecodeF fuel') (length content) content 1 []
          else if firstByte =? 100 then dict_loop (DecodeF fuel') (length content) content 1 []
          else decode_string content
      end
  end.

(** [Decode(content []byte)], returning a [*Data], an [int] and an [error]. Every recursive call is on
    a strictly shorter slice, so [length content + 1] levels are enough
    ([Decode_total] below). *)
Definition Decode (content : list Z) : Outcome := DecodeF (S (length content)) content.

(** ** torrent/protocol.go *)

(** [copy(buf[off:], src)]: overwrite the bytes of [buf] from [off] with
    as much of [src] as fits. *)
Definition copy_at (buf : list Z) (off : nat) (src : list Z) : list Z :=
  take off buf ++ take (length buf - off) src ++ drop (off + length src) buf.

(** [binary.BigEndian.PutUint32(b, v)] followed by reading the four bytes. *)
Definition be32 (v : Z) : list Z :=
  [wrapU8 (Z.shiftr v 24); wrapU8 (Z.shiftr v 16); wrapU8 (Z.shiftr v 8); wrapU8 v].

(** [PutUint32(buf[lo:lo+4], v)]; the slice expression panics when the
    buffer is shorter than [lo+4]. *)
Definition PutUint32_at (buf : list Z) (lo : nat) (v : Z) : option (list Z) :=
  if (lo + 4 <=? length buf)%nat then Some (copy_at buf lo (be32 v)) else None.

Definition MsgChoke : Z := 0.
Definition MsgUnchoke : Z := 1.
Definition MsgInterested : Z := 2.
Definition MsgNotInterested : Z := 3.
Definition MsgHave : Z := 4.
Definition MsgBitfield : Z := 5.
Definition MsgRequest : Z := 6.
Definition MsgPiece : Z := 7.
Definition MsgCancel : Z := 8.
Definition MsgPort : Z := 9.
Definition MsgKeepAlive : Z := 255.

Record Message := mkMessage { Type_ : Z; Payload : list Z }.

(** [(m *Message) Serialize() []byte]; [None] is a runtime panic (only
    possible when the uint32 length computation wraps). *)
Definition Serialize (m : Message) : option (list Z) :=
  if Type_ m =? MsgKeepAlive then Some (replicate 4 0)
  else
    let length32 := wrapU32 (1 + len (Payload m)) in
    let buf := replicate (Z.to_nat (wrapU32 (4 + length32))) 0 in
    buf ← PutUint32_at buf 0 length32;
    if (length buf <=? 4)%nat then None
    else
      let buf := <[4%nat := wrapU8 (Type_ m)]> buf in
      Some (copy_at buf 5 (Payload m)).

(** [FormatRequest(index, begin, length uint32) []byte]. *)
Definition FormatRequest (index begin length32 : Z) : option (list Z) :=
  let payload := replicate 12 0 in
  payload ← PutUint32_at payload 0 index;
  payload ← PutUint32_at payload 4 begin;
  PutUint32_at payload 8 length32.

(** [type Bitfield []byte]. Go's [/] and [%] on [int] truncate toward
    zero; a shift of a uint8 by eight or more gives zero. *)
Definition HasPiece (bf : list Z) (index : Z) : bool :=
  let byteIndex := Z.quot index 8 in
  let offset := Z.rem index 8 in
  if (byteIndex <? 0) || (byteIndex >=? len bf) then false
  else
    match bf !! Z.to_nat byteIndex with
    | Some b => negb (Z.land (Z.shiftr b (7 - offset)) 1 =? 0)
    | None => false
    end.

Definition SetPiece (bf : list Z) (index : Z) : list Z :=
  let byteIndex := Z.quot index 8 in
  let offset := Z.rem index 8 in
  if (byteIndex <? 0) || (byteIndex >=? len bf) then bf
  else
    match bf !! Z.to_nat byteIndex with
    | Some b => <[Z.to_nat byteIndex := Z.lor b (wrapU8 (Z.shiftl 1 (7 - offset)))]> bf
    | None => bf
    end.

(** *** The bencode grammar, for stating the codec's properties

    [bencoding v] writes [v] by the grammar [i<int>e], [<len>:<bytes>],
    [l<items>e], [d<(string,value)*>e], dictionary entries in the order
    they are listed. [canonicalb v] says that [v] is a bencode value (no nil
    pointer, no INVALID), integers fit in an int64, lengths fit in an int,
    and every dictionary lists its keys in strictly ascending byte order. *)

Definition is_digit (c : Z) : bool := (48 <=? c) && (c <=? 57).

(** [0 | [1-9][0-9]*] *)
Definition minimal_decimal (s : list Z) : bool :=
  match s with
  | [] => false
  | d :: s' => forallb is_digit s && (negb (d =? 48) || bool_decide (s' = []))
  end.

(** A decimal integer with no [+], no leading zero and no [-0]. *)
Definition canonical_int_text (s : list Z) : bool :=
  match s with
  | [] => false
  | c :: s' =>
      if c =? 45 then minimal_decimal s' && negb (bool_decide (s' = [48]))
      else minimal_decimal s
  end.

Fixpoint ascending (ks : list (list Z)) : bool :=
  match ks with
  | [] => true
  | k :: ks' => forallb (lex_ltb k) ks' && ascending ks'
  end.

Fixpoint bencoding (v : Data) : list Z :=
  match v with
  | DNil | DInvalid => []
  | DString s => FormatInt (len s) ++ [58] ++ s
  | DInteger n => [105] ++ FormatInt n ++ [101]
  | DList l => [108] ++ concat (map bencoding l) ++ [101]
  | DDict m =>
      [100] ++ concat (map (fun kv => encode_string (fst kv) ++ bencoding (snd kv)) m) ++ [101]
  end.

Fixpoint canonicalb (v : Data) : bool :=
  match v with
  | DNil | DInvalid => false
  | DString s => len s <? 2^63
  | DInteger n => (minInt64 <=? n) && (n <=? maxInt64)
  | DList l => forallb canonicalb l
  | DDict m =>
      forallb (fun kv => (len (fst kv) <? 2^63) && canonicalb (snd kv)) m
      && ascending (dict_keys m)
  end.

(** Nesting depth: the number of [Decode] activations on the stack. *)
Fixpoint depth (v : Data) : nat :=
  match v with
  | DNil | DInvalid => 0
  | DString _ | DInteger _ => 1
  | DList l => S (foldr (fun x d => Nat.max (depth x) d) 0%nat l)
  | DDict m => S (foldr (fun kv d => Nat.max (depth (snd kv)) d) 1%nat m)
  end.

(** Induction on [Data] that reaches the values nested in lists and
    dictionaries. *)
Section Data_induction.
Variable P : Data -> Prop.
Hypothesis HNil : P DNil.
Hypothesis HInvalid : P DInvalid.
Hypothesis HString : forall s, P (DString s).
Hypothesis HInteger : forall n, P (DInteger n).
Hypothesis HList : forall l, Forall P l -> P (DList l).
Hypothesis HDict : forall m, Forall (fun kv => P (snd kv)) m -> P (DDict m).

Fixpoint Data_nested_ind (d : Data) : P d :=
  match d with
  | DNil => HNil
  | DInvalid => HInvalid
  | DString s => HString s
  | DInteger n => HInteger n
  | DList l =>
      HList l ((fix go (l : list Data) : Forall P l :=
                  match l with
                  | [] => @List.Forall_nil _ P
                  | x :: l' => @List.Forall_cons _ P x l' (Data_nested_ind x) (go l')
                  end) l)
  | DDict m =>
      HDict m ((fix go (m : list (list Z * Data)) : Forall (fun kv => P (snd kv)) m :=
                  match m with
                  | [] => @List.Forall_nil _ _
                  | kv :: m' =>
                      @List.Forall_cons _ (fun kv => P (snd kv)) kv m' (Data_nested_ind (snd kv)) (go m')
                  end) m)
  end.
End Data_induction.

(** ** torrent/torrent.go *)

(** The typed accessors of [Data]; [None] is the panic of a failed type
    assertion or of a method call on a nil [*Data]. *)
Definition AsString (d : Data) : option (list Z) :=
  match d with DString s => Some s | _ => None end.
Definition AsBytes (d : Data) : option (list Z) := AsString d.
Definition AsInt (d : Data) : option Z :=
  match d with DInteger n => Some n | _ => None end.
Definition AsList (d : Data) : option (list Data) :=
  match d with DList l => Some l | _ => None end.
Definition AsDict (d : Data) : option (list (list Z * Data)) :=
  match d with DDict m => Some m | _ => None end.

(** [dict[key]] without the [ok] flag: a missing key reads as nil. *)
Definition at_key (dict : list (list Z * Data)) (key : string) : Data :=
  default DNil (dict_get (B key) dict).

Record File := mkFile {
  Length : Z;
  Path : list Z;
  FirstPieceIndex : Z;
  LastPieceIndex : Z
}.

Record Torrent := mkTorrent {
  AnnounceList : list (list Z);
  Name : list Z;
  UrlList : list (list Z);
  CreatedBy : list Z;
  Comment : list Z;
  CreatedAt : Z;
  FileList : list File;
  PieceLength : Z;
  Pieces : list (list Z);
  InfoHash : list Z;
  TorrentLength : Z;
  IsPrivate : bool
}.

Definition NewFile (length_ : Z) (path : list Z) : File := mkFile length_ path 0 0.

(** [if x, ok := dict[key]; ok { ... x.AsT() ... }] with a default when
    the key is absent. *)
Definition optional_key {A} (dict : list (list Z * Data)) (key : string)
    (as_ : Data -> option A) (dflt : A) : option A :=
  match dict_get (B key) dict with
  | Some x => as_ x
  | None => Some dflt
  end.

(** The path components joined with "/". *)
Fixpoint join_path (comps : list (list Z)) : list Z :=
  match comps with
  | [] => []
  | [c] => c
  | c :: rest => c ++ [47] ++ join_path rest
  end.

Definition file_of_dict (fileData : Data) : option File :=
  fileDict ← AsDict fileData;
  length_ ← AsInt (at_key fileDict "length");
  path ← optional_key fileDict "path"
            (fun filePath => pathData ← AsList filePath;
                             comps ← mapM AsString pathData;
                             Some (join_path comps)) [];
  Some (NewFile length_ path).

(** The loop [for i := 0; i < len(piecesData); i += 20] with the slice
    [piecesData[i:i+20]] rendered by [%x]. *)
Fixpoint pieces_loop (fuel : nat) (piecesData : list Z) : option (list (list Z)) :=
  match fuel with
  | O => Some []
  | S fuel' =>
      match piecesData with
      | [] => Some []
      | _ =>
          piece ← slice_checked piecesData 0 20;
          rest ← pieces_loop fuel' (drop 20 piecesData);
          Some (hex piece :: rest)
      end
  end.

(** "put piece indices in the files": the running [pieceIndex] and the
    files already updated. int64 division by zero panics. *)
Fixpoint assign_piece_indices (pieceLength : Z) (pieceIndex : Z) (files : list File)
    : option (list File) :=
  match files with
  | [] => Some []
  | file :: files' =>
      if pieceLength =? 0 then None
      else
        let pieceCount := wrap64 (Z.quot (Length file) pieceLength) in
        let pieceCount :=
          if negb (Z.rem (Length file) pieceLength =? 0) then wrap64 (pieceCount + 1)
          else pieceCount in
        let file' := mkFile (Length file) (Path file) pieceIndex
                            (wrap64 (wrap64 (pieceIndex + pieceCount) - 1)) in
        rest ← assign_piece_indices pieceLength (wrap64 (pieceIndex + pieceCount)) files';
        Some (file' :: rest)
  end.

(** [TorrentFromBencodeData(data *bencode.Data) *Torrent]. The outer
    [option] is a panic, the inner one the nil result for nil data. *)
Definition TorrentFromBencodeData (data : Data) : option (option Torrent) :=
  match data with
  | DNil => Some None
  | _ =>
      rootDict ← AsDict data;
      infoDict ← AsDict (at_key rootDict "info");
      (* announce-list *)
      announceList ← optional_key rootDict "announce-list"
          (fun announceList =>
             announceListData ← AsList announceList;
             tiers ← mapM (fun announceData => l ← AsList announceData; mapM AsString l)
                          announceListData;
             Some (concat tiers)) [];
      (* announce *)
      announceList ← match dict_get (B "announce") rootDict with
                     | Some announce =>
                         a ← AsString announce;
                         Some (if bool_decide (a ∈ announceList) then announceList
                               else announceList ++ [a])
                     | None => Some announceList
                     end;
      name ← optional_key infoDict "name" AsString [];
      urlList ← optional_key rootDict "url-list"
          (fun urlList => urlListData ← AsList urlList; mapM AsString urlListData) [];
      comment ← optional_key rootDict "comment" AsString [];
      createdBy ← optional_key rootDict "created by" AsString [];
      createdAt ← optional_key rootDict "creation date" AsInt 0;
      (* files list, or single file mode *)
      '(fileList, length_) ←
          match dict_get (B "files") infoDict with
          | Some files =>
              filesData ← AsList files;
              fs ← mapM file_of_dict filesData;
              Some (fs, fold_left (fun acc f => wrap64 (acc + Length f)) fs 0)
          | None =>
              l ← AsInt (at_key infoDict "length");
              Some ([NewFile l name], l)
          end;
      pieceLength ← optional_key infoDict "piece length" AsInt 0;
      pieces ← optional_key infoDict "pieces"
          (fun pieces => piecesData ← AsBytes pieces;
                         pieces_loop (length piecesData) piecesData) [];
      isPrivate ← optional_key infoDict "private"
          (fun isPrivate => n ← AsInt isPrivate; Some (n =? 1)) false;
      (* info hash: sha1.Sum(infoData.ToBytes()) *)
      infoBytes ← Encode (at_key rootDict "info");
      let hash := SHA1.Sum infoBytes in
      fileList ← assign_piece_indices pieceLength 0 fileList;
      Some (Some (mkTorrent announceList name urlList createdBy comment createdAt
                            fileList pieceLength pieces hash length_ isPrivate))
  end.

(** Results of the operations that return [(value, error)]; the error
    carries its message. *)
Inductive Result (A : Type) : Type :=
| Ok (a : A)
| Error (msg : list Z)
| Panicked.
Arguments Ok {A} a.
Arguments Error {A} msg.
Arguments Panicked {A}.

(** [TorrentFromBytes(data []byte)], returning a [*Torrent] and an [error]. [Decode] never runs
    out of fuel ([Decode_total]); that outcome is mapped to [Panicked] only
    to make the match complete. *)
Definition TorrentFromBytes (data : list Z) : Result (option Torrent) :=
  match Decode data with
  | Ret bencodeData _ (Some err) => Error (B "error decoding torrent file: " ++ B err)
  | Ret bencodeData _ None =>
      match TorrentFromBencodeData bencodeData with
      | Some t => Ok t
      | None => Panicked
      end
  | Panic => Panicked
  | OutOfFuel => Panicked
  end.

(** *** Concrete metainfo used in the statements below *)

Definition pieces20 : list Z :=
  [1; 2; 3; 4; 5; 6; 7; 8; 9; 10; 11; 12; 13; 14; 15; 16; 17; 18; 19; 20].

(** The info dictionary of the specification's info-hash scenario: its keys
    are in the order name, piece length, pieces, length. *)
Definition info_unsorted : list Z :=
  B "d4:name5:hello12:piece lengthi16384e6:pieces20:" ++ pieces20 ++ B "6:lengthi16384ee".

Definition meta_unsorted : list Z := B "d4:info" ++ info_unsorted ++ B "e".

(** The same dictionary with its keys in ascending order. *)
Definition info_sorted : list Z :=
  B "d6:lengthi16384e4:name5:hello12:piece lengthi16384e6:pieces20:" ++ pieces20 ++ B "e".

Definition meta_sorted_value : Data :=
  DDict [(B "info",
          DDict [(B "length", DInteger 16384); (B "name", DString (B "hello"));
                 (B "piece length", DInteger 16384); (B "pieces", DString pieces20)])].

(** *** Files on disk

    The file system is a finite map from full paths to contents.
    [filepath.Join] is a parameter of the development. *)

Definition Disk := list (list Z * list Z).

(** [f.Seek(off, io.SeekStart); f.Write(data)] on a file with contents
    [c]: a hole past the end reads as zeros. *)
Definition file_write (c : list Z) (off : Z) (data : list Z) : list Z :=
  let o := Z.to_nat off in
  take o (c ++ replicate (o - length c) 0) ++ data ++ drop (o + length data) c.

(** The successive results of [f.Read(buf)] with [len(buf) = n] on a
    regular file: full buffers, then the remainder, then EOF. *)
Fixpoint reads (fuel : nat) (n : nat) (content : list Z) : list (list Z) :=
  match fuel with
  | O => []
  | S fuel' =>
      match n, content with
      | O, _ => []
      | _, [] => []
      | _, _ => take n content :: reads fuel' n (drop n content)
      end
  end.

(** *** VerifyTorrent *)

(** Where the slice [piece] points: into its own array (the first [make]),
    into the array of [pieceBuf], or into an array that [append] allocated. *)
Inductive PieceRef : Type :=
| InPiece (n : nat)
| InPieceBuf (n : nat)
| Fresh (data : list Z).

Record VerifyState := mkVerifyState {
  pieceArr : list Z;
  pieceBuf : list Z;
  piece : PieceRef;
  pieceIndex : nat
}.

Definition piece_bytes (st : VerifyState) : list Z :=
  match piece st with
  | InPiece n => take n (pieceArr st)
  | InPieceBuf n => take n (pieceBuf st)
  | Fresh data => data
  end.

Definition piece_len (st : VerifyState) : nat :=
  match piece st with
  | InPiece n => n
  | InPieceBuf n => n
  | Fresh data => length data
  end.

(** The branch [n < int(pieceLength)] after a read of [n] bytes into
    [pieceBuf]: append to a short [piece], or copy over it and cut it to
    [n]. Both arrays have [pieceLength] cells, so an append that fits is
    done in place. *)
Definition short_read (pl n : nat) (st : VerifyState) : VerifyState :=
  let chunk := take n (pieceBuf st) in
  match piece st with
  | InPiece m =>
      if (m <? pl)%nat then
        if (m + n <=? pl)%nat
        then mkVerifyState (copy_at (pieceArr st) m chunk) (pieceBuf st) (InPiece (m + n))
                           (pieceIndex st)
        else mkVerifyState (pieceArr st) (pieceBuf st) (Fresh (take m (pieceArr st) ++ chunk))
                           (pieceIndex st)
      else mkVerifyState (copy_at (pieceArr st) 0 chunk) (pieceBuf st) (InPiece n)
                         (pieceIndex st)
  | InPieceBuf m =>
      if (m <? pl)%nat then
        if (m + n <=? pl)%nat
        then mkVerifyState (pieceArr st) (copy_at (pieceBuf st) m chunk) (InPieceBuf (m + n))
                           (pieceIndex st)
        else mkVerifyState (pieceArr st) (pieceBuf st) (Fresh (take m (pieceBuf st) ++ chunk))
                           (pieceIndex st)
      else mkVerifyState (pieceArr st) (pieceBuf st) (InPieceBuf n) (pieceIndex st)
  | Fresh data =>
      if (length data <? pl)%nat
      then mkVerifyState (pieceArr st) (pieceBuf st) (Fresh (data ++ chunk)) (pieceIndex st)
      else mkVerifyState (pieceArr st) (pieceBuf st) (Fresh (take n (copy_at data 0 chunk)))
                         (pieceIndex st)
  end.

Definition piece_corrupted (i : nat) : list Z :=
  B "piece " ++ FormatInt (Z.of_nat i) ++ B " is corrupted".

(** The inner [for] of one file, over the results of its reads. *)
Fixpoint verify_file (pl : nat) (pieceHashes : list (list Z)) (isLast : bool)
    (chunks : list (list Z)) (st : VerifyState) : Result VerifyState :=
  match chunks with
  | [] => Ok st
  | chunk :: chunks' =>
      let n := length chunk in
      let st := mkVerifyState (pieceArr st) (copy_at (pieceBuf st) 0 chunk) (piece st)
                              (pieceIndex st) in
      let st := if (n <? pl)%nat then short_read pl n st
                else mkVerifyState (pieceArr st) (pieceBuf st) (InPieceBuf n) (pieceIndex st) in
      if (n <? pl)%nat && negb isLast then Ok st
      else
        match pieceHashes !! pieceIndex st with
        | None => Panicked
        | Some expected =>
            if bool_decide (hex (SHA1.Sum (piece_bytes st)) = expected) then
              let st := mkVerifyState (pieceArr st) (pieceBuf st) (piece st)
                                      (S (pieceIndex st)) in
              if (pieceIndex st =? length pieceHashes)%nat then Ok st
              else verify_file pl pieceHashes isLast chunks' st
            else Error (piece_corrupted (pieceIndex st))
        end
  end.

Section FileSystem.

Variable filepath_Join : list Z -> list Z -> list Z.

(** The outer [for fileIndex, file := range torrent.FileList]. *)
Fixpoint verify_files (disk : Disk) (contentPath : list Z) (pl : nat)
    (pieceHashes : list (list Z)) (files : list File) (st : VerifyState) : Result unit :=
  match files with
  | [] => Ok tt
  | file :: files' =>
      match dict_get (filepath_Join contentPath (Path file)) disk with
      | None => Error (B "open " ++ filepath_Join contentPath (Path file)
                         ++ B ": no such file or directory")
      | Some content =>
          let isLast := match files' with [] => true | _ => false end in
          match verify_file pl pieceHashes isLast (reads (S (length content)) pl content) st with
          | Ok st' => verify_files disk contentPath pl pieceHashes files' st'
          | Error msg => Error msg
          | Panicked => Panicked
          end
      end
  end.

(** [VerifyTorrent(filename, contentPath string) error] *)
Definition VerifyTorrent (disk : Disk) (filename contentPath : list Z) : Result unit :=
  match dict_get filename disk with
  | None => Error (B "open " ++ filename ++ B ": no such file or directory")
  | Some content =>
      match TorrentFromBytes content with
      | Error msg => Error msg
      | Panicked => Panicked
      | Ok None => Panicked
      | Ok (Some torrent) =>
          match list_find (fun file =>
                    dict_get (filepath_Join contentPath (Path file)) disk = None)
                  (FileList torrent) with
          | Some (_, file) =>
              Error (B "stat " ++ filepath_Join contentPath (Path file)
                       ++ B ": no such file or directory")
          | None =>
              if PieceLength torrent <? 0 then Panicked
              else
                let pl := Z.to_nat (PieceLength torrent) in
                verify_files disk contentPath pl (Pieces torrent) (FileList torrent)
                  (mkVerifyState (replicate pl 0) (replicate pl 0) (InPiece pl) 0)
          end
      end
  end.

(** ** download_manager.go *)

(** [createEmptyFiles]: create each file and truncate it to its length. *)
Fixpoint createEmptyFiles_loop (downloadPath : list Z) (files : list File) (disk : Disk)
    : Disk * Result unit :=
  match files with
  | [] => (disk, Ok tt)
  | file :: files' =>
      let filePath := filepath_Join downloadPath (Path file) in
      let disk := dict_set filePath [] disk in
      if Length file <? 0 then (disk, Error (B "truncate " ++ filePath ++ B ": invalid argument"))
      else createEmptyFiles_loop downloadPath files'
             (dict_set filePath (replicate (Z.to_nat (Length file)) 0) disk)
  end.

Definition createEmptyFiles (tor : Torrent) (downloadPath : list Z) (disk : Disk)
    : Disk * Result unit :=
  createEmptyFiles_loop downloadPath (FileList tor) disk.

(** The loop of [writePiece] over [tor.FileList], with the running
    [currentOffset]; all arithmetic is int64. *)
Fixpoint writePiece_loop (pieceOffset pieceLength : Z) (pieceData : list Z)
    (downloadPath : list Z) (files : list File) (currentOffset : Z) (disk : Disk)
    : Disk * Result unit :=
  match files with
  | [] => (disk, Ok tt)
  | file :: files' =>
      let filePath := filepath_Join downloadPath (Path file) in
      let fileStart := currentOffset in
      let fileEnd := wrap64 (currentOffset + Length file) in
      let next := wrap64 (currentOffset + Length file) in
      if (pieceOffset <? fileEnd) && (wrap64 (pieceOffset + pieceLength) >? fileStart) then
        let pieceStartInFile :=
          if pieceOffset >? fileStart then wrap64 (pieceOffset - fileStart) else 0 in
        let fileStartInPiece :=
          if fileStart >? pieceOffset then wrap64 (fileStart - pieceOffset) else 0 in
        let bytesToWrite :=
          if fileEnd <? wrap64 (pieceOffset + pieceLength)
          then wrap64 (fileEnd - wrap64 (pieceOffset + fileStartInPiece))
          else wrap64 (pieceLength - fileStartInPiece) in
        match dict_get filePath disk with
        | None => (disk, Error (B "open " ++ filePath ++ B ": no such file or directory"))
        | Some c =>
            if pieceStartInFile <? 0
            then (disk, Error (B "seek " ++ filePath ++ B ": invalid argument"))
            else
              match slice_checked pieceData fileStartInPiece
                      (wrap64 (fileStartInPiece + bytesToWrite)) with
              | None => (disk, Panicked)
              | Some data =>
                  writePiece_loop pieceOffset pieceLength pieceData downloadPath files' next
                    (dict_set filePath (file_write c pieceStartInFile data) disk)
              end
        end
      else
        writePiece_loop pieceOffset pieceLength pieceData downloadPath files' next disk
  end.

(** [writePiece(tor, pieceIndex, pieceData, downloadPath) error] *)
Definition writePiece (tor : Torrent) (pieceIndex : Z) (pieceData : list Z)
    (downloadPath : list Z) (disk : Disk) : Disk * Result unit :=
  let pieceOffset := wrap64 (pieceIndex * PieceLength tor) in
  let pieceLength := len pieceData in
  writePiece_loop pieceOffset pieceLength pieceData downloadPath (FileList tor) 0 disk.

End FileSystem.

(** Two files that do not end on a piece boundary: [piece length = 4],
    files [a] (3 bytes) and [b] (5 bytes), so two pieces over the stream
    [1..8]. *)
Definition meta_two_files : list Z :=
  B "d4:infod5:filesld6:lengthi3e4:pathl1:aeed6:lengthi5e4:pathl1:beee4:name1:t12:piece lengthi4e6:pieces40:"
  ++ SHA1.Sum [1; 2; 3; 4] ++ SHA1.Sum [5; 6; 7; 8] ++ B "ee".

(** A plain [dir/name] join, for the concrete file systems below. *)
Definition join_slash (dir name : list Z) : list Z := dir ++ [47] ++ name.

Definition disk_two_files : Disk :=
  [(B "t.torrent", meta_two_files); (B "dl/a", [1; 2; 3]); (B "dl/b", [4; 5; 6; 7; 8])].

(** *** startDownloadFromPeers: the worker pool as an interleaving of atomic steps

    Each worker goroutine is at one of the program points below; a step of
    the orchestrator is a step of one worker or a tick of the progress
    reporter. The sections guarded by [downloadMutex] are single steps. What
    a peer delivers is not determined by the program, so a download step may
    fail or yield any bytes. A runtime panic in any goroutine (an index out
    of range, a send on or a close of a closed channel) ends the program:
    [crashed] is set and no step follows. *)

Inductive Worker : Type :=
| AtReceive                                  (* for pieceIndex := range pieceQueue *)
| AtCheck (pieceIndex : nat)                 (* if downloaded[pieceIndex] { continue } *)
| AtDownload (pieceIndex : nat)              (* downloadPieceFromPeers *)
| AtVerify (pieceIndex : nat) (piece : list Z)   (* actualHash != expectedHash *)
| AtWrite (pieceIndex : nat) (piece : list Z)    (* writePiece *)
| AtMark (pieceIndex : nat)                  (* downloaded[pieceIndex] = true; count; close *)
| AtRequeue (pieceIndex : nat)               (* pieceQueue <- pieceIndex; continue *)
| Exited.

Record Orchestrator := mkOrchestrator {
  downloaded : list bool;
  pieceQueue : list nat;
  queueClosed : bool;
  workers : list Worker;
  files : Disk;
  reported : list nat;      (* completedPieces seen by the reporter, oldest first *)
  crashed : bool            (* send on, or close of, a closed channel *)
}.

(** [completedPieces]: the number of [true] entries of [downloaded]. *)
Definition completedPieces (downloaded : list bool) : nat :=
  length (filter (fun b => b = true) downloaded).

Definition maxWorkers (peers : nat) : nat :=
  let n := (peers * 5)%nat in
  let n := if (20 <? n)%nat then 20%nat else n in
  if (n <? 5)%nat then 5%nat else n.

Section Orchestrator.

Variable filepath_Join : list Z -> list Z -> list Z.
Variable tor : Torrent.
Variable downloadPath : list Z.

Definition set_worker (s : Orchestrator) (w : nat) (pc : Worker) : Orchestrator :=
  mkOrchestrator (downloaded s) (pieceQueue s) (queueClosed s) (<[w := pc]> (workers s))
                 (files s) (reported s) (crashed s).

Definition orchestrator_init (peers : nat) (disk : Disk) : Orchestrator :=
  let totalPieces := length (Pieces tor) in
  mkOrchestrator (replicate totalPieces false) (seq 0 totalPieces) false
                 (replicate (maxWorkers peers) AtReceive) disk [] false.

Inductive step : Orchestrator -> Orchestrator -> Prop :=
| step_receive s w i q :
    crashed s = false -> workers s !! w = Some AtReceive ->
    pieceQueue s = i :: q ->
    step s (mkOrchestrator (downloaded s) q (queueClosed s) (<[w := AtCheck i]> (workers s))
                           (files s) (reported s) false)
| step_drained s w :
    crashed s = false -> workers s !! w = Some AtReceive ->
    pieceQueue s = [] -> queueClosed s = true ->
    step s (set_worker s w Exited)
| step_already_done s w i :
    crashed s = false -> workers s !! w = Some (AtCheck i) ->
    downloaded s !! i = Some true ->
    step s (set_worker s w AtReceive)
| step_not_done s w i :
    crashed s = false -> workers s !! w = Some (AtCheck i) ->
    downloaded s !! i = Some false ->
    step s (set_worker s w (AtDownload i))
| step_download_failed s w i :
    crashed s = false -> workers s !! w = Some (AtDownload i) ->
    step s (set_worker s w (AtRequeue i))
| step_download_ok s w i piece :
    crashed s = false -> workers s !! w = Some (AtDownload i) ->
    step s (set_worker s w (AtVerify i piece))
| step_hash_mismatch s w i piece expectedHash :
    crashed s = false -> workers s !! w = Some (AtVerify i piece) ->
    Pieces tor !! i = Some expectedHash ->
    hex (SHA1.Sum piece) <> expectedHash ->
    step s (set_worker s w (AtRequeue i))
| step_hash_ok s w i piece :
    crashed s = false -> workers s !! w = Some (AtVerify i piece) ->
    Pieces tor !! i = Some (hex (SHA1.Sum piece)) ->
    step s (set_worker s w (AtWrite i piece))
| step_write_failed s w i piece disk' msg :
    crashed s = false -> workers s !! w = Some (AtWrite i piece) ->
    writePiece filepath_Join tor (Z.of_nat i) piece downloadPath (files s)
      = (disk', Error msg) ->
    step s (mkOrchestrator (downloaded s) (pieceQueue s) (queueClosed s)
                           (<[w := AtRequeue i]> (workers s)) disk' (reported s) false)
| step_write_ok s w i piece disk' :
    crashed s = false -> workers s !! w = Some (AtWrite i piece) ->
    writePiece filepath_Join tor (Z.of_nat i) piece downloadPath (files s)
      = (disk', Ok tt) ->
    step s (mkOrchestrator (downloaded s) (pieceQueue s) (queueClosed s)
                           (<[w := AtMark i]> (workers s)) disk' (reported s) false)
| step_write_panic s w i piece disk' :
    crashed s = false -> workers s !! w = Some (AtWrite i piece) ->
    writePiece filepath_Join tor (Z.of_nat i) piece downloadPath (files s)
      = (disk', Panicked) ->
    step s (mkOrchestrator (downloaded s) (pieceQueue s) (queueClosed s) (workers s)
                           disk' (reported s) true)
| step_requeue s w i :
    crashed s = false -> workers s !! w = Some (AtRequeue i) ->
    queueClosed s = false ->
    step s (mkOrchestrator (downloaded s) (pieceQueue s ++ [i]) false
                           (<[w := AtReceive]> (workers s)) (files s) (reported s) false)
| step_requeue_closed s w i :
    crashed s = false -> workers s !! w = Some (AtRequeue i) ->
    queueClosed s = true ->
    step s (mkOrchestrator (downloaded s) (pieceQueue s) true (workers s) (files s)
                           (reported s) true)
| step_mark s w i :
    crashed s = false -> workers s !! w = Some (AtMark i) ->
    (i < length (downloaded s))%nat ->
    let downloaded' := <[i := true]> (downloaded s) in
    let complete := bool_decide (completedPieces downloaded' = length (Pieces tor)) in
    step s (mkOrchestrator downloaded' (pieceQueue s) (queueClosed s || complete)
                           (<[w := AtReceive]> (workers s)) (files s) (reported s)
                           (queueClosed s && complete))
| step_index_out_of_range s w (pc : Worker) i :
    crashed s = false -> workers s !! w = Some pc ->
    (pc = AtCheck i \/ pc = AtMark i) -> (length (downloaded s) <= i)%nat ->
    step s (mkOrchestrator (downloaded s) (pieceQueue s) (queueClosed s) (workers s)
                           (files s) (reported s) true)
| step_hash_out_of_range s w i piece :
    crashed s = false -> workers s !! w = Some (AtVerify i piece) ->
    Pieces tor !! i = None ->
    step s (mkOrchestrator (downloaded s) (pieceQueue s) (queueClosed s) (workers s)
                           (files s) (reported s) true)
| step_report s :
    crashed s = false ->
    step s (mkOrchestrator (downloaded s) (pieceQueue s) (queueClosed s) (workers s)
                           (files s) (reported s ++ [completedPieces (downloaded s)]) false).

End Orchestrator.

(** The torrent of [meta_two_files], and its files pre-allocated under [dl]. *)
Definition tor_two_files : Torrent :=
  match TorrentFromBytes meta_two_files with
  | Ok (Some t) => t
  | _ => mkTorrent [] [] [] [] [] 0 [] 0 [] [] 0 false
  end.

Definition disk_preallocated : Disk :=
  fst (createEmptyFiles join_slash tor_two_files (B "dl") []).

(** *** Writeback of a whole buffer, and the byte-range arithmetic of the
    specification *)

Definition total_length (files : list File) : Z :=
  fold_right (fun f acc => Length f + acc) 0 files.

(** Each file with its global start offset [F_start]. *)
Fixpoint file_starts (currentOffset : Z) (files : list File) : list (File * Z) :=
  match files with
  | [] => []
  | file :: files' => (file, currentOffset) :: file_starts (currentOffset + Length file) files'
  end.

(** Piece [i] of a buffer: [piece_length] bytes, the last possibly shorter. *)
Definition piece_of (buf : list Z) (pieceLength : Z) (i : Z) : list Z :=
  slice buf (i * pieceLength) (Z.min ((i + 1) * pieceLength) (len buf)).

(** The write that the byte-range arithmetic of the specification
    prescribes for a piece with global range [[piece_start, piece_end)] and
    a file with global range [[F_start, F_end)] and contents [c]: when they
    overlap, the slice of the piece starting at [max(0, F_start - piece_start)],
    of length [min(piece_end, F_end) - max(piece_start, F_start)], goes to
    file offset [max(0, piece_start - F_start)]. *)
Definition spec_write (piece_start piece_end : Z) (pieceData : list Z)
    (F_start F_end : Z) (c : list Z) : list Z :=
  if (piece_start <? F_end) && (piece_end >? F_start) then
    let from := Z.max 0 (F_start - piece_start) in
    let count := Z.min piece_end F_end - Z.max piece_start F_start in
    file_write c (Z.max 0 (piece_start - F_start)) (slice pieceData from (from + count))
  else c.

Section Writeback.

Variable filepath_Join : list Z -> list Z -> list Z.

(** [writePiece] for each index of [order] in turn, stopping at the first
    failure. *)
Fixpoint write_pieces (tor : Torrent) (buf : list Z) (downloadPath : list Z)
    (order : list Z) (disk : Disk) : Disk * Result unit :=
  match order with
  | [] => (disk, Ok tt)
  | i :: order' =>
      match writePiece filepath_Join tor i (piece_of buf (PieceLength tor) i)
              downloadPath disk with
      | (disk', Ok _) => write_pieces tor buf downloadPath order' disk'
      | (disk', r) => (disk', r)
      end
  end.

(** The contents of the torrent's files, in listed order. *)
Definition file_contents (tor : Torrent) (downloadPath : list Z) (disk : Disk)
    : list (list Z) :=
  map (fun f => default [] (dict_get (filepath_Join downloadPath (Path f)) disk))
      (FileList tor).

End Writeback.

(** ** Predicates used in the statements and proofs below *)

(** [dec] reads back what the grammar writes for [v], whatever follows. *)
Definition decodes (dec : list Z -> Outcome) (v : Data) : Prop :=
  forall rest, dec (bencoding v ++ rest) = Ret v (length (bencoding v)) None.

(** The first byte is neither ['e'] nor the tag of an integer, list or
    dictionary. *)
Definition starts_item (bs : list Z) : Prop :=
  exists c tl, bs = c :: tl /\ c <> 101 /\ c <> 105 /\ c <> 108 /\ c <> 100.

Definition nonend (bs : list Z) : Prop := exists c tl, bs = c :: tl /\ c <> 101.

(** One dictionary entry in the grammar: the key as a string, then the value. *)
Definition entry (kv : list Z * Data) : list Z :=
  encode_string (fst kv) ++ bencoding (snd kv).

Definition lex_le (a b : list Z) : Prop := lex_leb a b = true.

(** A byte string is a canonical bencoding when the grammar writes it from
    a canonical value. *)
Definition wellformed_canonical (b : list Z) : Prop :=
  exists v, canonicalb v = true /\ b = bencoding v.

(** [dec] answers on every proper suffix of [content], and consumes at
    least one byte of a non-empty one when it reports no error. *)
Definition progresses (dec : list Z -> Outcome) (content : list Z) : Prop :=
  forall j, (1 <= j)%nat ->
    dec (drop j content) <> OutOfFuel
    /\ ((j < length content)%nat ->
        forall d c, dec (drop j content) = Ret d c None -> (1 <= c)%nat).

(** The reporter's log is non-decreasing and bounded by the current count. *)
Definition report_inv (s : Orchestrator) : Prop :=
  Sorted le (reported s)
  /\ Forall (fun c => (c <= completedPieces (downloaded s))%nat) (reported s).

Section Layout.

Variable filepath_Join : list Z -> list Z -> list Z.
Variable downloadPath : list Z.

Definition path_of (f : File) : list Z := filepath_Join downloadPath (Path f).

(** Every file of the list exists on disk with its declared length. *)
Definition allocated (disk : Disk) (fl : list File) : Prop :=
  forall f, f ∈ fl -> exists c, dict_get (path_of f) disk = Some c /\ len c = Length f.

(** The files are allocated, and agree with the buffer at every offset
    that lies in a piece already written ([W] holds of its index). *)
Definition written_ok (tor : Torrent) (buf : list Z) (W : Z -> Prop) (disk : Disk) : Prop :=
  forall f fs, (f, fs) ∈ file_starts 0 (FileList tor) ->
    exists c, dict_get (path_of f) disk = Some c
      /\ len c = Length f
      /\ forall o : nat, (o < length c)%nat -> W ((fs + Z.of_nat o) / PieceLength tor) ->
           c !! o = buf !! Z.to_nat (fs + Z.of_nat o).

End Layout.

(** ** torrent/protocol.go: handshake and reading from a connection *)

(** An [io.Reader] over a finite stream: the bytes still to come.
    [io.ReadFull(r, buf)] with [len(buf) = n] takes [n] bytes or fails with
    [EOF] (nothing left) or [unexpected EOF] (too few left). *)
Definition ReadFull (r : list Z) (n : nat) : Result (list Z * list Z) :=
  if (n <=? length r)%nat then Ok (take n r, drop n r)
  else match r with
       | [] => Error (B "EOF")
       | _ => Error (B "unexpected EOF")
       end.

(** [binary.BigEndian.Uint32(b)]; a slice shorter than 4 panics. *)
Definition Uint32 (b : list Z) : option Z :=
  match b with
  | b0 :: b1 :: b2 :: b3 :: _ =>
      Some (Z.lor (Z.lor (Z.lor b3 (Z.shiftl b2 8)) (Z.shiftl b1 16)) (Z.shiftl b0 24))
  | _ => None
  end.

Definition ProtocolIdentifier : list Z := B "BitTorrent protocol".

Record Handshake := mkHandshake {
  Pstrlen : Z;
  Pstr : list Z;
  Reserved : list Z;
  HandshakeInfoHash : list Z;
  PeerID : list Z
}.

(** [NewHandshake(infoHash, peerID)]: the reserved bytes keep their zero value. *)
Definition NewHandshake (infoHash peerID : list Z) : Handshake :=
  mkHandshake (wrapU8 (len ProtocolIdentifier)) ProtocolIdentifier (replicate 8 0)
              infoHash peerID.

(** [(h *Handshake) Serialize() []byte] *)
Definition Handshake_Serialize (h : Handshake) : list Z :=
  let buf := replicate (49 + length (Pstr h)) 0 in
  let buf := <[0%nat := wrapU8 (Pstrlen h)]> buf in
  let buf := copy_at buf 1 (Pstr h) in
  let buf := copy_at buf (1 + length (Pstr h) + 8) (HandshakeInfoHash h) in
  copy_at buf (1 + length (Pstr h) + 8 + 20) (PeerID h).

(** [ReadHandshake(r io.Reader)]: the handshake read and the rest of the
    stream. *)
Definition ReadHandshake (r : list Z) : Result (Handshake * list Z) :=
  match ReadFull r 1 with
  | Error msg => Error msg
  | Panicked => Panicked
  | Ok (lengthBuf, r) =>
      let pstrlen := Z.to_nat (nth 0 lengthBuf 0) in
      if (pstrlen =? 0)%nat then Error (B "pstrlen cannot be 0")
      else
        match ReadFull r (48 + pstrlen) with
        | Error msg => Error msg
        | Panicked => Panicked
        | Ok (handshakeBuf, r) =>
            let pstr := take pstrlen handshakeBuf in
            let infoHash := copy_at (replicate 20 0) 0
                              (slice handshakeBuf (Z.of_nat pstrlen + 8)
                                                  (Z.of_nat pstrlen + 8 + 20)) in
            let peerID := copy_at (replicate 20 0) 0
                            (drop (pstrlen + 8 + 20) handshakeBuf) in
            let reserved := copy_at (replicate 8 0) 0
                              (slice handshakeBuf (Z.of_nat pstrlen) (Z.of_nat pstrlen + 8)) in
            Ok (mkHandshake (wrapU8 (Z.of_nat pstrlen)) pstr reserved infoHash peerID, r)
        end
  end.

(** A connection: the bytes the peer will send, and the bytes written to
    it so far. Writes are taken to succeed. *)
Record Conn := mkConn { incoming : list Z; outgoing : list Z }.

(** [PerformHandshake(conn, tor, selfPeerID)]: send ours, read theirs,
    check the protocol string and the info-hash. *)
Definition PerformHandshake (conn : Conn) (tor : Torrent) (selfPeerID : list Z)
    : Conn * Result Handshake :=
  let req := NewHandshake (InfoHash tor) selfPeerID in
  let conn := mkConn (incoming conn) (outgoing conn ++ Handshake_Serialize req) in
  match ReadHandshake (incoming conn) with
  | Error msg => (conn, Error (B "failed to read handshake response: " ++ msg))
  | Panicked => (conn, Panicked)
  | Ok (res, rest) =>
      let conn := mkConn rest (outgoing conn) in
      if negb (bool_decide (Pstr res = ProtocolIdentifier))
      then (conn, Error (B "invalid protocol identifier from peer: " ++ Pstr res))
      else if negb (bool_decide (HandshakeInfoHash res = InfoHash tor))
      then (conn, Error (B "infohash mismatch"))
      else (conn, Ok res)
  end.

(** [ReadMessage(r io.Reader)]: a zero length prefix is a keep-alive. *)
Definition ReadMessage (r : list Z) : Result (Message * list Z) :=
  match ReadFull r 4 with
  | Error msg => Error msg
  | Panicked => Panicked
  | Ok (lengthBuf, r) =>
      match Uint32 lengthBuf with
      | None => Panicked
      | Some length32 =>
          if length32 =? 0 then Ok (mkMessage MsgKeepAlive [], r)
          else
            match ReadFull r (Z.to_nat length32) with
            | Error msg => Error msg
            | Panicked => Panicked
            | Ok (messageBuf, r) =>
                Ok (mkMessage (nth 0 messageBuf 0) (drop 1 messageBuf), r)
            end
      end
  end.

(** [ParsePiece(payload)]: index, begin, data. *)
Definition ParsePiece (payload : list Z) : Result (Z * Z * list Z) :=
  if (length payload <? 8)%nat
  then Error (B "piece payload too short: " ++ FormatInt (len payload) ++ B " bytes")
  else
    match Uint32 (slice payload 0 4), Uint32 (slice payload 4 8) with
    | Some index, Some begin => Ok (index, begin, drop 8 payload)
    | _, _ => Panicked
    end.

(** [ParseHave(payload)]: the piece index. *)
Definition ParseHave (payload : list Z) : Result Z :=
  if negb (length payload =? 4)%nat
  then Error (B "have payload invalid length: " ++ FormatInt (len payload))
  else
    match Uint32 payload with
    | Some index => Ok index
    | None => Panicked
    end.

(** The map built by the dictionary loop of [Decode]:
    [dict[key.AsString()] = val] for each entry in turn. *)
Definition dict_of_entries (m acc : list (list Z * Data)) : list (list Z * Data) :=
  fold_left (fun dict kv => dict_set (fst kv) (snd kv) dict) m acc.

(** A nil [*Data] occurs somewhere in the value. *)
Fixpoint has_nil (v : Data) : bool :=
  match v with
  | DNil => true
  | DInvalid | DString _ | DInteger _ => false
  | DList l => existsb has_nil l
  | DDict m => existsb (fun kv => has_nil (snd kv)) m
  end.

(** Every dictionary of the value is a map: no key is listed twice. *)
Fixpoint unique_keys (v : Data) : bool :=
  match v with
  | DList l => forallb unique_keys l
  | DDict m => bool_decide (NoDup (dict_keys m)) && forallb (fun kv => unique_keys (snd kv)) m
  | _ => true
  end.

(** *** The pieces in circulation

    The piece index a worker has in hand at each program point, and the
    indices in circulation: those waiting in the channel and those in the
    hands of the workers. *)

Definition holds (pc : Worker) : list nat :=
  match pc with
  | AtReceive | Exited => []
  | AtCheck i | AtDownload i | AtMark i | AtRequeue i => [i]
  | AtVerify i _ | AtWrite i _ => [i]
  end.

Definition circulating (s : Orchestrator) : list nat :=
  pieceQueue s ++ concat (map holds (workers s)).

(** Every piece still to be downloaded is in circulation exactly once, and
    nothing else is; the channel is closed only when all pieces are
    downloaded, and a worker has left its loop only after the close. *)
Definition pool_inv (tor : Torrent) (peers : nat) (s : Orchestrator) : Prop :=
  length (downloaded s) = length (Pieces tor)
  /\ length (workers s) = maxWorkers peers
  /\ NoDup (circulating s)
  /\ (forall i, i ∈ circulating s <-> downloaded s !! i = Some false)
  /\ (queueClosed s = true -> Forall (fun b => b = true) (downloaded s))
  /\ (forall w, workers s !! w = Some Exited -> queueClosed s = true).

(** *** Piece counts, for stating what the parser records per file *)

(** The number of pieces a file of this length takes when it is cut on
    its own: [ceil(length / pieceLength)]. *)
Definition pieces_of_file (pieceLength : Z) (f : File) : Z :=
  (Length f + pieceLength - 1) / pieceLength.

(** The pieces counted for the first [k] files. *)
Definition pieces_before (pieceLength : Z) (files : list File) (k : nat) : Z :=
  fold_right Z.add 0 (map (pieces_of_file pieceLength) (take k files)).

(** *** Windows of a file, for stating what the verifier compares *)

(** Successive reads of a regular file fill the buffer until the last one. *)
Fixpoint full_but_last (pl : nat) (chunks : list (list Z)) : Prop :=
  match chunks with
  | [] => True
  | c :: cs =>
      match cs with
      | [] => (0 < length c <= pl)%nat
      | _ => length c = pl /\ full_but_last pl cs
      end
  end.

(** Before a read, the slice [piece] has the full piece length. *)
Definition piece_is_full (pl : nat) (st : VerifyState) : Prop :=
  length (pieceArr st) = pl /\ length (pieceBuf st) = pl
  /\ (piece st = InPiece pl \/ piece st = InPieceBuf pl).

(** A torrent of one file of eight bytes in two pieces of four, its
    metainfo and the content on disk, and the same with the content cut
    after the first piece. *)
Definition meta_one_file : Data :=
  DDict [(B "info",
          DDict [(B "length", DInteger 8); (B "name", DString (B "f"));
                 (B "piece length", DInteger 4);
                 (B "pieces", DString (SHA1.Sum [1; 2; 3; 4] ++ SHA1.Sum [5; 6; 7; 8]))])].

Definition tor_one_file : Torrent :=
  match TorrentFromBytes (bencoding meta_one_file) with
  | Ok (Some t) => t
  | _ => mkTorrent [] [] [] [] [] 0 [] 0 [] [] 0 false
  end.

Definition disk_one_file : Disk :=
  [(B "t.torrent", bencoding meta_one_file); (B "dl/f", [1; 2; 3; 4; 5; 6; 7; 8])].

Definition disk_one_file_cut : Disk :=
  [(B "t.torrent", bencoding meta_one_file); (B "dl/f", [1; 2; 3; 4])].

(** *** download_manager.go: the stand-in for the download of a piece

    [downloadPieceFromPeers(tor, pieceIndex, peers)] as the file has it: no
    peer is contacted; a zeroed buffer of the length of the piece is
    returned. The length computation is the one the peer session also
    starts with. [None] is a panic: the remainder by a zero piece length,
    or [make] with a negative length. *)
Definition downloadPieceFromPeers (tor : Torrent) (pieceIndex : Z) : option (list Z) :=
  let pieceLength := PieceLength tor in
  pieceLength ←
    (if pieceIndex =? len (Pieces tor) - 1 then
       if PieceLength tor =? 0 then None
       else
         let lastPieceSize := Z.rem (TorrentLength tor) (PieceLength tor) in
         Some (if lastPieceSize >? 0 then lastPieceSize else pieceLength)
     else Some pieceLength);
  if pieceLength <? 0 then None else Some (replicate (Z.to_nat pieceLength) 0).

(** ** torrent/tracker_http.go: the compact peer list *)

Definition wrapU16 (z : Z) : Z := z mod 2^16.

(** [type Peer struct { ID string; IP string; Port uint16 }] *)
Record Peer := mkPeer { ID : list Z; IP : list Z; Port : Z }.

(** [fmt.Sprintf("%d.%d.%d.%d", a, b, c, d)] *)
Definition dotted (a b c d : Z) : list Z :=
  FormatInt a ++ [46] ++ FormatInt b ++ [46] ++ FormatInt c ++ [46] ++ FormatInt d.

(** The loop of [GetPeers] over a [peers] value of type string:
    [for i := 0; i < len(peersList); i += 6], reading [peersList[i]] to
    [peersList[i+5]]. Indexing a string past its end panics ([None]). *)
Fixpoint compact_peers (peersList : list Z) : option (list Peer) :=
  match peersList with
  | [] => Some []
  | a :: b :: c :: d :: p1 :: p0 :: rest =>
      match compact_peers rest with
      | Some peers =>
          Some (mkPeer [] (dotted a b c d) (wrapU16 (Z.shiftl p1 8 + p0)) :: peers)
      | None => None
      end
  | _ => None
  end.

(* ===================================================================== *)
(** * Properties *)
(* ===================================================================== *)

(** ** Sanity checks of the library models against known values *)

Example sha1_abc :
  hex (SHA1.Sum (B "abc")) = B "a9993e364706816aba3e25717850c26c9cd0d89d".
Proof. vm_compute. reflexivity. Qed.

Example sha1_empty :
  hex (SHA1.Sum []) = B "da39a3ee5e6b4b0d3255bfef95601890afd80709".
Proof. vm_compute. reflexivity. Qed.

Example sha1_two_blocks :
  hex (SHA1.Sum (B "abcdbcdecdefdefgefghfghighijhijkijkljklmklmnlmnomnopnopq"))
  = B "84983e441c3bd26ebaae4aa1f95129e5e54670f1".
Proof. vm_compute. reflexivity. Qed.

Example FormatInt_16384 : FormatInt 16384 = B "16384".
Proof. reflexivity. Qed.

Example FormatInt_neg : FormatInt (-42) = B "-42".
Proof. reflexivity. Qed.

Example FormatInt_min : FormatInt minInt64 = B "-9223372036854775808".
Proof. reflexivity. Qed.

Example decode_spam : Decode (B "4:spam") = Ret (DString (B "spam")) 6 None.
Proof. vm_compute. reflexivity. Qed.

Example decode_42 : Decode (B "i42e") = Ret (DInteger 42) 4 None.
Proof. vm_compute. reflexivity. Qed.

Example decode_neg42 : Decode (B "i-42e") = Ret (DInteger (-42)) 5 None.
Proof. vm_compute. reflexivity. Qed.

Example decode_nested :
  Decode (B "l4:spaml1:a1:bee")
  = Ret (DList [DString (B "spam"); DList [DString (B "a"); DString (B "b")]]) 16 None.
Proof. vm_compute. reflexivity. Qed.

Example decode_dict :
  Decode (B "d3:cow3:moo4:spam4:eggs3:numi42ee")
  = Ret (DDict [(B "cow", DString (B "moo")); (B "spam", DString (B "eggs"));
                (B "num", DInteger 42)]) 33 None.
Proof. vm_compute. reflexivity. Qed.

Example encode_dict_sorted :
  Encode (DDict [(B "spam", DString (B "eggs")); (B "cow", DString (B "moo"))])
  = Some (B "d3:cow3:moo4:spam4:eggse").
Proof. vm_compute. reflexivity. Qed.

Example serialize_have5 :
  Serialize (mkMessage MsgHave (be32 5)) = Some [0; 0; 0; 5; 4; 0; 0; 0; 5].
Proof. vm_compute. reflexivity. Qed.

Example bitfield_0_7_8 :
  SetPiece (SetPiece (SetPiece [0; 0] 0) 7) 8 = [0x81; 0x80].
Proof. vm_compute. reflexivity. Qed.

(** ** Peer-wire framing *)

Lemma wrapU32_small z : 0 <= z < 2^32 -> wrapU32 z = z.
Proof. intros H. unfold wrapU32. apply Z.mod_small. exact H. Qed.

Lemma wrapU8_small z : 0 <= z < 256 -> wrapU8 z = z.
Proof. intros H. unfold wrapU8. apply Z.mod_small. lia. Qed.

Lemma len_nonneg {A} (l : list A) : 0 <= len l.
Proof. unfold len. lia. Qed.

Lemma Serialize_frame (m : Message) :
  Type_ m <> MsgKeepAlive ->
  0 <= Type_ m < 256 ->
  len (Payload m) + 5 < 2^32 ->
  Serialize m = Some (be32 (1 + len (Payload m)) ++ [Type_ m] ++ Payload m).
Proof.
  intros Hka Hty Hlen. unfold Serialize.
  destruct (Z.eqb_spec (Type_ m) MsgKeepAlive) as [E|_]; [contradiction|].
  pose proof (len_nonneg (Payload m)) as Hnn.
  rewrite (wrapU32_small (1 + len (Payload m))) by lia.
  rewrite (wrapU32_small (4 + _)) by lia.
  rewrite (wrapU8_small (Type_ m)) by lia.
  unfold len in *.
  replace (Z.to_nat (4 + (1 + Z.of_nat (length (Payload m)))))
    with (S (S (S (S (S (length (Payload m))))))) by lia.
  set (v := 1 + Z.of_nat (length (Payload m))).
  cbn [replicate PutUint32_at length Nat.add Nat.leb mbind option_bind].
  unfold copy_at, be32.
  cbn [take drop length Nat.sub Nat.add app Nat.leb list_insert insert].
  rewrite length_replicate.
  f_equal. do 5 f_equal.
  rewrite Nat.sub_0_r, firstn_all, drop_replicate, Nat.sub_diag. cbn. apply app_nil_r.
Qed.

(** C8. Message serialization is [length(u32 big-endian) || id || payload]:
    in general for every message other than keep-alive whose frame length
    fits in a uint32, and on the three frames of the specification: have(5),
    keep-alive, and request(index 3, begin 0, length 16384). *)
Theorem C8_Serialize_frames :
  (forall m : Message,
      Type_ m <> MsgKeepAlive -> 0 <= Type_ m < 256 -> len (Payload m) + 5 < 2^32 ->
      Serialize m = Some (be32 (1 + len (Payload m)) ++ [Type_ m] ++ Payload m))
  /\ Serialize (mkMessage MsgHave (be32 5)) = Some [0; 0; 0; 5; 4; 0; 0; 0; 5]
  /\ Serialize (mkMessage MsgKeepAlive []) = Some [0; 0; 0; 0]
  /\ (payload ← FormatRequest 3 0 16384; Serialize (mkMessage MsgRequest payload))
     = Some [0; 0; 0; 0x0D; 6; 0; 0; 0; 3; 0; 0; 0; 0; 0; 0; 0x40; 0].
Proof.
  split; [exact Serialize_frame|].
  repeat split; vm_compute; reflexivity.
Qed.

Lemma C8_Serialize_frames_witness :
  Serialize (mkMessage MsgPiece [0; 0; 0; 1; 0; 0; 0; 0; 7])
  = Some ([0; 0; 0; 10] ++ [7] ++ [0; 0; 0; 1; 0; 0; 0; 0; 7]).
Proof.
  apply (proj1 C8_Serialize_frames (mkMessage MsgPiece [0; 0; 0; 1; 0; 0; 0; 0; 7])).
  - vm_compute. discriminate.
  - simpl. unfold MsgPiece. lia.
  - vm_compute. reflexivity.
Defined.

(** ** Bitfield *)

Lemma land_shiftr_1 (x k : Z) :
  0 <= k -> (Z.land (Z.shiftr x k) 1 =? 0) = negb (Z.testbit x k).
Proof.
  intros Hk.
  change 1 with (Z.ones 1). rewrite Z.land_ones by lia.
  change (2 ^ 1) with 2. rewrite <- Z.bit0_mod.
  rewrite Z.shiftr_spec by lia. rewrite Z.add_0_l.
  destruct (Z.testbit x k); reflexivity.
Qed.

Lemma byte_shiftr_high (b s : Z) : 0 <= b < 256 -> 8 <= s -> Z.shiftr b s = 0.
Proof.
  intros Hb Hs. rewrite Z.shiftr_div_pow2 by lia.
  apply Z.div_small. split; [lia|].
  assert (2 ^ 8 <= 2 ^ s) by (apply Z.pow_le_mono_r; lia). lia.
Qed.

Lemma wrapU8_shiftl_high (s : Z) : 8 <= s -> wrapU8 (Z.shiftl 1 s) = 0.
Proof.
  intros Hs. unfold wrapU8. rewrite Z.shiftl_1_l.
  replace s with (8 + (s - 8)) by lia.
  rewrite Z.pow_add_r by lia. rewrite Z.mul_comm. apply Z_mod_mult.
Qed.

Lemma wrapU8_shiftl_low (s : Z) : 0 <= s < 8 -> wrapU8 (Z.shiftl 1 s) = 2 ^ s.
Proof.
  intros Hs. rewrite Z.shiftl_1_l. apply wrapU8_small. split; [lia|].
  assert (2 ^ s <= 2 ^ 7) by (apply Z.pow_le_mono_r; lia). lia.
Qed.

Lemma SetPiece_in_range (bf : list Z) (i : Z) :
  0 <= i < 8 * len bf ->
  exists b, bf !! Z.to_nat (i / 8) = Some b
    /\ SetPiece bf i = <[Z.to_nat (i / 8) := Z.lor b (2 ^ (7 - i mod 8))]> bf.
Proof.
  intros Hi. unfold SetPiece.
  rewrite Z.quot_div_nonneg, Z.rem_mod_nonneg by lia.
  assert (Hq : 0 <= i / 8 < len bf) by (unfold len in *; Z.div_mod_to_equations; lia).
  assert (Hm : 0 <= i mod 8 < 8) by (apply Z.mod_pos_bound; lia).
  destruct (Z.ltb_spec (i / 8) 0); [lia|].
  destruct (Z.geb_spec (i / 8) (len bf)); [lia|]. cbn [orb].
  destruct (lookup_lt_is_Some_2 bf (Z.to_nat (i / 8))) as [b Hb];
    [unfold len in *; lia|].
  exists b. rewrite Hb. split; [reflexivity|].
  rewrite wrapU8_shiftl_low by lia. reflexivity.
Qed.

Lemma HasPiece_SetPiece (bf : list Z) (i : Z) :
  0 <= i < 8 * len bf -> HasPiece (SetPiece bf i) i = true.
Proof.
  intros Hi. destruct (SetPiece_in_range bf i Hi) as (b & Hb & ->).
  unfold HasPiece.
  rewrite Z.quot_div_nonneg, Z.rem_mod_nonneg by lia.
  assert (Hq : 0 <= i / 8 < len bf) by (unfold len in *; Z.div_mod_to_equations; lia).
  assert (Hm : 0 <= i mod 8 < 8) by (apply Z.mod_pos_bound; lia).
  unfold len in *. rewrite length_insert.
  destruct (Z.ltb_spec (i / 8) 0); [lia|].
  destruct (Z.geb_spec (i / 8) (Z.of_nat (length bf))); [lia|]. cbn [orb].
  rewrite list_lookup_insert_eq by lia.
  rewrite land_shiftr_1 by lia. rewrite Bool.negb_involutive.
  rewrite Z.lor_spec, Z.pow2_bits_true by lia. apply Bool.orb_true_r.
Qed.

Lemma Bitfield_out_of_range (bf : list Z) (i : Z) :
  Forall (fun b => 0 <= b < 256) bf ->
  i < 0 \/ 8 * len bf <= i ->
  HasPiece bf i = false /\ SetPiece bf i = bf.
Proof.
  intros Hbytes Hi. unfold HasPiece, SetPiece.
  destruct (Z.ltb_spec (Z.quot i 8) 0); [split; reflexivity|].
  destruct (Z.geb_spec (Z.quot i 8) (len bf)); [split; reflexivity|]. cbn [orb].
  assert (Hneg : -8 < i < 0).
  { destruct Hi as [Hi|Hi].
    - pose proof (Z.quot_rem' i 8). pose proof (Z.rem_bound_neg_pos i 8).
      destruct (Z.le_gt_cases i (-8)); [|lia].
      assert (Z.quot i 8 <= Z.quot (-8) 8) by (apply Z.quot_le_mono; lia).
      change (Z.quot (-8) 8) with (-1) in *. lia.
    - assert (0 <= i) by (unfold len in *; lia).
      rewrite Z.quot_div_nonneg in * by lia. unfold len in *.
      Z.div_mod_to_equations. lia. }
  assert (Hq : Z.quot i 8 = 0) by (apply Z.quot_small_iff; [lia|]; lia).
  assert (Hr : -8 < Z.rem i 8 < 0).
  { pose proof (Z.quot_rem' i 8). lia. }
  destruct (bf !! Z.to_nat (Z.quot i 8)) as [b|] eqn:Hb; [|split; reflexivity].
  assert (Hbr : 0 <= b < 256).
  { rewrite Forall_forall in Hbytes. apply Hbytes. eapply list_elem_of_lookup_2, Hb. }
  split.
  - rewrite byte_shiftr_high by lia. reflexivity.
  - rewrite wrapU8_shiftl_high by lia. rewrite Z.lor_0_r.
    apply list_insert_id, Hb.
Qed.

(** C7 (amended). For a bitfield of [ceil(num_pieces/8)] bytes and
    [0 <= i < num_pieces], [HasPiece i] after [SetPiece i] is true and the
    only change is bit [7 - i mod 8] of byte [i/8]; pieces {0,7,8} of 10
    give [0x81, 0x80]. Out of range means outside the bytes of the
    bitfield: for [i < 0] or [i >= 8 * len], [HasPiece] is false and
    [SetPiece] changes nothing. *)
Theorem C7_Bitfield_set_has :
  (forall (num_pieces : Z) (bf : list Z) (i : Z),
      len bf = (num_pieces + 7) / 8 -> 0 <= i < num_pieces ->
      HasPiece (SetPiece bf i) i = true
      /\ exists b, bf !! Z.to_nat (i / 8) = Some b
           /\ SetPiece bf i = <[Z.to_nat (i / 8) := Z.lor b (2 ^ (7 - i mod 8))]> bf)
  /\ SetPiece (SetPiece (SetPiece [0; 0] 0) 7) 8 = [0x81; 0x80]
  /\ (forall (bf : list Z) (i : Z),
      Forall (fun b => 0 <= b < 256) bf ->
      i < 0 \/ 8 * len bf <= i ->
      HasPiece bf i = false /\ SetPiece bf i = bf).
Proof.
  split; [|split; [vm_compute; reflexivity | exact Bitfield_out_of_range]].
  intros num_pieces bf i Hlen Hi.
  assert (0 <= i < 8 * len bf) by (rewrite Hlen; Z.div_mod_to_equations; lia).
  split; [apply HasPiece_SetPiece | apply SetPiece_in_range]; assumption.
Qed.

Lemma C7_Bitfield_set_has_witness :
  (HasPiece (SetPiece [0; 0] 9) 9 = true
   /\ exists b, [0; 0] !! Z.to_nat (9 / 8) = Some b
        /\ SetPiece [0; 0] 9 = <[Z.to_nat (9 / 8) := Z.lor b (2 ^ (7 - 9 mod 8))]> [0; 0])
  /\ (HasPiece [255; 255] (-1) = false /\ SetPiece [255; 255] (-1) = [255; 255]).
Proof.
  split.
  - apply (proj1 C7_Bitfield_set_has 10 [0; 0] 9); [reflexivity | lia].
  - apply (proj2 (proj2 C7_Bitfield_set_has) [255; 255] (-1)).
    + repeat constructor; lia.
    + left. lia.
Defined.

(** C7 as stated fails for an index past [num_pieces] that still falls in
    the last byte: with 10 pieces (2 bytes), index 12 is out of range, yet
    [SetPiece] sets a spare bit and [HasPiece] then reports true. *)
Lemma C7_spare_bits_counterexample :
  len [0; 0] = (10 + 7) / 8
  /\ ~ (0 <= 12 < 10)
  /\ SetPiece [0; 0] 12 = [0; 8]
  /\ SetPiece [0; 0] 12 <> [0; 0]
  /\ HasPiece [0; 8] 12 = true.
Proof.
  repeat split; try (vm_compute; reflexivity); try lia.
  vm_compute. discriminate.
Qed.

(** ** strconv / fmt: parsing undoes formatting *)

Lemma parse_digits_app (ds rest : list Z) (a : Z) :
  forallb is_digit ds = true ->
  parse_digits (ds ++ rest) a
  = parse_digits rest (fold_left (fun acc c => acc * 10 + (c - 48)) ds a).
Proof.
  revert a. induction ds as [|d ds IH]; intros a Hd; [reflexivity|].
  cbn in Hd. apply andb_prop in Hd as [Hd1 Hd2].
  cbn [app parse_digits fold_left]. unfold is_digit in Hd1. rewrite Hd1.
  apply IH, Hd2.
Qed.

Lemma parse_digits_Some_digits (s : list Z) (a v : Z) :
  parse_digits s a = Some v -> forallb is_digit s = true.
Proof.
  revert a. induction s as [|c s IH]; intros a H; [reflexivity|].
  cbn in *. unfold is_digit at 1.
  destruct ((48 <=? c) && (c <=? 57)); [|discriminate]. cbn. eapply IH, H.
Qed.

(** What [digits] prepends: the minimal decimal text of [n]. *)
Lemma digits_spec (fuel : nat) : forall (n : Z) (acc : list Z),
  (0 < fuel)%nat -> 0 <= n < 10 ^ Z.of_nat fuel ->
  exists ds, digits fuel n acc = ds ++ acc
    /\ minimal_decimal ds = true
    /\ (hd 0 ds = 48 -> n = 0)
    /\ forall a, fold_left (fun acc c => acc * 10 + (c - 48)) ds a
                 = a * 10 ^ len ds + n.
Proof.
  induction fuel as [|fuel IH]; intros n acc Hfuel Hn; [lia|].
  cbn [digits]. destruct (Z.ltb_spec n 10) as [Hlt|Hge].
  - exists [48 + n]. rewrite Z.mod_small by lia.
    split; [reflexivity|]. split; [|split].
    + cbn [minimal_decimal forallb]. unfold is_digit.
      destruct (Z.leb_spec 48 (48 + n)); [|lia].
      destruct (Z.leb_spec (48 + n) 57); [|lia].
      rewrite (bool_decide_eq_true_2 _ (eq_refl (@nil Z))).
      rewrite Bool.orb_true_r. reflexivity.
    + cbn [hd]. intros. lia.
    + intros a. cbn [fold_left]. change (len [48 + n]) with 1. lia.
  - assert (Hq : 0 <= n / 10 < 10 ^ Z.of_nat fuel).
    { rewrite Nat2Z.inj_succ, Z.pow_succ_r in Hn by lia.
      Z.div_mod_to_equations. lia. }
    assert (Hf : (0 < fuel)%nat).
    { destruct fuel; [|lia]. cbn in Hq. lia. }
    destruct (IH (n / 10) ((48 + n mod 10) :: acc) Hf Hq) as (ds & Hds & Hmin & Hhd & Hval).
    exists (ds ++ [48 + n mod 10]). rewrite Hds, <- app_assoc. split; [reflexivity|].
    assert (Hm : 0 <= n mod 10 < 10) by (apply Z.mod_pos_bound; lia).
    assert (Hne : n / 10 <> 0) by (Z.div_mod_to_equations; lia).
    destruct ds as [|d ds]; [discriminate|].
    cbn [minimal_decimal hd app] in *.
    apply andb_prop in Hmin as [Hall Hlead]. split; [|split].
    + apply andb_true_intro. split.
      * change (d :: ds ++ [48 + n mod 10]) with ((d :: ds) ++ [48 + n mod 10]).
        rewrite forallb_app, Hall. cbn. unfold is_digit.
        destruct (Z.leb_spec 48 (48 + n mod 10)); [|lia].
        destruct (Z.leb_spec (48 + n mod 10) 57); [|lia]. reflexivity.
      * destruct (Z.eqb_spec d 48) as [->|]; [|reflexivity]. exfalso. auto.
    + intros ->. exfalso. auto.
    + intros a. change (d :: ds ++ [48 + n mod 10]) with ((d :: ds) ++ [48 + n mod 10]).
      rewrite fold_left_app, Hval. cbn [fold_left].
      unfold len. rewrite length_app. cbn [length].
      rewrite Nat2Z.inj_add, Z.pow_add_r by lia. change (10 ^ Z.of_nat 1) with 10.
      Z.div_mod_to_equations. lia.
Qed.

Lemma digits_text (n : Z) :
  0 <= n <= 2^63 ->
  minimal_decimal (digits 20 n []) = true
  /\ (hd 0 (digits 20 n []) = 48 -> n = 0)
  /\ parse_digits (digits 20 n []) 0 = Some n.
Proof.
  intros Hn.
  destruct (digits_spec 20 n []) as (ds & Hds & Hmin & Hhd & Hval); [lia| |].
  { change (10 ^ Z.of_nat 20) with 100000000000000000000. lia. }
  rewrite Hds, app_nil_r. split; [exact Hmin|]. split; [exact Hhd|].
  rewrite <- (app_nil_r ds), parse_digits_app.
  - cbn [parse_digits]. rewrite Hval, Z.mul_0_l. reflexivity.
  - destruct ds; [discriminate|]. cbn in Hmin. apply andb_prop in Hmin as [H _]. exact H.
Qed.

Lemma minimal_decimal_head (s : list Z) :
  minimal_decimal s = true -> exists d s', s = d :: s' /\ 48 <= d <= 57 /\ forallb is_digit s = true.
Proof.
  destruct s as [|d s']; [discriminate|]. intros H. cbn in H.
  apply andb_prop in H as [H _]. exists d, s'. split; [reflexivity|].
  split; [|exact H]. apply andb_prop in H as [H _]. unfold is_digit in H. lia.
Qed.

Lemma ParseInt_unsigned (d : Z) (s : list Z) (v : Z) :
  48 <= d <= 57 -> parse_digits (d :: s) 0 = Some v -> v < 2^63 ->
  ParseInt (d :: s) = Some v.
Proof.
  intros Hd Hp Hv. unfold ParseInt.
  destruct (Z.eqb_spec d 45); [lia|]. destruct (Z.eqb_spec d 43); [lia|].
  cbn [orb]. rewrite Hp. destruct (Z.ltb_spec v (2 ^ 63)); [reflexivity|lia].
Qed.

Lemma ParseInt_negative (d : Z) (s : list Z) (v : Z) :
  parse_digits (d :: s) 0 = Some v -> v <= 2^63 ->
  ParseInt (45 :: d :: s) = Some (- v).
Proof.
  intros Hp Hv. unfold ParseInt.
  change (45 =? 45) with true. change (45 =? 43) with false.
  cbn [orb]. rewrite Hp. destruct (Z.leb_spec v (2 ^ 63)); [reflexivity|lia].
Qed.

(** Formatting an int64 gives canonical text, and parsing returns the number. *)
Lemma FormatInt_canonical (n : Z) :
  minInt64 <= n <= maxInt64 ->
  canonical_int_text (FormatInt n) = true /\ ParseInt (FormatInt n) = Some n.
Proof.
  unfold minInt64, maxInt64, FormatInt. intros Hn.
  destruct (Z.ltb_spec n 0) as [Hneg|Hpos].
  - destruct (digits_text (- n)) as (Hmin & Hhd & Hparse); [lia|].
    destruct (minimal_decimal_head _ Hmin) as (d & s' & Hs & Hd & Hall).
    rewrite Hs in *. split.
    + cbn [canonical_int_text]. change (45 =? 45) with true. cbv iota.
      rewrite Hmin. cbn [andb]. cbn [hd] in Hhd.
      rewrite bool_decide_eq_false_2; [reflexivity|]. intros [= -> ->]. lia.
    + rewrite (ParseInt_negative d s' (- n)) by (assumption || lia). f_equal. lia.
  - destruct (digits_text n) as (Hmin & Hhd & Hparse); [lia|].
    destruct (minimal_decimal_head _ Hmin) as (d & s' & Hs & Hd & Hall).
    rewrite Hs in *. split.
    + cbn [canonical_int_text].
      destruct (Z.eqb_spec d 45); [lia|]. exact Hmin.
    + apply ParseInt_unsigned; (assumption || lia).
Qed.

(** The characters of a formatted integer: a sign or digits, never ['e'] or [':']. *)
Lemma FormatInt_chars (n : Z) :
  minInt64 <= n <= maxInt64 ->
  exists c s, FormatInt n = c :: s
    /\ Forall (fun x => x = 45 \/ 48 <= x <= 57) (FormatInt n).
Proof.
  unfold minInt64, maxInt64, FormatInt. intros Hn.
  assert (Hdig : forall m, 0 <= m <= 2^63 ->
                 exists d s, digits 20 m [] = d :: s
                   /\ Forall (fun x => x = 45 \/ 48 <= x <= 57) (digits 20 m [])).
  { intros m Hm. destruct (digits_text m Hm) as (Hmin & _ & _).
    destruct (minimal_decimal_head _ Hmin) as (d & s' & Hs & Hd & Hall).
    exists d, s'. split; [exact Hs|].
    rewrite Forall_forall. intros x Hx. right.
    rewrite forallb_forall in Hall. apply list_elem_of_In in Hx.
    specialize (Hall x Hx). unfold is_digit in Hall. lia. }
  destruct (Z.ltb_spec n 0).
  - destruct (Hdig (- n)) as (d & s & Hs & Hall); [lia|].
    exists 45, (digits 20 (- n) []). split; [reflexivity|].
    constructor; [left; reflexivity | exact Hall].
  - apply Hdig. lia.
Qed.

(** ** Decode: the two scalar branches *)

Lemma index_from_0_found (c : Z) (t rest : list Z) :
  Forall (fun x => x <> c) t -> index_from c (t ++ c :: rest) 0 = Some (length t).
Proof.
  induction 1 as [|x t Hx _ IH]; cbn.
  - rewrite Z.eqb_refl. reflexivity.
  - destruct (Z.eqb_spec x c); [contradiction|]. rewrite IH. reflexivity.
Qed.

Lemma index_from_0_none (c : Z) (t : list Z) :
  Forall (fun x => x <> c) t -> index_from c t 0 = None.
Proof.
  induction 1 as [|x t Hx _ IH]; cbn; [reflexivity|].
  destruct (Z.eqb_spec x c); [contradiction|]. rewrite IH. reflexivity.
Qed.

Lemma slice_middle {A} (pre t rest : list A) :
  slice (pre ++ t ++ rest) (len pre) (len pre + len t) = t.
Proof.
  unfold slice, len. rewrite Nat2Z.id.
  replace (Z.to_nat (Z.of_nat (length pre) + Z.of_nat (length t) - Z.of_nat (length pre)))
    with (length t) by lia.
  rewrite drop_app_length. apply take_app_length.
Qed.

Lemma decode_integer_terminated (t rest : list Z) :
  Forall (fun x => x <> 101) t ->
  decode_integer (105 :: t ++ 101 :: rest)
  = match ParseInt t with
    | None => Ret DNil (length t + 2) None
    | Some fVal => Ret (DInteger fVal) (length t + 2) None
    end.
Proof.
  intros Ht. unfold decode_integer. cbn [index_from].
  rewrite (index_from_0_found 101 t rest Ht). cbn [fmap option_fmap option_map].
  replace (slice (105 :: t ++ 101 :: rest) 1 (Z.of_nat (S (length t)))) with t.
  - replace (S (length t) + 1)%nat with (length t + 2)%nat by lia. reflexivity.
  - symmetry.
    change (105 :: t ++ 101 :: rest) with ([105] ++ t ++ 101 :: rest).
    replace (Z.of_nat (S (length t))) with (len [105] + len t) by (unfold len; cbn; lia).
    apply (slice_middle [105] t (101 :: rest)).
Qed.

Lemma decode_integer_unterminated (t : list Z) :
  Forall (fun x => x <> 101) t ->
  decode_integer (105 :: t) = Ret DInvalid (S (length t)) (Some "invalid integer"%string).
Proof.
  intros Ht. unfold decode_integer. cbn [index_from].
  rewrite (index_from_0_none 101 t Ht). reflexivity.
Qed.

Lemma decode_string_ok (t s rest : list Z) :
  Forall (fun x => x <> 58) t ->
  Atoi t = Some (len s) ->
  decode_string (t ++ 58 :: s ++ rest) = Ret (DString s) (length t + 1 + length s) None.
Proof.
  intros Ht Hlen. unfold decode_string.
  rewrite (index_from_0_found 58 t (s ++ rest) Ht).
  rewrite take_app_length, Hlen.
  unfold slice_checked.
  assert (Hb : (0 <=? Z.of_nat (length t) + 1) && (Z.of_nat (length t) + 1 <=? Z.of_nat (length t) + 1 + len s)
               && (Z.of_nat (length t) + 1 + len s <=? len (t ++ 58 :: s ++ rest)) = true).
  { unfold len. rewrite !length_app. cbn [length]. rewrite length_app.
    repeat (apply andb_true_intro; split); apply Z.leb_le; lia. }
  rewrite Hb.
  replace (slice (t ++ 58 :: s ++ rest) (Z.of_nat (length t) + 1) (Z.of_nat (length t) + 1 + len s))
    with s.
  - unfold len. rewrite Nat2Z.id. reflexivity.
  - symmetry. replace (t ++ 58 :: s ++ rest) with ((t ++ [58]) ++ s ++ rest)
      by (rewrite <- app_assoc; reflexivity).
    replace (Z.of_nat (length t) + 1) with (len (t ++ [58]))
      by (unfold len; rewrite length_app; cbn; lia).
    apply slice_middle.
Qed.

Lemma ParseInt_chars (t : list Z) (v : Z) :
  ParseInt t = Some v -> Forall (fun x => x <> 101) t.
Proof.
  unfold ParseInt. destruct t as [|c t]; [discriminate|].
  intros H.
  assert (Hds : forall ds, match ds with [] => None | _ :: _ =>
              match parse_digits ds 0 with
              | Some un => if c =? 45 then if un <=? 2 ^ 63 then Some (- un) else None
                           else if un <? 2 ^ 63 then Some un else None
              | None => None end end = Some v ->
            Forall (fun x => x <> 101) ds).
  { intros ds Hd. destruct ds as [|d ds]; [discriminate|].
    destruct (parse_digits (d :: ds) 0) eqn:E; [|discriminate].
    apply parse_digits_Some_digits in E. rewrite forallb_forall in E.
    rewrite Forall_forall. intros x Hx. apply list_elem_of_In in Hx.
    specialize (E x Hx). unfold is_digit in E. lia. }
  destruct ((c =? 43) || (c =? 45)) eqn:Hsign.
  - constructor; [|apply Hds, H].
    apply Bool.orb_true_iff in Hsign as [E|E]; apply Z.eqb_eq in E; lia.
  - apply Hds, H.
Qed.

(** ** Decode is total: the fuel of the model never runs out *)


Ltac returned :=
  split; [discriminate|];
  let H := fresh in intros ? ? H; first [discriminate H | injection H as _ <-; lia].

Lemma list_loop_total (dec : list Z -> Outcome) (content : list Z) :
  progresses dec content ->
  forall (n i : nat) (lst : list Data),
    (1 <= i)%nat -> (length content - i < n)%nat ->
    list_loop dec n content i lst <> OutOfFuel
    /\ forall d c, list_loop dec n content i lst = Ret d c None -> (1 <= c)%nat.
Proof.
  intros Hdec. induction n as [|n IH]; intros i lst Hi Hn; [lia|].
  cbn [list_loop]. destruct (content !! i) as [c|] eqn:Hc; [|returned].
  apply lookup_lt_Some in Hc as Hlt.
  destruct (c =? 101); [returned|].
  destruct (Hdec i Hi) as [Hne Hprog].
  destruct (dec (drop i content)) as [elem count [err|]| |] eqn:Hd;
    [returned | | returned | contradiction].
  specialize (Hprog Hlt _ _ eq_refl). apply IH; lia.
Qed.

Lemma dict_loop_total (dec : list Z -> Outcome) (content : list Z) :
  progresses dec content ->
  forall (n i : nat) (dict : list (list Z * Data)),
    (1 <= i)%nat -> (length content - i < n)%nat ->
    dict_loop dec n content i dict <> OutOfFuel
    /\ forall d c, dict_loop dec n content i dict = Ret d c None -> (1 <= c)%nat.
Proof.
  intros Hdec. induction n as [|n IH]; intros i dict Hi Hn; [lia|].
  cbn [dict_loop]. destruct (content !! i) as [c|] eqn:Hc; [|returned].
  apply lookup_lt_Some in Hc as Hlt.
  destruct (c =? 101); [returned|].
  destruct (Hdec i Hi) as [Hne Hprog].
  destruct (dec (drop i content)) as [key count [err|]| |] eqn:Hd;
    [destruct key; returned | | returned | contradiction].
  specialize (Hprog Hlt _ _ eq_refl).
  destruct key as [| |k|?|?|?]; try returned.
  destruct (length content <? i + count)%nat; [returned|].
  destruct (Hdec (i + count)%nat ltac:(lia)) as [Hne2 _].
  destruct (dec (drop (i + count) content)) as [val count2 [err|]| |] eqn:Hd2;
    [returned | | returned | contradiction].
  apply IH; lia.
Qed.

Lemma decode_integer_total (content : list Z) :
  decode_integer content <> OutOfFuel
  /\ forall d c, decode_integer content = Ret d c None -> (1 <= c)%nat.
Proof.
  unfold decode_integer. destruct (index_from 101 content 1) as [i|]; [|returned].
  destruct (ParseInt _); returned.
Qed.

Lemma decode_string_total (content : list Z) :
  decode_string content <> OutOfFuel
  /\ forall d c, decode_string content = Ret d c None -> (1 <= c)%nat.
Proof.
  unfold decode_string. destruct (index_from 58 content 0) as [i|]; [|returned].
  destruct (Atoi _) as [strLen|]; [|returned].
  destruct (slice_checked _ _ _); returned.
Qed.

Lemma DecodeF_total (fuel : nat) : forall content : list Z,
  (length content < fuel)%nat ->
  DecodeF fuel content <> OutOfFuel
  /\ (content <> [] -> forall d c, DecodeF fuel content = Ret d c None -> (1 <= c)%nat).
Proof.
  induction fuel as [|fuel IH]; intros content Hlen; [lia|].
  destruct content as [|firstByte content].
  { cbn. split; [discriminate | contradiction]. }
  assert (Hprog : progresses (DecodeF fuel) (firstByte :: content)).
  { intros j Hj. destruct (IH (drop j (firstByte :: content))) as [H1 H2].
    - rewrite length_drop. cbn [length] in *. lia.
    - split; [exact H1|]. intros Hlt. apply H2.
      intros E. apply (f_equal length) in E. rewrite length_drop in E. cbn [length] in *. lia. }
  cbn [DecodeF].
  destruct (firstByte =? 105); [|destruct (firstByte =? 108); [|destruct (firstByte =? 100)]].
  - destruct (decode_integer_total (firstByte :: content)) as [H1 H2]. split; [exact H1 | intros _; exact H2].
  - destruct (list_loop_total _ _ Hprog (length (firstByte :: content)) 1 [])
      as [H1 H2]; [lia | cbn [length]; lia |]. split; [exact H1 | intros _; exact H2].
  - destruct (dict_loop_total _ _ Hprog (length (firstByte :: content)) 1 [])
      as [H1 H2]; [lia | cbn [length]; lia |]. split; [exact H1 | intros _; exact H2].
  - destruct (decode_string_total (firstByte :: content)) as [H1 H2]. split; [exact H1 | intros _; exact H2].
Qed.

(** Decode always returns or panics. *)
Lemma Decode_total (content : list Z) : Decode content <> OutOfFuel.
Proof. unfold Decode. apply DecodeF_total. lia. Qed.

(** C10. Decode of the empty slice returns a nil value, zero bytes
    consumed and a nil error: the same nil error as a successful decode,
    which returns a non-nil value. A caller that checks only the error goes
    on with the nil value: [TorrentFromBytes] of the empty slice returns a
    nil torrent and a nil error. *)
Theorem C10_Decode_empty :
  Decode [] = Ret DNil 0 None
  /\ Decode (B "i42e") = Ret (DInteger 42) 4 None
  /\ TorrentFromBytes [] = Ok None.
Proof. repeat split; vm_compute; reflexivity. Qed.




(** ** Decode after the grammar: lists and dictionaries *)

Lemma encode_string_starts (k : list Z) :
  len k < 2^63 -> starts_item (encode_string k).
Proof.
  intros Hk. unfold encode_string.
  destruct (FormatInt_chars (len k)) as (c & s & Hs & Hall).
  { unfold minInt64, maxInt64. pose proof (len_nonneg k). lia. }
  rewrite Hs in *. exists c, (s ++ [58] ++ k). split; [reflexivity|].
  apply Forall_cons_1 in Hall as [Hc _]. lia.
Qed.

Lemma decode_string_encode (k rest : list Z) :
  len k < 2^63 ->
  decode_string (encode_string k ++ rest) = Ret (DString k) (length (encode_string k)) None.
Proof.
  intros Hk. unfold encode_string.
  assert (Hr : minInt64 <= len k <= maxInt64).
  { unfold minInt64, maxInt64. pose proof (len_nonneg k). lia. }
  destruct (FormatInt_chars (len k) Hr) as (c & s & Hs & Hall).
  destruct (FormatInt_canonical (len k) Hr) as [_ Hparse].
  replace ((FormatInt (len k) ++ [58] ++ k) ++ rest)
    with (FormatInt (len k) ++ 58 :: k ++ rest) by (rewrite <- !app_assoc; reflexivity).
  rewrite decode_string_ok.
  - rewrite !length_app. cbn [length]. f_equal. lia.
  - eapply Forall_impl; [exact Hall|]. cbn. intros x Hx. lia.
  - exact Hparse.
Qed.

Lemma DecodeF_string (fuel : nat) (k rest : list Z) :
  len k < 2^63 ->
  DecodeF (S fuel) (encode_string k ++ rest) = Ret (DString k) (length (encode_string k)) None.
Proof.
  intros Hk. destruct (encode_string_starts k Hk) as (c & tl & Hs & H1 & H2 & H3 & H4).
  rewrite <- (decode_string_encode k rest Hk).
  rewrite Hs. cbn [DecodeF app].
  destruct (Z.eqb_spec c 105); [contradiction|].
  destruct (Z.eqb_spec c 108); [contradiction|].
  destruct (Z.eqb_spec c 100); [contradiction|]. reflexivity.
Qed.

Lemma bencoding_nonend (v : Data) : canonicalb v = true -> nonend (bencoding v).
Proof.
  destruct v as [| |s|n|l|m]; cbn [canonicalb bencoding]; intros Hc; try discriminate.
  - apply Z.ltb_lt in Hc. destruct (encode_string_starts s Hc) as (c & tl & Hs & H1 & _).
    exists c, tl. split; [exact Hs | exact H1].
  - eexists _, _. split; [reflexivity | lia].
  - eexists _, _. split; [reflexivity | lia].
  - eexists _, _. split; [reflexivity | lia].
Qed.

Lemma lookup_length_app {A} (pre : list A) (c : A) (tl : list A) :
  (pre ++ c :: tl) !! length pre = Some c.
Proof. apply list_lookup_middle. reflexivity. Qed.

Lemma list_loop_items (dec : list Z -> Outcome) (l : list Data) :
  forall (n : nat) (pre : list Z) (acc : list Data) (rest : list Z),
  Forall (fun x => decodes dec x /\ nonend (bencoding x)) l ->
  (length l < n)%nat ->
  list_loop dec n (pre ++ concat (map bencoding l) ++ 101 :: rest) (length pre) acc
  = Ret (DList (acc ++ l)) (length pre + length (concat (map bencoding l)) + 1) None.
Proof.
  induction l as [|x l IH]; intros n pre acc rest Hl Hn;
    (destruct n as [|n]; [cbn in Hn; lia|]).
  - cbn [map concat app list_loop length]. rewrite lookup_length_app.
    change (101 =? 101) with true. cbv iota.
    rewrite app_nil_r, Nat.add_0_r. reflexivity.
  - apply Forall_cons_1 in Hl as [[Hx (c & tl & Hb & Hc)] Hl].
    cbn [map concat list_loop].
    rewrite <- (app_assoc (bencoding x)). rewrite Hb at 1. cbn [app].
    rewrite lookup_length_app.
    destruct (Z.eqb_spec c 101); [contradiction|].
    rewrite drop_app_length.
    rewrite (Hx _).
    replace (pre ++ bencoding x ++ concat (map bencoding l) ++ 101 :: rest)
      with ((pre ++ bencoding x) ++ concat (map bencoding l) ++ 101 :: rest)
      by (rewrite <- app_assoc; reflexivity).
    rewrite <- length_app.
    rewrite IH by (assumption || (cbn in Hn; lia)).
    rewrite <- app_assoc, !length_app. cbn [app]. f_equal. lia.
Qed.

Lemma dict_set_fresh {V} (k : list Z) (v : V) (m : list (list Z * V)) :
  k ∉ map fst m -> dict_set k v m = m ++ [(k, v)].
Proof.
  induction m as [|[k' v'] m IH]; intros Hk; [reflexivity|].
  cbn [dict_set map fst] in *.
  apply not_elem_of_cons in Hk as [Hne Hk].
  unfold key_eqb. rewrite bool_decide_eq_false_2 by exact Hne.
  rewrite IH by exact Hk. reflexivity.
Qed.

Lemma lookup_first_of_app {A} (pre bs more : list A) (c : A) (tl : list A) :
  bs = c :: tl -> (pre ++ bs ++ more) !! length pre = Some c.
Proof. intros ->. apply list_lookup_middle. reflexivity. Qed.

Lemma dict_loop_entries (dec : list Z -> Outcome) (m : list (list Z * Data)) :
  forall (n : nat) (pre : list Z) (acc : list (list Z * Data)) (rest : list Z),
  (forall k, len k < 2^63 -> decodes dec (DString k)) ->
  Forall (fun kv => len (fst kv) < 2^63 /\ decodes dec (snd kv)) m ->
  NoDup (map fst (acc ++ m)) ->
  (length m < n)%nat ->
  dict_loop dec n (pre ++ concat (map entry m) ++ 101 :: rest) (length pre) acc
  = Ret (DDict (acc ++ m)) (length pre + length (concat (map entry m)) + 1) None.
Proof.
  induction m as [|[k v] m IH]; intros n pre acc rest Hkey Hm Hnd Hn;
    (destruct n as [|n]; [cbn in Hn; lia|]).
  - cbn [map concat app dict_loop length]. rewrite lookup_length_app.
    change (101 =? 101) with true. cbv iota.
    rewrite app_nil_r, Nat.add_0_r. reflexivity.
  - apply Forall_cons_1 in Hm as [[Hk Hv] Hm]. cbn [fst snd] in Hk, Hv.
    destruct (encode_string_starts k Hk) as (c & tl & Hb & Hc & _).
    assert (Hcontent : pre ++ concat (map entry ((k, v) :: m)) ++ 101 :: rest
              = pre ++ encode_string k ++ bencoding v ++ concat (map entry m) ++ 101 :: rest).
    { cbn [map concat]. unfold entry at 1. cbn [fst snd].
      rewrite <- !app_assoc. reflexivity. }
    assert (Hlen : length (concat (map entry ((k, v) :: m)))
              = (length (encode_string k) + length (bencoding v)
                 + length (concat (map entry m)))%nat).
    { cbn [map concat]. unfold entry at 1. cbn [fst snd]. rewrite !length_app. lia. }
    rewrite Hcontent, Hlen. clear Hcontent Hlen.
    cbn [dict_loop].
    rewrite (lookup_first_of_app pre _ _ c tl Hb).
    destruct (Z.eqb_spec c 101); [contradiction|].
    rewrite drop_app_length.
    pose proof (Hkey k Hk) as Hdk. unfold decodes in Hdk. cbn [bencoding] in Hdk.
    fold (encode_string k) in Hdk. rewrite Hdk.
    assert (Hlt : Nat.ltb (length (pre ++ encode_string k ++ bencoding v ++ concat (map entry m) ++ 101 :: rest))
                          (length pre + length (encode_string k)) = false).
    { apply Nat.ltb_ge. rewrite !length_app. lia. }
    rewrite Hlt.
    replace (pre ++ encode_string k ++ bencoding v ++ concat (map entry m) ++ 101 :: rest)
      with ((pre ++ encode_string k) ++ bencoding v ++ concat (map entry m) ++ 101 :: rest)
      by (rewrite <- app_assoc; reflexivity).
    rewrite <- length_app, drop_app_length, (Hv _).
    replace ((pre ++ encode_string k) ++ bencoding v ++ concat (map entry m) ++ 101 :: rest)
      with ((pre ++ encode_string k ++ bencoding v) ++ concat (map entry m) ++ 101 :: rest)
      by (rewrite <- !app_assoc; reflexivity).
    replace (length (pre ++ encode_string k) + length (bencoding v))%nat
      with (length (pre ++ encode_string k ++ bencoding v))
      by (rewrite !length_app; lia).
    assert (Hfresh : k ∉ map fst acc).
    { rewrite map_app in Hnd. cbn [map fst] in Hnd.
      apply NoDup_app in Hnd as (_ & Hdis & _). intros Hin.
      apply (Hdis k Hin). left. }
    rewrite dict_set_fresh by exact Hfresh.
    rewrite IH.
    + rewrite <- app_assoc. cbn [app].
      rewrite !length_app. f_equal. lia.
    + exact Hkey.
    + exact Hm.
    + rewrite <- app_assoc. exact Hnd.
    + cbn in Hn. lia.
Qed.

Lemma depth_list_bound (l : list Data) (f : nat) :
  (foldr (fun x d => Nat.max (depth x) d) 0%nat l <= f)%nat ->
  Forall (fun x => (depth x <= f)%nat) l.
Proof.
  induction l as [|x l IH]; cbn [foldr]; intros H; constructor; [lia|].
  apply IH. lia.
Qed.

Lemma depth_dict_bound (m : list (list Z * Data)) (f : nat) :
  (foldr (fun kv d => Nat.max (depth (snd kv)) d) 1%nat m <= f)%nat ->
  (1 <= f)%nat /\ Forall (fun kv => (depth (snd kv) <= f)%nat) m.
Proof.
  induction m as [|kv m IH]; cbn [foldr]; intros H.
  - split; [exact H | constructor].
  - destruct IH as [H1 H2]; [lia|]. split; [exact H1|]. constructor; [lia | exact H2].
Qed.

Lemma concat_length_items {A} (f : A -> list Z) (l : list A) :
  Forall (fun x => nonend (f x)) l -> (length l <= length (concat (map f l)))%nat.
Proof.
  induction 1 as [|x l (c & tl & Hx & _) _ IH]; cbn [map concat length]; [lia|].
  rewrite length_app, Hx. cbn [length]. lia.
Qed.

Lemma entry_nonend (kv : list Z * Data) : len (fst kv) < 2^63 -> nonend (entry kv).
Proof.
  intros Hk. destruct (encode_string_starts _ Hk) as (c & tl & Hs & Hc & _).
  exists c, (tl ++ bencoding (snd kv)). unfold entry. rewrite Hs. split; [reflexivity | exact Hc].
Qed.

Lemma lex_leb_refl (a : list Z) : lex_leb a a = true.
Proof. induction a as [|x a IH]; cbn; [reflexivity|]. rewrite Z.ltb_irrefl. exact IH. Qed.

Lemma lex_leb_total (a b : list Z) : lex_leb a b = false -> lex_leb b a = true.
Proof.
  revert b. induction a as [|x a IH]; intros [|y b]; cbn; try discriminate; try reflexivity.
  destruct (Z.ltb_spec x y), (Z.ltb_spec y x); try discriminate; try reflexivity; try lia.
  apply IH.
Qed.

Lemma ascending_NoDup (ks : list (list Z)) : ascending ks = true -> NoDup ks.
Proof.
  induction ks as [|k ks IH]; cbn [ascending]; intros H; constructor.
  - apply andb_prop in H as [H _]. rewrite forallb_forall in H. intros Hin.
    apply list_elem_of_In in Hin. specialize (H k Hin).
    unfold lex_ltb in H. rewrite lex_leb_refl in H. discriminate.
  - apply andb_prop in H as [_ H]. apply IH, H.
Qed.

Lemma slices_Sort_ascending (ks : list (list Z)) : ascending ks = true -> slices_Sort ks = ks.
Proof.
  induction ks as [|k ks IH]; cbn [ascending slices_Sort]; intros H; [reflexivity|].
  apply andb_prop in H as [Hk H]. rewrite IH by exact H.
  destruct ks as [|k' ks]; [reflexivity|]. cbn [sort_insert].
  cbn [forallb] in Hk. apply andb_prop in Hk as [Hk _].
  unfold lex_ltb in Hk. apply Bool.negb_true_iff in Hk.
  rewrite (lex_leb_total _ _ Hk). reflexivity.
Qed.

(** Decode reads back what the grammar writes, for any following bytes. *)
Lemma DecodeF_bencoding (v : Data) :
  canonicalb v = true ->
  forall (fuel : nat) (rest : list Z),
    (depth v <= fuel)%nat ->
    DecodeF fuel (bencoding v ++ rest) = Ret v (length (bencoding v)) None.
Proof.
  induction v as [| |s|n|l IH|m IH] using Data_nested_ind;
    cbn [canonicalb]; intros Hc fuel rest Hfuel; try discriminate;
    (destruct fuel as [|fuel]; [cbn in Hfuel; lia|]).
  - apply Z.ltb_lt in Hc. apply (DecodeF_string fuel s rest Hc).
  - apply andb_prop in Hc as [H1 H2]. apply Z.leb_le in H1, H2.
    destruct (FormatInt_chars n (conj H1 H2)) as (c & tl & Hs & Hall).
    destruct (FormatInt_canonical n (conj H1 H2)) as [_ Hparse].
    cbn [bencoding app DecodeF]. change (105 =? 105) with true. cbv iota.
    rewrite <- app_assoc. cbn [app].
    rewrite decode_integer_terminated.
    + rewrite Hparse. cbn [length]. rewrite length_app. cbn [length]. f_equal. lia.
    + eapply Forall_impl; [exact Hall|]. cbn. intros x Hx. lia.
  - cbn [depth] in Hfuel. apply le_S_n in Hfuel.
    pose proof (depth_list_bound l fuel Hfuel) as Hd.
    rewrite forallb_forall in Hc.
    assert (Hitems : Forall (fun x => decodes (DecodeF fuel) x /\ nonend (bencoding x)) l).
    { rewrite Forall_forall in IH, Hd |- *. intros x Hx.
      assert (Hcx : canonicalb x = true) by (apply Hc, list_elem_of_In, Hx).
      split; [|apply bencoding_nonend, Hcx].
      intros rest'. apply IH; [exact Hx | exact Hcx | apply Hd, Hx]. }
    assert (Hlen : (length l <= length (concat (map bencoding l)))%nat).
    { apply concat_length_items. eapply Forall_impl; [exact Hitems|]. cbn. tauto. }
    cbn [bencoding app DecodeF]. change (108 =? 105) with false. change (108 =? 108) with true.
    cbv iota. rewrite <- app_assoc. cbn [app].
    change (108 :: concat (map bencoding l) ++ 101 :: rest)
      with ([108] ++ concat (map bencoding l) ++ 101 :: rest).
    change 1%nat with (length [108]) at 1.
    rewrite list_loop_items.
    + cbn [app length]. rewrite length_app. cbn [length]. f_equal; lia.
    + exact Hitems.
    + rewrite !length_app. cbn [length]. lia.
  - cbn [depth] in Hfuel. apply le_S_n in Hfuel.
    destruct (depth_dict_bound m fuel Hfuel) as [Hf1 Hd].
    apply andb_prop in Hc as [Hc Hasc]. rewrite forallb_forall in Hc.
    assert (Hitems : Forall (fun kv => len (fst kv) < 2^63 /\ decodes (DecodeF fuel) (snd kv)) m).
    { rewrite Forall_forall in IH, Hd |- *. intros kv Hx.
      specialize (Hc kv (proj1 (list_elem_of_In _ _) Hx)).
      apply andb_prop in Hc as [Hk Hcv]. apply Z.ltb_lt in Hk.
      split; [exact Hk|].
      intros rest'. apply IH; [exact Hx | exact Hcv | apply Hd, Hx]. }
    assert (Hlen : (length m <= length (concat (map entry m)))%nat).
    { apply concat_length_items. eapply Forall_impl; [exact Hitems|]. cbn.
      intros kv [Hk _]. apply entry_nonend, Hk. }
    cbn [bencoding app DecodeF]. change (100 =? 105) with false. change (100 =? 108) with false.
    change (100 =? 100) with true. cbv iota. rewrite <- app_assoc. cbn [app].
    change (fun kv : list Z * Data => encode_string (fst kv) ++ bencoding (snd kv)) with entry.
    change (100 :: concat (map entry m) ++ 101 :: rest)
      with ([100] ++ concat (map entry m) ++ 101 :: rest).
    change 1%nat with (length [100]) at 1.
    rewrite dict_loop_entries.
    + cbn [app length]. rewrite length_app. cbn [length]. f_equal; lia.
    + intros k Hk rest'. destruct fuel as [|fuel]; [lia|]. apply DecodeF_string, Hk.
    + exact Hitems.
    + cbn [app]. apply ascending_NoDup, Hasc.
    + rewrite !length_app. cbn [length]. lia.
Qed.

Lemma depth_le_length (v : Data) :
  canonicalb v = true -> (depth v <= length (bencoding v))%nat.
Proof.
  induction v as [| |s|n|l IH|m IH] using Data_nested_ind;
    cbn [canonicalb]; intros Hc; try discriminate.
  - apply Z.ltb_lt in Hc. destruct (encode_string_starts s Hc) as (c & tl & Hs & _).
    cbn [bencoding depth]. fold (encode_string s). rewrite Hs. cbn [length]. lia.
  - cbn [bencoding depth app length]. lia.
  - cbn [bencoding depth app length]. rewrite length_app. cbn [length].
    enough (foldr (fun x d => Nat.max (depth x) d) 0%nat l
            <= length (concat (map bencoding l)))%nat by lia.
    rewrite forallb_forall in Hc.
    induction l as [|x l IHl]; cbn [foldr map concat]; [lia|].
    apply Forall_cons_1 in IH as [Hx IH]. rewrite length_app.
    specialize (Hx (Hc x (or_introl eq_refl))).
    specialize (IHl IH (fun y Hy => Hc y (or_intror Hy))). lia.
  - cbn [bencoding depth app length]. rewrite length_app. cbn [length].
    enough (foldr (fun kv d => Nat.max (depth (snd kv)) d) 1%nat m
            <= S (length (concat (map (fun kv => encode_string (fst kv) ++ bencoding (snd kv)) m))))%nat
      by lia.
    apply andb_prop in Hc as [Hc _]. rewrite forallb_forall in Hc.
    induction m as [|kv m IHm]; cbn [foldr map concat]; [cbn; lia|].
    apply Forall_cons_1 in IH as [Hx IH]. rewrite !length_app.
    specialize (Hc kv (or_introl eq_refl)) as Hkv. apply andb_prop in Hkv as [_ Hkv].
    specialize (Hx Hkv).
    specialize (IHm IH (fun y Hy => Hc y (or_intror Hy))). lia.
Qed.

Lemma Decode_bencoding (v : Data) (rest : list Z) :
  canonicalb v = true ->
  Decode (bencoding v ++ rest) = Ret v (length (bencoding v)) None.
Proof.
  intros Hc. unfold Decode. apply DecodeF_bencoding; [exact Hc|].
  pose proof (depth_le_length v Hc). rewrite length_app. lia.
Qed.

(** ** Encode writes the grammar on canonical values *)

Lemma append_all_Some (l : list Data) (f : Data -> list Z) : forall encoded,
  Forall (fun x => Encode x = Some (f x)) l ->
  append_all (map Encode l) encoded = Some (encoded ++ concat (map f l)).
Proof.
  induction l as [|x l IH]; intros encoded Hl; cbn [map append_all concat].
  - rewrite app_nil_r. reflexivity.
  - apply Forall_cons_1 in Hl as [Hx Hl]. rewrite Hx, IH by exact Hl.
    rewrite app_assoc. reflexivity.
Qed.

Lemma dict_get_app_fresh {V} (k : list Z) (m1 m2 : list (list Z * V)) :
  k ∉ map fst m1 -> dict_get k (m1 ++ m2) = dict_get k m2.
Proof.
  induction m1 as [|[k' v'] m1 IH]; intros Hk; [reflexivity|].
  cbn [map fst app dict_get] in *. apply not_elem_of_cons in Hk as [Hne Hk].
  unfold key_eqb. rewrite bool_decide_eq_false_2 by exact Hne. apply IH, Hk.
Qed.

Lemma append_entries_listed (m2 : list (list Z * Data)) :
  forall (m1 : list (list Z * Data)) (encoded : list Z),
  NoDup (map fst (m1 ++ m2)) ->
  Forall (fun kv => Encode (snd kv) = Some (bencoding (snd kv))) m2 ->
  append_entries (dict_keys m2) (map (fun kv => (fst kv, Encode (snd kv))) (m1 ++ m2)) encoded
  = Some (encoded ++ concat (map entry m2)).
Proof.
  induction m2 as [|[k v] m2 IH]; intros m1 encoded Hnd Hm; cbn [dict_keys map append_entries concat].
  - rewrite app_nil_r. reflexivity.
  - apply Forall_cons_1 in Hm as [Hv Hm]. cbn [fst snd] in Hv.
    assert (Hget : dict_get k (map (fun kv : list Z * Data => (fst kv, Encode (snd kv)))
                                   (m1 ++ (k, v) :: m2)) = Some (Some (bencoding v))).
    { rewrite map_app, dict_get_app_fresh.
      - cbn [map dict_get fst snd]. unfold key_eqb.
        rewrite bool_decide_eq_true_2 by reflexivity. rewrite Hv. reflexivity.
      - rewrite map_map. cbn [fst]. rewrite map_app in Hnd. cbn [map fst] in Hnd.
        apply NoDup_app in Hnd as (_ & Hdis & _). intros Hin. apply (Hdis k Hin). left. }
    cbn [fst]. rewrite Hget.
    specialize (IH (m1 ++ [(k, v)]) (encoded ++ encode_string k ++ bencoding v)).
    rewrite <- app_assoc in IH. cbn [app] in IH.
    unfold dict_keys in IH. rewrite IH by assumption.
    unfold entry at 2. cbn [fst snd]. rewrite <- !app_assoc. reflexivity.
Qed.

Lemma Encode_canonical (v : Data) : canonicalb v = true -> Encode v = Some (bencoding v).
Proof.
  induction v as [| |s|n|l IH|m IH] using Data_nested_ind;
    cbn [canonicalb]; intros Hc; try discriminate; try reflexivity.
  - cbn [Encode bencoding]. rewrite forallb_forall in Hc.
    rewrite (append_all_Some l bencoding).
    + rewrite <- app_assoc. reflexivity.
    + rewrite Forall_forall in IH |- *. intros x Hx.
      apply IH; [exact Hx|]. apply Hc, list_elem_of_In, Hx.
  - apply andb_prop in Hc as [Hc Hasc]. rewrite forallb_forall in Hc.
    cbn [Encode bencoding]. rewrite (slices_Sort_ascending _ Hasc).
    pose proof (append_entries_listed m [] [100]) as H. cbn [app] in H.
    rewrite H.
    + reflexivity.
    + apply ascending_NoDup, Hasc.
    + rewrite Forall_forall in IH |- *. intros kv Hx.
      apply IH; [exact Hx|].
      specialize (Hc kv (proj1 (list_elem_of_In _ _) Hx)).
      apply andb_prop in Hc as [_ Hc]. exact Hc.
Qed.

(** ** slices.Sort gives the keys in ascending order *)

Lemma sort_insert_perm (k : list Z) (ks : list (list Z)) :
  Permutation (sort_insert k ks) (k :: ks).
Proof.
  induction ks as [|k' ks IH]; cbn [sort_insert]; [reflexivity|].
  destruct (lex_leb k k'); [reflexivity|].
  rewrite IH. apply perm_swap.
Qed.

Lemma slices_Sort_perm (ks : list (list Z)) : Permutation (slices_Sort ks) ks.
Proof.
  induction ks as [|k ks IH]; cbn [slices_Sort]; [reflexivity|].
  rewrite sort_insert_perm, IH. reflexivity.
Qed.

Lemma sort_insert_sorted (k : list Z) (ks : list (list Z)) :
  Sorted lex_le ks -> Sorted lex_le (sort_insert k ks).
Proof.
  induction 1 as [|k' ks Hs IH Hhd]; cbn [sort_insert].
  - repeat constructor.
  - destruct (lex_leb k k') eqn:E.
    + constructor; [constructor; assumption|]. constructor. exact E.
    + constructor; [exact IH|].
      destruct ks as [|k'' ks]; cbn [sort_insert].
      * constructor. apply lex_leb_total, E.
      * destruct (lex_leb k k''); constructor.
        -- apply lex_leb_total, E.
        -- inversion Hhd; assumption.
Qed.

Lemma slices_Sort_sorted (ks : list (list Z)) : Sorted lex_le (slices_Sort ks).
Proof.
  induction ks as [|k ks IH]; cbn [slices_Sort]; [constructor|].
  apply sort_insert_sorted, IH.
Qed.

(** The dictionary branch of Encode, entry by entry over the sorted keys. *)
Lemma append_entries_inv {V} (f : V -> option (list Z)) (m : list (list Z * V)) (keys : list (list Z)) :
  forall encoded out,
  append_entries keys (map (fun kv => (fst kv, f (snd kv))) m) encoded = Some out ->
  exists encs,
    Forall2 (fun k e => exists v ev,
               dict_get k m = Some v /\ f v = Some ev /\ e = encode_string k ++ ev) keys encs
    /\ out = encoded ++ concat encs.
Proof.
  assert (Hget : forall k, dict_get k (map (fun kv => (fst kv, f (snd kv))) m)
                       = f <$> dict_get k m).
  { intros k. induction m as [|[k' v'] m IHm]; cbn [map dict_get fst snd]; [reflexivity|].
    destruct (key_eqb k k'); [reflexivity | exact IHm]. }
  induction keys as [|k keys IH]; intros encoded out H; cbn [append_entries] in H.
  - injection H as <-. exists []. split; [constructor | rewrite app_nil_r; reflexivity].
  - rewrite Hget in H. destruct (dict_get k m) as [v|] eqn:Ev; [|discriminate].
    cbn in H. destruct (f v) as [ev|] eqn:Eev; [|discriminate].
    destruct (IH _ _ H) as (encs & Hall & ->).
    exists ((encode_string k ++ ev) :: encs). split.
    + constructor; [|exact Hall]. exists v, ev. auto.
    + cbn [concat]. rewrite <- !app_assoc. reflexivity.
Qed.

(** C4. On every well-formed bencoding whose dictionaries list their keys
    in ascending byte order, Decode consumes the whole input without error
    and Encode of the decoded value gives the input back. Encode always
    emits the entries of a dictionary in ascending key order (a sorted
    permutation of the keys, each followed by the encoding of its value),
    and an integer as canonical decimal text: no [+], no leading zero, no
    [-0]. *)
Theorem C4_Encode_Decode_roundtrip :
  (forall b : list Z,
      wellformed_canonical b ->
      exists v, Decode b = Ret v (length b) None /\ Encode v = Some b)
  /\ (forall (m : list (list Z * Data)) (out : list Z),
      Encode (DDict m) = Some out ->
      Sorted lex_le (slices_Sort (dict_keys m))
      /\ Permutation (slices_Sort (dict_keys m)) (dict_keys m)
      /\ exists encs,
          Forall2 (fun k e => exists v ev,
                     dict_get k m = Some v /\ Encode v = Some ev /\ e = encode_string k ++ ev)
                  (slices_Sort (dict_keys m)) encs
          /\ out = [100] ++ concat encs ++ [101])
  /\ (forall n : Z,
      minInt64 <= n <= maxInt64 ->
      exists t, Encode (DInteger n) = Some ([105] ++ t ++ [101])
        /\ canonical_int_text t = true /\ ParseInt t = Some n).
Proof.
  split; [|split].
  - intros b (v & Hc & ->). exists v. split.
    + rewrite <- (app_nil_r (bencoding v)) at 1. apply Decode_bencoding, Hc.
    + apply Encode_canonical, Hc.
  - intros m out H. split; [apply slices_Sort_sorted|]. split; [apply slices_Sort_perm|].
    cbn [Encode] in H.
    destruct (append_entries _ _ _) as [encoded|] eqn:E; [|discriminate].
    injection H as <-.
    destruct (append_entries_inv Encode m _ _ _ E) as (encs & Hall & ->).
    exists encs. split; [exact Hall|]. rewrite <- app_assoc. reflexivity.
  - intros n Hn. exists (FormatInt n). split; [reflexivity|].
    apply FormatInt_canonical, Hn.
Qed.

Lemma C4_Encode_Decode_roundtrip_witness :
  (exists v, Decode (B "d3:cow3:moo4:spam4:eggse")
             = Ret v (length (B "d3:cow3:moo4:spam4:eggse")) None
             /\ Encode v = Some (B "d3:cow3:moo4:spam4:eggse"))
  /\ Sorted lex_le (slices_Sort (dict_keys [(B "spam", DString (B "eggs"));
                                            (B "cow", DString (B "moo"))]))
  /\ (exists t, Encode (DInteger (-42)) = Some ([105] ++ t ++ [101])
        /\ canonical_int_text t = true /\ ParseInt t = Some (-42)).
Proof.
  split; [|split].
  - apply (proj1 C4_Encode_Decode_roundtrip (B "d3:cow3:moo4:spam4:eggse")).
    exists (DDict [(B "cow", DString (B "moo")); (B "spam", DString (B "eggs"))]).
    split; vm_compute; reflexivity.
  - apply (proj1 (proj2 C4_Encode_Decode_roundtrip)
             [(B "spam", DString (B "eggs")); (B "cow", DString (B "moo"))]
             (B "d3:cow3:moo4:spam4:eggse")).
    vm_compute. reflexivity.
  - apply (proj2 (proj2 C4_Encode_Decode_roundtrip) (-42)).
    unfold minInt64, maxInt64. lia.
Defined.

(** ** Metainfo: the info-hash *)

Lemma TorrentFromBencodeData_InfoHash (d : Data) (t : Torrent) :
  TorrentFromBencodeData d = Some (Some t) ->
  exists root enc,
    d = DDict root /\ Encode (at_key root "info") = Some enc /\ InfoHash t = SHA1.Sum enc.
Proof.
  unfold TorrentFromBencodeData. intros H.
  destruct d as [| |s|n|l|root]; try discriminate.
  cbn [AsDict mbind option_bind] in H.
  repeat match type of H with
         | (mbind _ ?e) = Some _ => destruct e eqn:?; cbn [mbind option_bind] in H; [|discriminate]
         | (let '(_, _) := ?p in _) = Some _ => destruct p
         end.
  injection H as <-. cbn [InfoHash]. eauto.
Qed.

Lemma dict_get_split {V} (k : list Z) (v : V) (m : list (list Z * V)) :
  dict_get k m = Some v ->
  exists m1 m2, m = m1 ++ (k, v) :: m2 /\ k ∉ map fst m1.
Proof.
  induction m as [|[k' v'] m IH]; cbn [dict_get]; intros H; [discriminate|].
  unfold key_eqb in H. destruct (bool_decide_reflect (k = k')) as [<-|Hne].
  - injection H as <-. exists [], m. split; [reflexivity|]. cbn. apply not_elem_of_nil.
  - destruct (IH H) as (m1 & m2 & -> & Hk). exists ((k', v') :: m1), m2.
    split; [reflexivity|]. cbn [map fst]. apply not_elem_of_cons. split; assumption.
Qed.

Lemma canonicalb_dict_value (root : list (list Z * Data)) (k : list Z) (v : Data) :
  canonicalb (DDict root) = true -> dict_get k root = Some v -> canonicalb v = true.
Proof.
  cbn [canonicalb]. intros Hc Hget. apply andb_prop in Hc as [Hc _].
  rewrite forallb_forall in Hc. destruct (dict_get_split k v root Hget) as (m1 & m2 & -> & _).
  specialize (Hc (k, v)). rewrite in_app_iff in Hc.
  specialize (Hc (or_intror (or_introl eq_refl))). apply andb_prop in Hc as [_ Hc]. exact Hc.
Qed.




(** ** Metainfo: piece-index ranges of the files *)

(** C6 (the code at the failing input). With [piece length = 4] and files
    of 3 and 5 bytes there are 2 pieces; the second file starts at offset 3,
    so its range by cumulative offsets is [3/4, 7/4] = [0, 1]. The parser
    counts pieces per file instead and records [1, 2]: the last index is not
    below the number of pieces. *)
Theorem C6_piece_indices_counted_per_file :
  exists t,
    TorrentFromBytes meta_two_files = Ok (Some t)
    /\ PieceLength t = 4
    /\ length (Pieces t) = 2%nat
    /\ map (fun f => (Length f, FirstPieceIndex f, LastPieceIndex f)) (FileList t)
       = [(3, 0, 0); (5, 1, 2)]
    /\ (3 / 4 = 0 /\ (3 + 5 - 1) / 4 = 1).
Proof.
  eexists. split; [vm_compute; reflexivity|].
  repeat split; vm_compute; reflexivity.
Qed.

(** ** Verifier *)

(** C5 (the code at the failing input). The content on disk is intact:
    both 4-byte windows of the stream [a ++ b] hash to the metainfo's
    pieces. The verifier drops the 3 bytes carried over from [a] when the
    first read of [b] fills the buffer, hashes [b]'s first 4 bytes alone,
    and reports piece 0 as corrupted. *)
Theorem C5_VerifyTorrent_drops_carry :
  (exists t,
      TorrentFromBytes meta_two_files = Ok (Some t)
      /\ Pieces t = [hex (SHA1.Sum (take 4 ([1; 2; 3] ++ [4; 5; 6; 7; 8])));
                     hex (SHA1.Sum (drop 4 ([1; 2; 3] ++ [4; 5; 6; 7; 8])))])
  /\ VerifyTorrent join_slash disk_two_files (B "t.torrent") (B "dl")
     = Error (piece_corrupted 0).
Proof.
  split; [eexists; split; vm_compute; reflexivity|].
  vm_compute. reflexivity.
Qed.

(** ** Orchestrator: a piece never leaves Done *)

Lemma completedPieces_insert_true (l : list bool) (i : nat) :
  (completedPieces l <= completedPieces (<[i := true]> l))%nat.
Proof.
  unfold completedPieces. revert i. induction l as [|b l IH]; intros i; [cbn; lia|].
  destruct i as [|i].
  - change (<[0%nat := true]> (b :: l)) with (true :: l).
    rewrite !filter_cons. destruct b.
    + reflexivity.
    + destruct (decide (false = true)); [discriminate|].
      destruct (decide (true = true)); [cbn [length]; lia | contradiction].
  - change (<[S i := true]> (b :: l)) with (b :: <[i := true]> l).
    rewrite !filter_cons. specialize (IH i).
    destruct (decide (b = true)); cbn [length]; lia.
Qed.

Lemma insert_true_keeps (l : list bool) (i j : nat) :
  l !! j = Some true -> <[i := true]> l !! j = Some true.
Proof.
  intros H. destruct (decide (i = j)) as [->|Hne].
  - rewrite list_lookup_insert_eq; [reflexivity|]. eapply lookup_lt_Some, H.
  - rewrite list_lookup_insert_ne by exact Hne. exact H.
Qed.

Section Orchestrator_facts.

Variable filepath_Join : list Z -> list Z -> list Z.
Variable tor : Torrent.
Variable downloadPath : list Z.

Local Abbreviation step := (step filepath_Join tor downloadPath).

Lemma step_downloaded_kept (s s' : Orchestrator) :
  step s s' ->
  (forall j, downloaded s !! j = Some true -> downloaded s' !! j = Some true)
  /\ (completedPieces (downloaded s) <= completedPieces (downloaded s'))%nat.
Proof.
  destruct 1; cbn [downloaded set_worker]; try (split; [tauto | lia]).
  split.
  - intros j Hj. apply insert_true_keeps, Hj.
  - apply completedPieces_insert_true.
Qed.

Lemma steps_downloaded_kept (s s' : Orchestrator) :
  rtc step s s' ->
  (forall j, downloaded s !! j = Some true -> downloaded s' !! j = Some true)
  /\ (completedPieces (downloaded s) <= completedPieces (downloaded s'))%nat.
Proof.
  induction 1 as [s|s s1 s2 H1 _ [IH1 IH2]]; [split; [tauto | lia]|].
  destruct (step_downloaded_kept _ _ H1) as [K1 K2].
  split; [intros j Hj; apply IH1, K1, Hj | lia].
Qed.

Lemma Sorted_snoc (l : list nat) (x : nat) :
  Sorted le l -> Forall (fun c => (c <= x)%nat) l -> Sorted le (l ++ [x]).
Proof.
  induction 1 as [|a l Hs IH Hhd]; intros Hall; cbn [app].
  - repeat constructor.
  - apply Forall_cons_1 in Hall as [Ha Hall]. constructor; [apply IH, Hall|].
    destruct l as [|b l]; cbn [app]; constructor.
    + exact Ha.
    + inversion Hhd; assumption.
Qed.

Lemma step_report_inv (s s' : Orchestrator) :
  step s s' -> report_inv s -> report_inv s'.
Proof.
  intros Hstep [Hs Hb]. pose proof (step_downloaded_kept _ _ Hstep) as [_ Hmono].
  unfold report_inv. destruct Hstep; cbn [reported downloaded set_worker] in *;
    try (split; [exact Hs|]; eapply Forall_impl; [exact Hb|]; cbn; intros; lia).
  split.
  - apply Sorted_snoc; assumption.
  - apply Forall_app. split; [exact Hb|]. repeat constructor.
Qed.

Lemma reachable_report_inv (peers : nat) (disk : Disk) (s : Orchestrator) :
  rtc step (orchestrator_init tor peers disk) s -> report_inv s.
Proof.
  revert s. apply (rtc_ind_r report_inv).
  - split; cbn; constructor.
  - intros y z _ Hyz IH. eapply step_report_inv; eassumption.
Qed.

End Orchestrator_facts.

(** C9. Along every run of the orchestrator a piece marked downloaded stays
    downloaded and the number of completed pieces never decreases; in every
    state reachable from the initial one, the counts that the progress
    reporter has observed, in the order observed, are non-decreasing. *)
Theorem C9_downloaded_is_monotone :
  forall (filepath_Join : list Z -> list Z -> list Z) (tor : Torrent) (downloadPath : list Z),
    (forall s s' : Orchestrator,
        rtc (step filepath_Join tor downloadPath) s s' ->
        (forall j, downloaded s !! j = Some true -> downloaded s' !! j = Some true)
        /\ (completedPieces (downloaded s) <= completedPieces (downloaded s'))%nat)
    /\ (forall (peers : nat) (disk : Disk) (s : Orchestrator),
        rtc (step filepath_Join tor downloadPath) (orchestrator_init tor peers disk) s ->
        Sorted le (reported s)).
Proof.
  intros J tor dp. split.
  - apply steps_downloaded_kept.
  - intros peers disk s H. apply (reachable_report_inv J tor dp peers disk s H).
Qed.

Lemma C9_downloaded_is_monotone_witness :
  exists s',
    rtc (step join_slash tor_two_files (B "dl"))
        (orchestrator_init tor_two_files 1 disk_preallocated) s'
    /\ downloaded s' = [true; false]
    /\ (completedPieces (downloaded (orchestrator_init tor_two_files 1 disk_preallocated))
        <= completedPieces (downloaded s'))%nat
    /\ Sorted le (reported s').
Proof.
  set (s0 := orchestrator_init tor_two_files 1 disk_preallocated).
  assert (Hrun : exists s', rtc (step join_slash tor_two_files (B "dl")) s0 s'
                            /\ downloaded s' = [true; false]).
  { eexists. split.
    - eapply rtc_l; [apply (step_report _ _ _ s0); reflexivity|].
      eapply rtc_l; [eapply (step_receive _ _ _ _ 0%nat 0%nat); vm_compute; reflexivity|].
      eapply rtc_l; [eapply (step_not_done _ _ _ _ 0%nat 0%nat); vm_compute; reflexivity|].
      eapply rtc_l; [eapply (step_download_ok _ _ _ _ 0%nat 0%nat [1; 2; 3; 4]); vm_compute; reflexivity|].
      eapply rtc_l; [eapply (step_hash_ok _ _ _ _ 0%nat 0%nat [1; 2; 3; 4]); vm_compute; reflexivity|].
      eapply rtc_l; [eapply (step_write_ok _ _ _ _ 0%nat 0%nat [1; 2; 3; 4]); vm_compute; reflexivity|].
      eapply rtc_l; [eapply (step_mark _ _ _ _ 0%nat 0%nat); vm_compute; (reflexivity || lia)|].
      eapply rtc_l; [eapply step_report; reflexivity|].
      apply rtc_refl.
    - vm_compute. reflexivity. }
  destruct Hrun as (s' & Hrun & Hd). exists s'.
  destruct (C9_downloaded_is_monotone join_slash tor_two_files (B "dl")) as [Hkeep Hrep].
  split; [exact Hrun|]. split; [exact Hd|]. split.
  - apply (Hkeep s0 s' Hrun).
  - apply (Hrep 1%nat disk_preallocated s' Hrun).
Defined.

(** ** Writeback *)

Lemma wrap64_small (z : Z) : - 2^63 <= z < 2^63 -> wrap64 z = z.
Proof. intros H. unfold wrap64. rewrite Z.mod_small by lia. lia. Qed.

Lemma dict_get_set_eq {V} (k : list Z) (v : V) (m : list (list Z * V)) :
  dict_get k (dict_set k v m) = Some v.
Proof.
  induction m as [|[k' v'] m IH]; cbn [dict_set dict_get].
  - unfold key_eqb. rewrite bool_decide_eq_true_2 by reflexivity. reflexivity.
  - unfold key_eqb. destruct (bool_decide_reflect (k = k')) as [<-|Hne]; cbn [dict_get].
    + unfold key_eqb. rewrite bool_decide_eq_true_2 by reflexivity. reflexivity.
    + unfold key_eqb. rewrite bool_decide_eq_false_2 by exact Hne. exact IH.
Qed.

Lemma dict_get_set_ne {V} (k k' : list Z) (v : V) (m : list (list Z * V)) :
  k <> k' -> dict_get k' (dict_set k v m) = dict_get k' m.
Proof.
  intros Hne. induction m as [|[k0 v0] m IH]; cbn [dict_set dict_get].
  - unfold key_eqb. rewrite bool_decide_eq_false_2 by congruence. reflexivity.
  - unfold key_eqb. destruct (bool_decide_reflect (k = k0)) as [<-|Hne0]; cbn [dict_get].
    + unfold key_eqb. rewrite !bool_decide_eq_false_2 by congruence. reflexivity.
    + unfold key_eqb. destruct (bool_decide_reflect (k' = k0)); [reflexivity | exact IH].
Qed.

Lemma slice_length {A} (l : list A) (lo hi : Z) :
  0 <= lo <= hi -> hi <= len l -> len (slice l lo hi) = hi - lo.
Proof.
  intros H1 H2. unfold slice, len in *. rewrite length_take, length_drop. lia.
Qed.

Lemma slice_lookup {A} (l : list A) (lo hi : Z) (j : nat) :
  0 <= lo -> Z.of_nat j < hi - lo ->
  slice l lo hi !! j = l !! Z.to_nat (lo + Z.of_nat j).
Proof.
  intros H1 H2. unfold slice. rewrite lookup_take_lt by lia. rewrite lookup_drop.
  f_equal. lia.
Qed.

Lemma file_write_inside (c : list Z) (off : Z) (data : list Z) :
  0 <= off -> off + len data <= len c ->
  file_write c off data
  = take (Z.to_nat off) c ++ data ++ drop (Z.to_nat off + length data) c.
Proof.
  intros H1 H2. unfold file_write, len in *.
  replace (Z.to_nat off - length c)%nat with 0%nat by lia.
  cbn [replicate]. rewrite app_nil_r. reflexivity.
Qed.

Lemma file_write_length (c : list Z) (off : Z) (data : list Z) :
  0 <= off -> off + len data <= len c -> length (file_write c off data) = length c.
Proof.
  intros H1 H2. rewrite file_write_inside by assumption. unfold len in *.
  rewrite !length_app, length_take, length_drop. lia.
Qed.

Lemma file_write_lookup (c : list Z) (off : Z) (data : list Z) (o : nat) :
  0 <= off -> off + len data <= len c ->
  file_write c off data !! o
  = if (off <=? Z.of_nat o) && (Z.of_nat o <? off + len data)
    then data !! (o - Z.to_nat off)%nat else c !! o.
Proof.
  intros H1 H2. rewrite file_write_inside by assumption. unfold len in *.
  destruct (Z.leb_spec off (Z.of_nat o)) as [Hle|Hlt]; cbn [andb].
  - rewrite lookup_app_r by (rewrite length_take; lia).
    rewrite length_take. replace (Z.to_nat off `min` length c)%nat with (Z.to_nat off) by lia.
    destruct (Z.ltb_spec (Z.of_nat o) (off + Z.of_nat (length data))) as [Hin|Hout].
    + rewrite lookup_app_l by lia. reflexivity.
    + rewrite lookup_app_r by lia. rewrite lookup_drop. f_equal. lia.
  - rewrite lookup_app_l by (rewrite length_take; lia).
    rewrite lookup_take_lt by lia. reflexivity.
Qed.

(** What the prescribed write does to one file, byte by byte: inside the
    piece's range the file takes the bytes of the buffer, elsewhere it is
    unchanged. *)
Lemma spec_write_effect (buf c : list Z) (ps pe fs fe : Z) :
  0 <= ps <= pe -> pe <= len buf -> 0 <= fs -> len c = fe - fs ->
  length (spec_write ps pe (slice buf ps pe) fs fe c) = length c
  /\ forall o : nat, (o < length c)%nat ->
       spec_write ps pe (slice buf ps pe) fs fe c !! o
       = if (ps <=? fs + Z.of_nat o) && (fs + Z.of_nat o <? pe)
         then buf !! Z.to_nat (fs + Z.of_nat o) else c !! o.
Proof.
  intros Hp Hpe Hfs Hc. unfold spec_write.
  pose proof (len_nonneg c) as Hcn.
  destruct (Z.ltb_spec ps fe) as [H1|H1]; cbn [andb].
  2:{ split; [reflexivity|]. intros o Ho. unfold len in *.
      destruct (Z.leb_spec ps (fs + Z.of_nat o)); [lia|]. reflexivity. }
  destruct (Z.gtb_spec pe fs) as [H2|H2].
  2:{ split; [reflexivity|]. intros o Ho. unfold len in *.
      destruct (Z.leb_spec ps (fs + Z.of_nat o)); cbn [andb]; [|reflexivity].
      destruct (Z.ltb_spec (fs + Z.of_nat o) pe); [lia | reflexivity]. }
  set (from := Z.max 0 (fs - ps)).
  set (count := Z.min pe fe - Z.max ps fs).
  set (off := Z.max 0 (ps - fs)).
  assert (Hcount : 0 <= count) by (unfold count; lia).
  assert (Hdata : len (slice (slice buf ps pe) from (from + count)) = count).
  { rewrite slice_length; [lia | unfold from; lia |].
    rewrite slice_length by lia. unfold from, count. lia. }
  assert (Hoff : 0 <= off) by (unfold off; lia).
  assert (Hfit : off + len (slice (slice buf ps pe) from (from + count)) <= len c).
  { rewrite Hdata. unfold off, count. lia. }
  split; [apply file_write_length; assumption|].
  intros o Ho. rewrite file_write_lookup by assumption. rewrite Hdata.
  unfold len in Hc.
  destruct (Z.leb_spec off (Z.of_nat o)) as [Ha|Ha]; cbn [andb].
  - destruct (Z.ltb_spec (Z.of_nat o) (off + count)) as [Hb|Hb].
    + destruct (Z.leb_spec ps (fs + Z.of_nat o)); [|unfold off in *; lia]. cbn [andb].
      destruct (Z.ltb_spec (fs + Z.of_nat o) pe); [|unfold off, count in *; lia].
      rewrite slice_lookup by (unfold from; lia).
      rewrite slice_lookup; [|lia|unfold from, off, count in *; lia].
      f_equal. unfold from, off in *. lia.
    + destruct (Z.leb_spec ps (fs + Z.of_nat o)); cbn [andb]; [|reflexivity].
      destruct (Z.ltb_spec (fs + Z.of_nat o) pe); [unfold off, count in *; lia | reflexivity].
  - destruct (Z.leb_spec ps (fs + Z.of_nat o)); [unfold off in *; lia | reflexivity].
Qed.

Lemma total_length_nonneg (fl : list File) :
  Forall (fun f => 0 <= Length f) fl -> 0 <= total_length fl.
Proof. induction 1; cbn [total_length fold_right]; [lia|]. fold (total_length l). lia. Qed.

Lemma file_starts_file (fl : list File) : forall cur f fs,
  (f, fs) ∈ file_starts cur fl -> f ∈ fl.
Proof.
  induction fl as [|f0 fl IH]; intros cur f fs H; cbn [file_starts] in H.
  - apply elem_of_nil in H. contradiction.
  - apply elem_of_cons in H as [[= -> ->]|H]; [left|right; eapply IH, H].
Qed.

Lemma file_starts_range (fl : list File) : forall cur f fs,
  Forall (fun f => 0 <= Length f) fl ->
  (f, fs) ∈ file_starts cur fl -> cur <= fs /\ fs + Length f <= cur + total_length fl.
Proof.
  induction fl as [|f0 fl IH]; intros cur f fs Hl H; cbn [file_starts] in H.
  - apply elem_of_nil in H. contradiction.
  - apply Forall_cons_1 in Hl as [H0 Hl]. pose proof (total_length_nonneg fl Hl).
    cbn [total_length fold_right]. fold (total_length fl).
    apply elem_of_cons in H as [[= -> ->]|H]; [lia|].
    specialize (IH _ _ _ Hl H). lia.
Qed.

Lemma elem_of_map {A C} (f : A -> C) (l : list A) (x : A) : x ∈ l -> f x ∈ map f l.
Proof. induction 1; cbn [map]; [left | right; assumption]. Qed.

Section Writeback_facts.

Variable filepath_Join : list Z -> list Z -> list Z.
Variable downloadPath : list Z.

Local Abbreviation path_of := (path_of filepath_Join downloadPath).
Local Abbreviation allocated := (allocated filepath_Join downloadPath).

Lemma writePiece_loop_spec (ps : Z) (pieceData : list Z) :
  forall (fl : list File) (cur : Z) (disk : Disk),
  0 <= ps -> ps + len pieceData < 2^63 ->
  0 <= cur -> cur + total_length fl < 2^63 ->
  Forall (fun f => 0 <= Length f) fl ->
  NoDup (map path_of fl) ->
  allocated disk fl ->
  exists disk',
    writePiece_loop filepath_Join ps (len pieceData) pieceData downloadPath fl cur disk
    = (disk', Ok tt)
    /\ (forall p, p ∉ map path_of fl -> dict_get p disk' = dict_get p disk)
    /\ (forall f fs c,
          (f, fs) ∈ file_starts cur fl ->
          dict_get (path_of f) disk = Some c ->
          dict_get (path_of f) disk'
          = Some (spec_write ps (ps + len pieceData) pieceData fs (fs + Length f) c)).
Proof.
  pose proof (len_nonneg pieceData) as Hpd.
  induction fl as [|f0 fl IH]; intros cur disk Hps Hpe Hcur Htot Hl Hnd Halloc.
  { exists disk. cbn [writePiece_loop]. split; [reflexivity|]. split; [reflexivity|].
    intros f fs c H. cbn in H. apply elem_of_nil in H. contradiction. }
  apply Forall_cons_1 in Hl as [H0 Hl]. pose proof (total_length_nonneg fl Hl) as Htl.
  cbn [total_length fold_right] in Htot. fold (total_length fl) in Htot.
  cbn [map] in Hnd. apply NoDup_cons in Hnd as [Hfresh Hnd].
  assert (Halloc' : forall disk1, (forall p, p <> path_of f0 -> dict_get p disk1 = dict_get p disk) ->
                                  allocated disk1 fl).
  { intros disk1 Hsame f Hf. destruct (Halloc f (list_elem_of_further _ _ _ Hf)) as (c & Hc & Hlen).
    exists c. split; [|exact Hlen]. rewrite Hsame; [exact Hc|].
    intros E. apply Hfresh. rewrite <- E. apply elem_of_map, Hf. }
  destruct (Halloc f0 (list_elem_of_here _ _)) as (c0 & Hc0 & Hlen0).
  cbn [writePiece_loop]. fold (path_of f0).
  rewrite !(wrap64_small (cur + Length f0)) by lia.
  rewrite !(wrap64_small (ps + len pieceData)) by lia.
  set (pe := ps + len pieceData) in *.
  set (fe := cur + Length f0) in *.
  destruct ((ps <? fe) && (pe >? cur)) eqn:Hov.
  - apply andb_prop in Hov as [Hov1 Hov2]. apply Z.ltb_lt in Hov1. apply Z.gtb_lt in Hov2.
    assert (E1 : (if ps >? cur then wrap64 (ps - cur) else 0) = Z.max 0 (ps - cur)).
    { destruct (Z.gtb_spec ps cur); [rewrite wrap64_small by lia|]; lia. }
    assert (E2 : (if cur >? ps then wrap64 (cur - ps) else 0) = Z.max 0 (cur - ps)).
    { destruct (Z.gtb_spec cur ps); [rewrite wrap64_small by lia|]; lia. }
    rewrite E1, E2.
    set (from := Z.max 0 (cur - ps)).
    assert (E3 : (if fe <? pe then wrap64 (fe - wrap64 (ps + from)) else wrap64 (len pieceData - from))
                 = Z.min pe fe - Z.max ps cur).
    { destruct (Z.ltb_spec fe pe).
      - rewrite (wrap64_small (ps + from)) by (unfold from; lia).
        rewrite wrap64_small by (unfold from; lia). unfold from. lia.
      - rewrite wrap64_small by (unfold from; lia). unfold from, pe. lia. }
    rewrite E3. set (count := Z.min pe fe - Z.max ps cur).
    rewrite Hc0.
    destruct (Z.ltb_spec (Z.max 0 (ps - cur)) 0); [lia|].
    rewrite (wrap64_small (from + count)) by (unfold from, count, pe; lia).
    unfold slice_checked.
    assert (Hb : (0 <=? from) && (from <=? from + count) && (from + count <=? len pieceData) = true).
    { unfold from, count, pe. repeat (apply andb_true_intro; split); apply Z.leb_le; lia. }
    rewrite Hb.
    set (c1 := file_write c0 (Z.max 0 (ps - cur)) (slice pieceData from (from + count))).
    destruct (IH fe (dict_set (path_of f0) c1 disk)) as (disk' & Hrun & Hother & Hfiles);
      try assumption; try lia.
    { apply Halloc'. intros p Hp. apply dict_get_set_ne. congruence. }
    exists disk'. split; [exact Hrun|]. split.
    + intros p Hp. cbn [map] in Hp. apply not_elem_of_cons in Hp as [Hp1 Hp2].
      rewrite (Hother p Hp2). apply dict_get_set_ne. congruence.
    + intros f fs c Hin Hc. cbn [file_starts] in Hin.
      apply elem_of_cons in Hin as [[= -> ->]|Hin].
      * rewrite (Hother _ Hfresh), dict_get_set_eq. rewrite Hc0 in Hc. injection Hc as <-.
        unfold spec_write. fold pe fe.
        destruct (Z.ltb_spec ps fe); [|lia]. destruct (Z.gtb_spec pe cur); [|lia].
        reflexivity.
      * apply Hfiles; [exact Hin|]. rewrite dict_get_set_ne; [exact Hc|].
        intros E. apply Hfresh. rewrite E.
        apply elem_of_map. eapply file_starts_file, Hin.
  - destruct (IH fe disk) as (disk' & Hrun & Hother & Hfiles); try assumption; try lia.
    { apply Halloc'. reflexivity. }
    exists disk'. split; [exact Hrun|]. split.
    + intros p Hp. cbn [map] in Hp. apply not_elem_of_cons in Hp as [_ Hp2].
      apply Hother, Hp2.
    + intros f fs c Hin Hc. cbn [file_starts] in Hin.
      apply elem_of_cons in Hin as [[= -> ->]|Hin].
      * rewrite (Hother _ Hfresh), Hc. unfold spec_write. fold pe fe. rewrite Hov. reflexivity.
      * apply Hfiles; assumption.
Qed.

End Writeback_facts.

Lemma slice_append {A} (l : list A) (a b c : Z) :
  0 <= a <= b -> b <= c ->
  slice l a b ++ slice l b c = slice l a c.
Proof.
  intros H1 H2. unfold slice.
  replace (drop (Z.to_nat b) l) with (drop (Z.to_nat (b - a)) (drop (Z.to_nat a) l))
    by (rewrite drop_drop; f_equal; lia).
  rewrite take_take_drop. f_equal. lia.
Qed.

Lemma slice_all {A} (l : list A) : slice l 0 (len l) = l.
Proof.
  unfold slice, len. cbn [Z.to_nat drop]. rewrite Z.sub_0_r, Nat2Z.id. apply firstn_all.
Qed.

Lemma concat_file_slices (buf : list Z) (fl : list File) : forall cur,
  0 <= cur -> Forall (fun f => 0 <= Length f) fl ->
  concat (map (fun ff : File * Z => slice buf (snd ff) (snd ff + Length (fst ff)))
              (file_starts cur fl))
  = slice buf cur (cur + total_length fl).
Proof.
  induction fl as [|f fl IH]; intros cur Hcur Hl; cbn [file_starts map concat total_length fold_right].
  - unfold slice. rewrite Z.add_0_r, Z.sub_diag. reflexivity.
  - apply Forall_cons_1 in Hl as [H0 Hl]. fold (total_length fl).
    pose proof (total_length_nonneg fl Hl). cbn [fst snd].
    rewrite IH by (assumption || lia).
    rewrite slice_append by lia. f_equal. lia.
Qed.

Lemma map_file_starts {C} (g : File -> C) (h : File * Z -> C) (fl : list File) : forall cur,
  (forall f fs, (f, fs) ∈ file_starts cur fl -> g f = h (f, fs)) ->
  map g fl = map h (file_starts cur fl).
Proof.
  induction fl as [|f fl IH]; intros cur H; cbn [file_starts map]; [reflexivity|].
  f_equal.
  - apply H. left.
  - apply IH. intros f' fs Hin. apply H. right. exact Hin.
Qed.

Lemma file_starts_exists (fl : list File) : forall cur f,
  f ∈ fl -> exists fs, (f, fs) ∈ file_starts cur fl.
Proof.
  induction fl as [|f0 fl IH]; intros cur f H.
  - apply elem_of_nil in H. contradiction.
  - apply elem_of_cons in H as [->|H].
    + exists cur. left.
    + destruct (IH (cur + Length f0) f H) as [fs Hfs]. exists fs. right. exact Hfs.
Qed.

Section Writeback_buffer.

Variable filepath_Join : list Z -> list Z -> list Z.
Variable downloadPath : list Z.
Variable tor : Torrent.
Variable buf : list Z.

Local Abbreviation path := (path_of filepath_Join downloadPath).
Local Abbreviation PL := (PieceLength tor).
Local Abbreviation written_ok := (written_ok filepath_Join downloadPath tor buf).

Hypothesis HPL : 0 < PL.
Hypothesis Hlens : Forall (fun f => 0 <= Length f) (FileList tor).
Hypothesis Htotal : len buf = total_length (FileList tor).
Hypothesis Hint : len buf < 2^63.
Hypothesis Hpaths : NoDup (map path (FileList tor)).

Lemma createEmptyFiles_loop_spec (fl : list File) : forall disk,
  Forall (fun f => 0 <= Length f) fl -> NoDup (map path fl) ->
  exists disk1,
    createEmptyFiles_loop filepath_Join downloadPath fl disk = (disk1, Ok tt)
    /\ (forall p, p ∉ map path fl -> dict_get p disk1 = dict_get p disk)
    /\ (forall f, f ∈ fl ->
          dict_get (path f) disk1 = Some (replicate (Z.to_nat (Length f)) 0)).
Proof.
  induction fl as [|f0 fl IH]; intros disk Hl Hnd.
  { exists disk. cbn. split; [reflexivity|]. split; [reflexivity|].
    intros f H. apply elem_of_nil in H. contradiction. }
  apply Forall_cons_1 in Hl as [H0 Hl]. cbn [map] in Hnd.
  apply NoDup_cons in Hnd as [Hfresh Hnd].
  cbn [createEmptyFiles_loop]. destruct (Z.ltb_spec (Length f0) 0); [lia|].
  fold (path f0).
  destruct (IH (dict_set (path f0) (replicate (Z.to_nat (Length f0)) 0)
                         (dict_set (path f0) [] disk)) Hl Hnd)
    as (disk1 & Hrun & Hother & Hfiles).
  exists disk1. split; [exact Hrun|]. split.
  - intros p Hp. cbn [map] in Hp. apply not_elem_of_cons in Hp as [Hp1 Hp2].
    rewrite (Hother p Hp2). rewrite !dict_get_set_ne by congruence. reflexivity.
  - intros f Hf. apply elem_of_cons in Hf as [->|Hf].
    + rewrite (Hother _ Hfresh). apply dict_get_set_eq.
    + apply Hfiles, Hf.
Qed.

Lemma written_ok_allocated (W : Z -> Prop) (disk : Disk) :
  written_ok W disk -> allocated filepath_Join downloadPath disk (FileList tor).
Proof.
  intros H f Hf. destruct (file_starts_exists _ 0 f Hf) as [fs Hfs].
  destruct (H f fs Hfs) as (c & Hc & Hlen & _). exists c. auto.
Qed.

Lemma piece_bounds (i : Z) :
  0 <= i -> i * PL < len buf ->
  0 <= i * PL <= Z.min ((i + 1) * PL) (len buf)
  /\ Z.min ((i + 1) * PL) (len buf) <= len buf
  /\ len (piece_of buf PL i) = Z.min ((i + 1) * PL) (len buf) - i * PL.
Proof.
  intros Hi Hlt. assert (0 <= i * PL) by nia.
  assert (i * PL <= (i + 1) * PL) by nia.
  split; [lia|]. split; [lia|]. unfold piece_of. apply slice_length; lia.
Qed.

Lemma writePiece_spec (i : Z) (disk : Disk) :
  0 <= i -> i * PL < len buf ->
  allocated filepath_Join downloadPath disk (FileList tor) ->
  exists disk',
    writePiece filepath_Join tor i (piece_of buf PL i) downloadPath disk = (disk', Ok tt)
    /\ (forall p, p ∉ map path (FileList tor) -> dict_get p disk' = dict_get p disk)
    /\ (forall f fs c,
          (f, fs) ∈ file_starts 0 (FileList tor) ->
          dict_get (path f) disk = Some c ->
          dict_get (path f) disk'
          = Some (spec_write (i * PL) (i * PL + len (piece_of buf PL i)) (piece_of buf PL i)
                             fs (fs + Length f) c)).
Proof.
  intros Hi Hlt Halloc. destruct (piece_bounds i Hi Hlt) as (Hb1 & Hb2 & Hb3).
  unfold writePiece. rewrite wrap64_small by lia.
  apply writePiece_loop_spec; try assumption; try lia.
Qed.

Lemma writePiece_keeps (W : Z -> Prop) (i : Z) (disk : Disk) :
  0 <= i -> i * PL < len buf -> written_ok W disk ->
  exists disk',
    writePiece filepath_Join tor i (piece_of buf PL i) downloadPath disk = (disk', Ok tt)
    /\ written_ok (fun j => j = i \/ W j) disk'.
Proof.
  intros Hi Hlt Hok. destruct (piece_bounds i Hi Hlt) as (Hb1 & Hb2 & Hb3).
  destruct (writePiece_spec i disk Hi Hlt (written_ok_allocated W disk Hok))
    as (disk' & Hrun & _ & Hfiles).
  exists disk'. split; [exact Hrun|].
  intros f fs Hin. destruct (Hok f fs Hin) as (c & Hc & Hlen & Hagree).
  destruct (file_starts_range _ _ _ _ Hlens Hin) as [Hfs1 Hfs2].
  rewrite (Hfiles f fs c Hin Hc). rewrite Hb3.
  replace (i * PL + (Z.min ((i + 1) * PL) (len buf) - i * PL))
    with (Z.min ((i + 1) * PL) (len buf)) by lia.
  set (pe := Z.min ((i + 1) * PL) (len buf)) in *.
  change (piece_of buf PL i) with (slice buf (i * PL) pe).
  destruct (spec_write_effect buf c (i * PL) pe fs (fs + Length f)) as [Hl Hp];
    try lia.
  eexists. split; [reflexivity|]. split; [unfold len in *; lia|].
  intros o Ho HW. rewrite Hl in Ho. rewrite (Hp o Ho).
  destruct (Z.leb_spec (i * PL) (fs + Z.of_nat o)) as [Ha|Ha]; cbn [andb].
  - destruct (Z.ltb_spec (fs + Z.of_nat o) pe) as [Hc'|Hc']; [reflexivity|].
    destruct HW as [HW|HW]; [|apply Hagree; assumption].
    exfalso. unfold pe, len in *. Z.div_mod_to_equations. nia.
  - destruct HW as [HW|HW]; [|apply Hagree; assumption].
    exfalso. Z.div_mod_to_equations. nia.
Qed.

Lemma write_pieces_keeps (order : list Z) : forall (W : Z -> Prop) (disk : Disk),
  (forall i, i ∈ order -> 0 <= i /\ i * PL < len buf) ->
  written_ok W disk ->
  exists disk',
    write_pieces filepath_Join tor buf downloadPath order disk = (disk', Ok tt)
    /\ written_ok (fun j => j ∈ order \/ W j) disk'.
Proof.
  induction order as [|i order IH]; intros W disk Hvalid Hok.
  - exists disk. split; [reflexivity|]. intros f fs Hin.
    destruct (Hok f fs Hin) as (c & Hc & Hlen & Hagree). exists c.
    split; [exact Hc|]. split; [exact Hlen|]. intros o Ho [HW|HW]; [|auto].
    apply elem_of_nil in HW. contradiction.
  - destruct (Hvalid i (list_elem_of_here _ _)) as [Hi Hlt].
    destruct (writePiece_keeps W i disk Hi Hlt Hok) as (disk1 & Hrun1 & Hok1).
    destruct (IH _ disk1 (fun j Hj => Hvalid j (list_elem_of_further _ _ _ Hj)) Hok1)
      as (disk2 & Hrun2 & Hok2).
    exists disk2. cbn [write_pieces]. rewrite Hrun1. split; [exact Hrun2|].
    intros f fs Hin. destruct (Hok2 f fs Hin) as (c & Hc & Hlen & Hagree). exists c.
    split; [exact Hc|]. split; [exact Hlen|]. intros o Ho HW. apply Hagree; [exact Ho|].
    destruct HW as [HW|HW]; [|auto]. apply elem_of_cons in HW as [->|HW]; auto.
Qed.

Lemma writeback_buffer (order : list Z) (disk0 : Disk) :
  (forall i, i ∈ order <-> 0 <= i /\ i * PL < len buf) ->
  exists disk1 disk2,
    createEmptyFiles filepath_Join tor downloadPath disk0 = (disk1, Ok tt)
    /\ write_pieces filepath_Join tor buf downloadPath order disk1 = (disk2, Ok tt)
    /\ (forall f fs, (f, fs) ∈ file_starts 0 (FileList tor) ->
          dict_get (path f) disk2 = Some (slice buf fs (fs + Length f)))
    /\ concat (file_contents filepath_Join tor downloadPath disk2) = buf.
Proof.
  intros Horder.
  destruct (createEmptyFiles_loop_spec (FileList tor) disk0 Hlens Hpaths)
    as (disk1 & Hrun1 & _ & Hzero).
  assert (Hok1 : written_ok (fun _ => False) disk1).
  { intros f fs Hin. eexists. split; [apply Hzero; eapply file_starts_file, Hin|].
    rewrite Forall_forall in Hlens. pose proof (Hlens f (file_starts_file _ _ _ _ Hin)).
    split; [unfold len; rewrite length_replicate; lia|]. intros o _ []. }
  destruct (write_pieces_keeps order _ disk1 (fun i Hi => proj1 (Horder i) Hi) Hok1)
    as (disk2 & Hrun2 & Hok2).
  exists disk1, disk2. split; [exact Hrun1|]. split; [exact Hrun2|].
  assert (Hfiles : forall f fs, (f, fs) ∈ file_starts 0 (FileList tor) ->
            dict_get (path f) disk2 = Some (slice buf fs (fs + Length f))).
  { intros f fs Hin. destruct (Hok2 f fs Hin) as (c & Hc & Hlen & Hagree).
    destruct (file_starts_range _ _ _ _ Hlens Hin) as [Hfs1 Hfs2].
    rewrite Forall_forall in Hlens. pose proof (Hlens f (file_starts_file _ _ _ _ Hin)) as Hf.
    rewrite Hc. f_equal. apply list_eq. intros o.
    destruct (Nat.lt_ge_cases o (length c)) as [Ho|Ho].
    - rewrite slice_lookup by (unfold len in *; lia). apply Hagree; [exact Ho|].
      left. apply Horder. unfold len in *. Z.div_mod_to_equations. nia.
    - rewrite !lookup_ge_None_2; [reflexivity | | exact Ho].
      assert (len (slice buf fs (fs + Length f)) = fs + Length f - fs)
        by (apply slice_length; unfold len in *; lia).
      unfold len in *. lia. }
  split; [exact Hfiles|].
  unfold file_contents.
  rewrite (map_file_starts _ (fun ff : File * Z => slice buf (snd ff) (snd ff + Length (fst ff)))
                           (FileList tor) 0).
  - rewrite concat_file_slices by (assumption || lia).
    rewrite Z.add_0_l, <- Htotal. apply slice_all.
  - intros f fs Hin. fold (path f). rewrite (Hfiles f fs Hin). reflexivity.
Qed.

End Writeback_buffer.

Lemma piece_index_range (T P i : Z) :
  0 < P -> 0 <= T -> (0 <= i < (T + P - 1) / P <-> 0 <= i /\ i * P < T).
Proof.
  intros HP HT. split; intros [H1 H2]; (split; [exact H1|]);
    Z.div_mod_to_equations; nia.
Qed.



Example writeback_across_files :
  exists disk1 disk2 disk3,
    createEmptyFiles join_slash tor_two_files (B "dl") [] = (disk1, Ok tt)
    /\ writePiece join_slash tor_two_files 0 [1; 2; 3; 4] (B "dl") disk1 = (disk2, Ok tt)
    /\ disk2 = [(B "dl/a", [1; 2; 3]); (B "dl/b", [4; 0; 0; 0; 0])]
    /\ writePiece join_slash tor_two_files 1 [5; 6; 7; 8] (B "dl") disk2 = (disk3, Ok tt)
    /\ disk3 = [(B "dl/a", [1; 2; 3]); (B "dl/b", [4; 5; 6; 7; 8])].
Proof. do 3 eexists. repeat split; vm_compute; reflexivity. Qed.

(** ** Peer-wire: reading back what was serialized *)

Lemma byte_of_shiftr_testbit (v k n : Z) :
  0 <= k -> 0 <= n ->
  Z.testbit (Z.shiftl (wrapU8 (Z.shiftr v k)) k) n
  = (k <=? n) && (n <? k + 8) && Z.testbit v n.
Proof.
  intros Hk Hn. unfold wrapU8. rewrite Z.shiftl_spec by lia.
  destruct (Z.leb_spec k n) as [Hle|Hlt]; cbn [andb].
  - rewrite Z.testbit_mod_pow2 by lia. rewrite Z.shiftr_spec by lia.
    replace (n - k + k) with n by lia.
    destruct (Z.ltb_spec (n - k) 8), (Z.ltb_spec n (k + 8)); try lia; reflexivity.
  - apply Z.testbit_neg_r. lia.
Qed.

Lemma Uint32_be32 (v : Z) (rest : list Z) :
  0 <= v < 2^32 -> Uint32 (be32 v ++ rest) = Some v.
Proof.
  intros Hv. unfold be32. cbn [app Uint32]. f_equal.
  apply Z.bits_inj'. intros n Hn.
  rewrite <- (Z.shiftl_0_r (wrapU8 v)) at 1. rewrite <- (Z.shiftr_0_r v) at 1.
  rewrite !Z.lor_spec, !byte_of_shiftr_testbit by lia.
  destruct (Z.ltb_spec n 32) as [Hlt|Hge].
  - destruct (Z.leb_spec 0 n), (Z.ltb_spec n (0 + 8)), (Z.leb_spec 8 n), (Z.ltb_spec n (8 + 8)),
      (Z.leb_spec 16 n), (Z.ltb_spec n (16 + 8)), (Z.leb_spec 24 n), (Z.ltb_spec n (24 + 8));
      try lia; cbn [andb orb]; rewrite ?Bool.orb_false_r; reflexivity.
  - assert (Z.testbit v n = false) as ->.
    { destruct (Z.eq_dec v 0) as [->|Hnz]; [apply Z.bits_0|].
      apply Z.bits_above_log2; [lia|].
      apply Z.log2_lt_pow2; [lia|].
      assert (2 ^ 32 <= 2 ^ n) by (apply Z.pow_le_mono_r; lia). lia. }
    rewrite !Bool.andb_false_r. reflexivity.
Qed.

Lemma byte_testbit_high (b i : Z) : 0 <= b < 256 -> 8 <= i -> Z.testbit b i = false.
Proof.
  intros Hb Hi. destruct (Z.eq_dec b 0) as [->|Hnz]; [apply Z.bits_0|].
  apply Z.bits_above_log2; [lia|]. apply Z.log2_lt_pow2; [lia|].
  assert (2 ^ 8 <= 2 ^ i) by (apply Z.pow_le_mono_r; lia). lia.
Qed.

Lemma shifted_byte_testbit (b k n : Z) :
  0 <= b < 256 -> 0 <= k -> 0 <= n ->
  Z.testbit (Z.shiftl b k) n = (k <=? n) && (n <? k + 8) && Z.testbit b (n - k).
Proof.
  intros Hb Hk Hn. rewrite Z.shiftl_spec by lia.
  destruct (Z.leb_spec k n); cbn [andb].
  - destruct (Z.ltb_spec n (k + 8)); [reflexivity|]. apply byte_testbit_high; lia.
  - apply Z.testbit_neg_r. lia.
Qed.

Lemma be32_Uint32 (b0 b1 b2 b3 v : Z) :
  0 <= b0 < 256 -> 0 <= b1 < 256 -> 0 <= b2 < 256 -> 0 <= b3 < 256 ->
  Uint32 [b0; b1; b2; b3] = Some v ->
  be32 v = [b0; b1; b2; b3] /\ 0 <= v < 2^32.
Proof.
  intros H0 H1 H2 H3 [= <-].
  set (V := Z.lor (Z.lor (Z.lor b3 (Z.shiftl b2 8)) (Z.shiftl b1 16)) (Z.shiftl b0 24)).
  assert (Hbits : forall n, 0 <= n ->
            Z.testbit V n
            = ((0 <=? n) && (n <? 0 + 8) && Z.testbit b3 (n - 0))
              || ((8 <=? n) && (n <? 8 + 8) && Z.testbit b2 (n - 8))
              || ((16 <=? n) && (n <? 16 + 8) && Z.testbit b1 (n - 16))
              || ((24 <=? n) && (n <? 24 + 8) && Z.testbit b0 (n - 24))).
  { intros n Hn. unfold V. rewrite <- (Z.shiftl_0_r b3) at 1.
    rewrite !Z.lor_spec, !shifted_byte_testbit by lia. reflexivity. }
  assert (Hbyte : forall k b,
            0 <= k -> 0 <= b < 256 ->
            (forall n, 0 <= n < 8 -> Z.testbit V (n + k) = Z.testbit b n) ->
            wrapU8 (Z.shiftr V k) = b).
  { intros k b Hk Hb Hn. unfold wrapU8. apply Z.bits_inj'. intros n Hn0.
    rewrite Z.testbit_mod_pow2 by lia. rewrite Z.shiftr_spec by lia.
    destruct (Z.ltb_spec n 8); cbn [andb].
    - apply Hn. lia.
    - symmetry. apply byte_testbit_high; lia. }
  split.
  - unfold be32. rewrite <- (Z.shiftr_0_r V) at 4.
    f_equal; [|f_equal; [|f_equal; [|f_equal]]]; apply Hbyte; try lia;
      intros n Hn; rewrite Hbits by lia;
      repeat match goal with
             | |- context [Z.leb ?a ?b] => destruct (Z.leb_spec a b); try lia
             | |- context [Z.ltb ?a ?b] => destruct (Z.ltb_spec a b); try lia
             end; cbn [andb orb]; rewrite ?Bool.orb_false_r; f_equal; lia.
  - assert (Hnn : 0 <= V).
    { unfold V. repeat (apply Z.lor_nonneg; split); try apply Z.shiftl_nonneg; lia. }
    split; [exact Hnn|].
    destruct (Z.eq_dec V 0) as [->|Hnz]; [lia|].
    apply Z.log2_lt_pow2; [lia|].
    destruct (Z.lt_ge_cases (Z.log2 V) 32) as [|Hge]; [assumption|exfalso].
    pose proof (Z.bit_log2 V ltac:(lia)) as Hbit.
    rewrite Hbits in Hbit by lia.
    repeat match type of Hbit with
           | context [Z.leb ?a ?b] => destruct (Z.leb_spec a b); try lia
           | context [Z.ltb ?a ?b] => destruct (Z.ltb_spec a b); try lia
           end; cbn in Hbit; discriminate.
Qed.

Lemma ReadFull_app (pre rest : list Z) :
  ReadFull (pre ++ rest) (length pre) = Ok (pre, rest).
Proof.
  unfold ReadFull. rewrite length_app.
  destruct (Nat.leb_spec (length pre) (length pre + length rest)); [|lia].
  rewrite take_app_length, drop_app_length. reflexivity.
Qed.

Lemma ReadMessage_frame (m : Message) (rest : list Z) :
  Type_ m <> MsgKeepAlive -> 0 <= Type_ m < 256 -> len (Payload m) + 5 < 2^32 ->
  ReadMessage ((be32 (1 + len (Payload m)) ++ [Type_ m] ++ Payload m) ++ rest) = Ok (m, rest).
Proof.
  intros Hka Hty Hlen. pose proof (len_nonneg (Payload m)) as Hnn.
  unfold ReadMessage. rewrite <- app_assoc.
  change 4%nat with (length (be32 (1 + len (Payload m)))).
  rewrite ReadFull_app.
  rewrite <- (app_nil_r (be32 _)), Uint32_be32 by lia.
  destruct (Z.eqb_spec (1 + len (Payload m)) 0); [lia|].
  replace (Z.to_nat (1 + len (Payload m))) with (length ([Type_ m] ++ Payload m))
    by (rewrite length_app; unfold len; cbn [length]; lia).
  rewrite <- app_assoc, (app_assoc [Type_ m]), ReadFull_app.
  cbn [app nth drop]. destruct m; reflexivity.
Qed.

Lemma ReadFull_Ok (r : list Z) (n : nat) (buf rest : list Z) :
  ReadFull r n = Ok (buf, rest) -> r = buf ++ rest /\ length buf = n.
Proof.
  unfold ReadFull. destruct (Nat.leb_spec n (length r)).
  - intros [= <- <-]. split; [symmetry; apply take_drop|]. rewrite length_take. lia.
  - destruct r; discriminate.
Qed.


(** X1. What [Serialize] writes, [ReadMessage] reads back: for every
    message other than keep-alive whose type fits a byte and whose frame
    length fits a uint32, reading a stream that starts with the frame
    returns the same message and leaves exactly the bytes after the frame. *)
Theorem ReadMessage_Serialize_roundtrip (m : Message) (rest : list Z) :
  Type_ m <> MsgKeepAlive -> 0 <= Type_ m < 256 -> len (Payload m) + 5 < 2^32 ->
  exists frame, Serialize m = Some frame /\ ReadMessage (frame ++ rest) = Ok (m, rest).
Proof.
  intros Hka Hty Hlen. eexists. split.
  - apply Serialize_frame; assumption.
  - apply ReadMessage_frame; assumption.
Qed.

Lemma ReadMessage_Serialize_roundtrip_witness :
  exists frame,
    Serialize (mkMessage MsgHave (be32 5)) = Some frame
    /\ ReadMessage (frame ++ [0; 0; 0; 0]) = Ok (mkMessage MsgHave (be32 5), [0; 0; 0; 0]).
Proof.
  apply (ReadMessage_Serialize_roundtrip (mkMessage MsgHave (be32 5)) [0; 0; 0; 0]).
  - vm_compute. discriminate.
  - simpl. unfold MsgHave. lia.
  - vm_compute. reflexivity.
Defined.

(** X2. A keep-alive is four zero bytes whatever payload the message
    carries, and it is read back as a keep-alive with no payload; a frame
    whose id byte is 255 is read as a message of the keep-alive type with
    its payload, and serializing that message again gives four zero bytes:
    the id and the payload are lost. *)
Theorem KeepAlive_drops_payload (payload rest : list Z) :
  Serialize (mkMessage MsgKeepAlive payload) = Some [0; 0; 0; 0]
  /\ ReadMessage ([0; 0; 0; 0] ++ rest) = Ok (mkMessage MsgKeepAlive [], rest)
  /\ (len payload + 5 < 2^32 ->
      ReadMessage ((be32 (1 + len payload) ++ [255] ++ payload) ++ rest)
      = Ok (mkMessage MsgKeepAlive payload, rest)).
Proof.
  split; [reflexivity|]. split; [reflexivity|].
  intros Hlen. pose proof (len_nonneg payload) as Hnn.
  unfold ReadMessage. rewrite <- app_assoc.
  change 4%nat with (length (be32 (1 + len payload))).
  rewrite ReadFull_app.
  rewrite <- (app_nil_r (be32 _)), Uint32_be32 by lia.
  destruct (Z.eqb_spec (1 + len payload) 0); [lia|].
  replace (Z.to_nat (1 + len payload)) with (length ([255] ++ payload))
    by (rewrite length_app; unfold len; cbn [length]; lia).
  rewrite <- app_assoc, (app_assoc [255]), ReadFull_app.
  reflexivity.
Qed.

Lemma KeepAlive_drops_payload_witness :
  ReadMessage ((be32 (1 + len [7; 7]) ++ [255] ++ [7; 7]) ++ [9])
  = Ok (mkMessage MsgKeepAlive [7; 7], [9]).
Proof.
  apply (proj2 (proj2 (KeepAlive_drops_payload [7; 7] [9]))).
  vm_compute. reflexivity.
Defined.

(** X3. Conversely, a message read from a stream of bytes shorter than
    2^32 whose type is not the keep-alive value serializes to exactly the
    bytes that were consumed: the stream is that frame followed by the rest. *)
Theorem Serialize_ReadMessage_roundtrip (r : list Z) (m : Message) (rest : list Z) :
  Forall (fun b => 0 <= b < 256) r -> len r < 2^32 ->
  ReadMessage r = Ok (m, rest) -> Type_ m <> MsgKeepAlive ->
  exists frame, Serialize m = Some frame /\ r = frame ++ rest.
Proof.
  intros Hbytes Hlen Hread Hka. unfold ReadMessage in Hread.
  destruct (ReadFull r 4) as [[lengthBuf r1]|msg|] eqn:H4; try discriminate.
  apply ReadFull_Ok in H4 as [-> Hl4].
  destruct lengthBuf as [|b0 [|b1 [|b2 [|b3 [|]]]]]; try discriminate Hl4.
  apply Forall_app in Hbytes as [Hb Hbytes].
  destruct (Uint32 [b0; b1; b2; b3]) as [v|] eqn:Hv; [|discriminate].
  apply be32_Uint32 in Hv as [Hbe Hvr];
    try (rewrite !Forall_cons in Hb; tauto).
  destruct (Z.eqb_spec v 0) as [->|Hnz].
  { injection Hread as <- <-. exfalso. apply Hka. reflexivity. }
  destruct (ReadFull r1 (Z.to_nat v)) as [[messageBuf r2]|msg|] eqn:Hm; try discriminate.
  apply ReadFull_Ok in Hm as [-> Hlm]. injection Hread as <- <-.
  destruct messageBuf as [|ty payload]; [cbn in Hlm; lia|].
  cbn [nth drop Type_ Payload] in *.
  apply Forall_app in Hbytes as [Hmb _].
  assert (Hty : 0 <= ty < 256) by (rewrite Forall_cons in Hmb; tauto).
  assert (Hv : v = 1 + len payload) by (unfold len; cbn [length] in Hlm; lia).
  exists (be32 (1 + len payload) ++ [ty] ++ payload). split.
  - apply (Serialize_frame (mkMessage ty payload)); cbn [Type_ Payload]; try assumption.
    unfold len in *. rewrite !length_app in Hlen. cbn [length] in Hlen. lia.
  - rewrite <- Hv, Hbe. cbn [app]. reflexivity.
Qed.

Lemma Serialize_ReadMessage_roundtrip_witness :
  exists frame,
    Serialize (mkMessage MsgHave [0; 0; 0; 5]) = Some frame
    /\ [0; 0; 0; 5; 4; 0; 0; 0; 5; 0; 0; 0; 0] = frame ++ [0; 0; 0; 0].
Proof.
  apply (Serialize_ReadMessage_roundtrip [0; 0; 0; 5; 4; 0; 0; 0; 5; 0; 0; 0; 0]).
  - repeat constructor; lia.
  - vm_compute. reflexivity.
  - vm_compute. reflexivity.
  - vm_compute. discriminate.
Defined.

(** X4. On a stream of bytes [ReadMessage] never panics; it fails only
    with [EOF] (nothing left where the length prefix or the body should
    start) or [unexpected EOF] (the stream ends inside the prefix or the
    body), and when it succeeds it has consumed the four prefix bytes and
    as many bytes as the prefix says, the first of them being the type. *)
Theorem ReadMessage_outcomes (r : list Z) :
  Forall (fun b => 0 <= b < 256) r ->
  match ReadMessage r with
  | Panicked => False
  | Error msg => msg = B "EOF" \/ msg = B "unexpected EOF"
  | Ok (m, rest) =>
      exists v, Uint32 r = Some v
        /\ len r = 4 + v + len rest
        /\ (v = 0 -> m = mkMessage MsgKeepAlive [])
        /\ (v <> 0 -> len (Payload m) = v - 1 /\ r !! 4%nat = Some (Type_ m))
  end.
Proof.
  intros Hbytes.
  assert (Herr : forall l n x, ReadFull l n = x ->
            match x with
            | Panicked => False
            | Error msg => msg = B "EOF" \/ msg = B "unexpected EOF"
            | Ok _ => True
            end).
  { intros l n x <-. unfold ReadFull. destruct (n <=? length l)%nat; [exact I|].
    destruct l; [left|right]; reflexivity. }
  unfold ReadMessage.
  destruct (ReadFull r 4) as [[lengthBuf r1]|msg|] eqn:H4;
    try (apply Herr in H4; exact H4).
  apply ReadFull_Ok in H4 as [-> Hl4].
  destruct lengthBuf as [|b0 [|b1 [|b2 [|b3 [|]]]]]; try discriminate Hl4.
  apply Forall_app in Hbytes as [Hb Hbytes].
  destruct (Uint32 [b0; b1; b2; b3]) as [v|] eqn:Hv; [|discriminate Hv].
  assert (HU : Uint32 ([b0; b1; b2; b3] ++ r1) = Some v) by exact Hv.
  apply be32_Uint32 in Hv as [_ Hvr];
    try (rewrite !Forall_cons in Hb; tauto).
  destruct (Z.eqb_spec v 0) as [Hz|Hnz].
  - exists v. split; [exact HU|]. unfold len. rewrite length_app. cbn [length].
    split; [lia|]. split; [reflexivity|]. intros H. contradiction.
  - destruct (ReadFull r1 (Z.to_nat v)) as [[messageBuf r2]|msg|] eqn:Hm;
      try (apply Herr in Hm; exact Hm).
    apply ReadFull_Ok in Hm as [-> Hlm].
    exists v. split; [exact HU|].
    destruct messageBuf as [|ty payload]; [cbn in Hlm; lia|].
    unfold len. rewrite !length_app. cbn [Payload Type_ nth drop length] in *.
    split; [lia|]. split; [intros H; contradiction|]. intros _.
    rewrite drop_0. split; [lia|reflexivity].
Qed.

Lemma ReadMessage_outcomes_witness :
  match ReadMessage [0; 0; 0; 5; 4; 0; 0] with
  | Panicked => False
  | Error msg => msg = B "EOF" \/ msg = B "unexpected EOF"
  | Ok (m, rest) =>
      exists v, Uint32 [0; 0; 0; 5; 4; 0; 0] = Some v
        /\ len [0; 0; 0; 5; 4; 0; 0] = 4 + v + len rest
        /\ (v = 0 -> m = mkMessage MsgKeepAlive [])
        /\ (v <> 0 -> len (Payload m) = v - 1
                      /\ [0; 0; 0; 5; 4; 0; 0] !! 4%nat = Some (Type_ m))
  end.
Proof.
  apply (ReadMessage_outcomes [0; 0; 0; 5; 4; 0; 0]).
  repeat constructor; lia.
Defined.


(** ** Peer-wire: payloads *)

Lemma FormatRequest_layout (index begin length32 : Z) :
  FormatRequest index begin length32 = Some (be32 index ++ be32 begin ++ be32 length32).
Proof. reflexivity. Qed.

Lemma ParsePiece_layout (index begin : Z) (data : list Z) :
  0 <= index < 2^32 -> 0 <= begin < 2^32 ->
  ParsePiece (be32 index ++ be32 begin ++ data) = Ok (index, begin, data).
Proof.
  intros Hi Hb. unfold ParsePiece.
  change (length (be32 index ++ be32 begin ++ data) <? 8)%nat with false.
  change (slice (be32 index ++ be32 begin ++ data) 0 4) with (be32 index ++ []).
  change (slice (be32 index ++ be32 begin ++ data) 4 8) with (be32 begin ++ []).
  rewrite !Uint32_be32 by assumption. reflexivity.
Qed.

(** X5. A request payload is the three arguments as big-endian uint32s,
    twelve bytes, for all arguments (no slice expression of
    [FormatRequest] can panic); a block sent back for that request, framed
    by [Serialize] as a piece message, is read by [ReadMessage] and split by
    [ParsePiece] into the same index, offset and data. *)
Theorem ParsePiece_answers_request (index begin length32 : Z) (data rest : list Z) :
  0 <= index < 2^32 -> 0 <= begin < 2^32 -> len data + 13 < 2^32 ->
  FormatRequest index begin length32 = Some (be32 index ++ be32 begin ++ be32 length32)
  /\ exists frame,
      Serialize (mkMessage MsgPiece (be32 index ++ be32 begin ++ data)) = Some frame
      /\ exists m, ReadMessage (frame ++ rest) = Ok (m, rest)
           /\ Type_ m = MsgPiece
           /\ ParsePiece (Payload m) = Ok (index, begin, data).
Proof.
  intros Hi Hb Hd. split; [apply FormatRequest_layout|].
  set (m := mkMessage MsgPiece (be32 index ++ be32 begin ++ data)).
  assert (Hlen : len (Payload m) + 5 < 2^32).
  { unfold m, len in *. cbn [Payload]. rewrite !length_app. cbn [be32 length]. lia. }
  assert (Hka : Type_ m <> MsgKeepAlive) by (vm_compute; discriminate).
  assert (Hty : 0 <= Type_ m < 256) by (cbn; unfold MsgPiece; lia).
  eexists. split; [apply Serialize_frame; assumption|].
  exists m. split; [apply ReadMessage_frame; assumption|].
  split; [reflexivity|]. apply ParsePiece_layout; assumption.
Qed.

Lemma ParsePiece_answers_request_witness :
  FormatRequest 3 0 16384 = Some (be32 3 ++ be32 0 ++ be32 16384)
  /\ exists frame,
      Serialize (mkMessage MsgPiece (be32 3 ++ be32 0 ++ [1; 2; 3])) = Some frame
      /\ exists m, ReadMessage (frame ++ [9]) = Ok (m, [9])
           /\ Type_ m = MsgPiece
           /\ ParsePiece (Payload m) = Ok (3, 0, [1; 2; 3]).
Proof.
  apply (ParsePiece_answers_request 3 0 16384 [1; 2; 3] [9]).
  - lia.
  - lia.
  - vm_compute. reflexivity.
Defined.

(** X6. [ParsePiece] on bytes never panics: a payload of fewer than eight
    bytes is an error, and any other payload is the index, the offset and
    the data it returns, laid out as two big-endian uint32s followed by the
    data. *)
Theorem ParsePiece_inverse (payload : list Z) :
  Forall (fun b => 0 <= b < 256) payload ->
  match ParsePiece payload with
  | Panicked => False
  | Error _ => len payload < 8
  | Ok (index, begin, data) =>
      payload = be32 index ++ be32 begin ++ data
      /\ 0 <= index < 2^32 /\ 0 <= begin < 2^32
  end.
Proof.
  intros Hbytes. unfold ParsePiece.
  destruct (Nat.ltb_spec (length payload) 8) as [Hlt|Hge]; [unfold len; lia|].
  destruct payload as [|b0 [|b1 [|b2 [|b3 [|b4 [|b5 [|b6 [|b7 data]]]]]]]];
    try (cbn [length] in Hge; lia).
  change (slice (b0 :: b1 :: b2 :: b3 :: b4 :: b5 :: b6 :: b7 :: data) 0 4)
    with [b0; b1; b2; b3].
  change (slice (b0 :: b1 :: b2 :: b3 :: b4 :: b5 :: b6 :: b7 :: data) 4 8)
    with [b4; b5; b6; b7].
  rewrite !Forall_cons in Hbytes.
  destruct (Uint32 [b0; b1; b2; b3]) as [index|] eqn:Hi; [|discriminate Hi].
  destruct (Uint32 [b4; b5; b6; b7]) as [begin|] eqn:Hb; [|discriminate Hb].
  apply be32_Uint32 in Hi as [-> ?]; [|tauto..].
  apply be32_Uint32 in Hb as [-> ?]; [|tauto..].
  cbn [drop app]. auto.
Qed.

Lemma ParsePiece_inverse_witness :
  match ParsePiece [0; 0; 0; 3; 0; 0; 64; 0; 7; 7] with
  | Panicked => False
  | Error _ => len [0; 0; 0; 3; 0; 0; 64; 0; 7; 7] < 8
  | Ok (index, begin, data) =>
      [0; 0; 0; 3; 0; 0; 64; 0; 7; 7] = be32 index ++ be32 begin ++ data
      /\ 0 <= index < 2^32 /\ 0 <= begin < 2^32
  end.
Proof.
  apply (ParsePiece_inverse [0; 0; 0; 3; 0; 0; 64; 0; 7; 7]).
  repeat constructor; lia.
Defined.

(** X7. [ParseHave] on bytes never panics: it returns an index exactly
    for the four-byte payloads, the index is the big-endian value of the
    payload, and every uint32 index sent as a have message by [Serialize] is
    read back by [ReadMessage] and [ParseHave]. *)
Theorem ParseHave_inverse (payload : list Z) :
  Forall (fun b => 0 <= b < 256) payload ->
  match ParseHave payload with
  | Panicked => False
  | Error _ => len payload <> 4
  | Ok index =>
      payload = be32 index /\ 0 <= index < 2^32
      /\ forall rest, exists frame,
           Serialize (mkMessage MsgHave payload) = Some frame
           /\ ReadMessage (frame ++ rest) = Ok (mkMessage MsgHave payload, rest)
  end.
Proof.
  intros Hbytes. unfold ParseHave.
  destruct (Nat.eqb_spec (length payload) 4) as [Hl|Hl]; cbn [negb];
    [|unfold len; lia].
  destruct payload as [|b0 [|b1 [|b2 [|b3 [|]]]]]; try discriminate Hl.
  rewrite !Forall_cons in Hbytes.
  destruct (Uint32 [b0; b1; b2; b3]) as [index|] eqn:Hi; [|discriminate Hi].
  apply be32_Uint32 in Hi as [Hbe ?]; [|tauto..].
  split; [symmetry; exact Hbe|]. split; [assumption|].
  intros rest. eexists. split.
  - apply Serialize_frame; [vm_compute; discriminate | cbn; unfold MsgHave; lia
                           | vm_compute; reflexivity].
  - apply (ReadMessage_frame (mkMessage MsgHave [b0; b1; b2; b3]));
      [vm_compute; discriminate | cbn; unfold MsgHave; lia | vm_compute; reflexivity].
Qed.

Lemma ParseHave_inverse_witness :
  match ParseHave [0; 0; 1; 2] with
  | Panicked => False
  | Error _ => len [0; 0; 1; 2] <> 4
  | Ok index =>
      [0; 0; 1; 2] = be32 index /\ 0 <= index < 2^32
      /\ forall rest, exists frame,
           Serialize (mkMessage MsgHave [0; 0; 1; 2]) = Some frame
           /\ ReadMessage (frame ++ rest) = Ok (mkMessage MsgHave [0; 0; 1; 2], rest)
  end.
Proof.
  apply (ParseHave_inverse [0; 0; 1; 2]).
  repeat constructor; lia.
Defined.


(** ** Peer-wire: handshake *)

Lemma copy_at_app (pre mid post src : list Z) (off : nat) :
  off = length pre -> length mid = length src ->
  copy_at (pre ++ mid ++ post) off src = pre ++ src ++ post.
Proof.
  intros -> Hl. unfold copy_at.
  rewrite take_app_length. f_equal.
  rewrite !length_app.
  rewrite take_ge by lia. f_equal.
  rewrite drop_app_ge by lia.
  rewrite drop_app_ge by lia.
  replace (length pre + length src - length pre - length mid)%nat with 0%nat by lia.
  reflexivity.
Qed.

Lemma copy_at_full (buf src : list Z) :
  length buf = length src -> copy_at buf 0 src = src.
Proof.
  intros Hl.
  pose proof (copy_at_app [] buf [] src 0 eq_refl Hl) as H.
  cbn [app] in H. rewrite !app_nil_r in H. exact H.
Qed.

Lemma ReadFull_exact (pre rest : list Z) (n : nat) :
  n = length pre -> ReadFull (pre ++ rest) n = Ok (pre, rest).
Proof. intros ->. apply ReadFull_app. Qed.

Lemma slice_between {A} (pre t rest : list A) (lo hi : Z) :
  lo = len pre -> hi = lo + len t -> slice (pre ++ t ++ rest) lo hi = t.
Proof. intros -> ->. apply slice_middle. Qed.

Lemma Handshake_Serialize_layout (h : Handshake) :
  length (HandshakeInfoHash h) = 20%nat -> length (PeerID h) = 20%nat ->
  Handshake_Serialize h
  = [wrapU8 (Pstrlen h)] ++ Pstr h ++ replicate 8 0 ++ HandshakeInfoHash h ++ PeerID h.
Proof.
  intros Hh Hp. unfold Handshake_Serialize.
  set (n := length (Pstr h)).
  change (replicate (49 + n) 0) with (0 :: replicate (48 + n) 0).
  change (<[0%nat := wrapU8 (Pstrlen h)]> (0 :: replicate (48 + n) 0))
    with ([wrapU8 (Pstrlen h)] ++ replicate (48 + n) 0).
  replace (48 + n)%nat with (n + (8 + (20 + 20)))%nat by lia.
  rewrite !replicate_add.
  rewrite (copy_at_app [wrapU8 (Pstrlen h)] (replicate n 0)); [|reflexivity|apply length_replicate].
  rewrite (app_assoc (Pstr h)), (app_assoc [_]).
  rewrite (copy_at_app _ (replicate 20 0));
    [|rewrite !length_app, length_replicate; cbn [length]; fold n; lia
     |rewrite length_replicate; congruence].
  rewrite (app_assoc _ (HandshakeInfoHash h)).
  rewrite <- (app_nil_r (replicate 20 0)).
  rewrite (copy_at_app _ (replicate 20 0) []);
    [|rewrite !length_app, length_replicate; cbn [length]; fold n; lia
     |rewrite length_replicate; congruence].
  rewrite app_nil_r, <- !app_assoc. reflexivity.
Qed.

Lemma ReadHandshake_layout (p : Z) (pstr reserved infoHash peerID rest : list Z) :
  p = len pstr -> 0 < len pstr < 256 ->
  length reserved = 8%nat -> length infoHash = 20%nat -> length peerID = 20%nat ->
  ReadHandshake (([p] ++ pstr ++ reserved ++ infoHash ++ peerID) ++ rest)
  = Ok (mkHandshake p pstr reserved infoHash peerID, rest).
Proof.
  intros -> Hn Hr Hh Hp. unfold ReadHandshake.
  rewrite <- app_assoc. rewrite (ReadFull_exact [len pstr]) by reflexivity.
  cbn [nth]. unfold len in *. rewrite Nat2Z.id.
  destruct (Nat.eqb_spec (length pstr) 0); [lia|].
  rewrite (ReadFull_exact (pstr ++ reserved ++ infoHash ++ peerID))
    by (rewrite !length_app; lia).
  rewrite take_app_length.
  set (k := length pstr) in *.
  assert (Hs1 : slice (pstr ++ reserved ++ infoHash ++ peerID)
                      (Z.of_nat k + 8) (Z.of_nat k + 8 + 20) = infoHash).
  { rewrite app_assoc. apply slice_between; unfold len; [rewrite length_app|]; lia. }
  assert (Hs2 : slice (pstr ++ reserved ++ infoHash ++ peerID)
                      (Z.of_nat k) (Z.of_nat k + 8) = reserved).
  { apply slice_between; unfold len; lia. }
  rewrite Hs1, Hs2.
  rewrite !copy_at_full by (rewrite length_replicate; congruence).
  replace (drop (k + 8 + 20) (pstr ++ reserved ++ infoHash ++ peerID))
    with peerID.
  2:{ rewrite !app_assoc. rewrite drop_app_length'; [reflexivity|].
      rewrite !length_app. lia. }
  rewrite copy_at_full by (rewrite length_replicate; congruence).
  rewrite wrapU8_small by lia. reflexivity.
Qed.


(** X8. A handshake written by [Serialize] is read back by
    [ReadHandshake]: for a handshake whose length byte is the length of its
    protocol string (between 1 and 255), the bytes are the length byte, the
    protocol string, eight zero bytes, the info-hash and the peer id,
    [49 + len(pstr)] in all, and reading them returns the same protocol
    string, info-hash and peer id and leaves the rest of the stream. The
    reserved bytes of the handshake are never written: they come back as
    zeros whatever they were. *)
Theorem ReadHandshake_Serialize_roundtrip (h : Handshake) (rest : list Z) :
  Pstrlen h = len (Pstr h) -> 0 < len (Pstr h) < 256 ->
  length (HandshakeInfoHash h) = 20%nat -> length (PeerID h) = 20%nat ->
  Handshake_Serialize h
  = [Pstrlen h] ++ Pstr h ++ replicate 8 0 ++ HandshakeInfoHash h ++ PeerID h
  /\ len (Handshake_Serialize h) = 49 + len (Pstr h)
  /\ ReadHandshake (Handshake_Serialize h ++ rest)
     = Ok (mkHandshake (Pstrlen h) (Pstr h) (replicate 8 0)
                       (HandshakeInfoHash h) (PeerID h), rest).
Proof.
  intros Hl Hn Hh Hp.
  rewrite Handshake_Serialize_layout by assumption.
  rewrite wrapU8_small by lia.
  split; [reflexivity|]. split.
  - unfold len. rewrite !length_app, length_replicate. cbn [length]. lia.
  - apply ReadHandshake_layout; try assumption. apply length_replicate.
Qed.

Lemma ReadHandshake_Serialize_roundtrip_witness :
  let h := mkHandshake 19 ProtocolIdentifier (replicate 8 255)
                       (replicate 20 1) (replicate 20 2) in
  Handshake_Serialize h
  = [Pstrlen h] ++ Pstr h ++ replicate 8 0 ++ HandshakeInfoHash h ++ PeerID h
  /\ len (Handshake_Serialize h) = 49 + len (Pstr h)
  /\ ReadHandshake (Handshake_Serialize h ++ [7])
     = Ok (mkHandshake (Pstrlen h) (Pstr h) (replicate 8 0)
                       (HandshakeInfoHash h) (PeerID h), [7]).
Proof.
  apply (ReadHandshake_Serialize_roundtrip
           (mkHandshake 19 ProtocolIdentifier (replicate 8 255)
                        (replicate 20 1) (replicate 20 2)) [7]).
  - reflexivity.
  - vm_compute. split; reflexivity.
  - reflexivity.
  - reflexivity.
Defined.

(** X9. [ReadHandshake] on a stream of bytes never panics. It fails with
    [EOF] or [unexpected EOF] when the stream is too short and with
    [pstrlen cannot be 0] when the first byte is zero. When it succeeds the
    stream was the length byte, a protocol string of that length, eight
    reserved bytes, twenty bytes of info-hash and twenty of peer id,
    followed by what it leaves unread; the protocol string itself is not
    checked. *)
Theorem ReadHandshake_outcomes (r : list Z) :
  Forall (fun b => 0 <= b < 256) r ->
  match ReadHandshake r with
  | Panicked => False
  | Error msg =>
      (msg = B "EOF" \/ msg = B "unexpected EOF" \/ msg = B "pstrlen cannot be 0")
      /\ (msg = B "pstrlen cannot be 0" <-> r !! 0%nat = Some 0)
  | Ok (h, rest) =>
      r = [Pstrlen h] ++ Pstr h ++ Reserved h ++ HandshakeInfoHash h ++ PeerID h ++ rest
      /\ Pstrlen h = len (Pstr h) /\ 0 < Pstrlen h < 256
      /\ length (Reserved h) = 8%nat
      /\ length (HandshakeInfoHash h) = 20%nat
      /\ length (PeerID h) = 20%nat
  end.
Proof.
  intros Hbytes. unfold ReadHandshake.
  destruct r as [|b r1].
  { cbn. split; [left; reflexivity|]. split; discriminate. }
  change (ReadFull (b :: r1) 1) with (Ok ([b], r1)). cbn [nth].
  rewrite Forall_cons in Hbytes. destruct Hbytes as [Hb Hbytes].
  destruct (Nat.eqb_spec (Z.to_nat b) 0) as [Hz|Hnz].
  { split; [right; right; reflexivity|]. split; [intros _|reflexivity].
    cbn. f_equal. lia. }
  set (k := Z.to_nat b) in *.
  destruct (ReadFull r1 (48 + k)) as [[hb r2]|msg|] eqn:Hrd.
  - apply ReadFull_Ok in Hrd as [-> Hlen].
    cbn [Pstrlen Pstr Reserved HandshakeInfoHash PeerID].
    assert (Hk : Z.of_nat k = b) by (unfold k; lia).
    rewrite Hk, wrapU8_small by lia.
    assert (Hl1 : length (slice hb b (b + 8)) = 8%nat).
    { pose proof (slice_length hb b (b + 8)) as H. unfold len in H. lia. }
    assert (Hl2 : length (slice hb (b + 8) (b + 8 + 20)) = 20%nat).
    { pose proof (slice_length hb (b + 8) (b + 8 + 20)) as H. unfold len in H. lia. }
    assert (Hl3 : length (drop (k + 8 + 20) hb) = 20%nat).
    { rewrite length_drop. lia. }
    rewrite !copy_at_full by (rewrite length_replicate; congruence).
    split; [|split; [unfold len; rewrite length_take; lia|]].
    + cbn [app]. f_equal. rewrite !app_assoc. f_equal. rewrite <- !app_assoc.
      unfold slice.
      replace (Z.to_nat (b + 8 - b)) with 8%nat by lia.
      replace (Z.to_nat (b + 8 + 20 - (b + 8))) with 20%nat by lia.
      replace (Z.to_nat b) with k by reflexivity.
      replace (Z.to_nat (b + 8)) with (k + 8)%nat by lia.
      rewrite <- (take_drop k hb) at 1. f_equal.
      rewrite <- (take_drop 8 (drop k hb)) at 1. f_equal.
      rewrite drop_drop.
      rewrite <- (take_drop 20 (drop (k + 8) hb)) at 1. f_equal.
      rewrite drop_drop. reflexivity.
    + split; [lia|]. auto.
  - unfold ReadFull in Hrd. destruct (48 + k <=? length r1)%nat; [discriminate|].
    split.
    + destruct r1; injection Hrd as <-; [left|right; left]; reflexivity.
    + split.
      * intros ->. destruct r1; discriminate Hrd.
      * cbn. intros [= ->]. contradiction Hnz. reflexivity.
  - unfold ReadFull in Hrd. destruct (48 + k <=? length r1)%nat; [discriminate|].
    destruct r1; discriminate.
Qed.

Lemma ReadHandshake_outcomes_witness :
  match ReadHandshake [0; 1; 2] with
  | Panicked => False
  | Error msg =>
      (msg = B "EOF" \/ msg = B "unexpected EOF" \/ msg = B "pstrlen cannot be 0")
      /\ (msg = B "pstrlen cannot be 0" <-> [0; 1; 2] !! 0%nat = Some 0)
  | Ok (h, rest) =>
      [0; 1; 2]
      = [Pstrlen h] ++ Pstr h ++ Reserved h ++ HandshakeInfoHash h ++ PeerID h ++ rest
      /\ Pstrlen h = len (Pstr h) /\ 0 < Pstrlen h < 256
      /\ length (Reserved h) = 8%nat
      /\ length (HandshakeInfoHash h) = 20%nat
      /\ length (PeerID h) = 20%nat
  end.
Proof.
  apply (ReadHandshake_outcomes [0; 1; 2]).
  repeat constructor; lia.
Defined.





(** ** Bitfield as a set of piece indices *)

Lemma byte_lor (a c : Z) : 0 <= a < 256 -> 0 <= c < 256 -> 0 <= Z.lor a c < 256.
Proof.
  intros Ha Hc. split; [apply Z.lor_nonneg; lia|].
  destruct (Z.eq_dec (Z.lor a c) 0) as [->|Hnz]; [lia|].
  assert (0 <= Z.lor a c) by (apply Z.lor_nonneg; lia).
  change 256 with (2 ^ 8). apply Z.log2_lt_pow2; [lia|].
  rewrite Z.log2_lor by lia.
  assert (Hlog : forall x, 0 <= x < 256 -> Z.log2 x < 8).
  { intros x Hx. destruct (Z.eq_dec x 0) as [->|]; [cbn; lia|].
    apply Z.log2_lt_pow2; lia. }
  pose proof (Hlog a Ha). pose proof (Hlog c Hc). lia.
Qed.

Lemma SetPiece_length (bf : list Z) (i : Z) : length (SetPiece bf i) = length bf.
Proof.
  unfold SetPiece. destruct (_ || _); [reflexivity|].
  destruct (bf !! _); [apply length_insert|reflexivity].
Qed.

Lemma SetPiece_bytes (bf : list Z) (i : Z) :
  Forall (fun b => 0 <= b < 256) bf -> Forall (fun b => 0 <= b < 256) (SetPiece bf i).
Proof.
  intros Hbytes. unfold SetPiece. destruct (_ || _); [assumption|].
  destruct (bf !! _) as [b|] eqn:Hb; [|assumption].
  apply Forall_insert; [assumption|].
  apply byte_lor.
  - rewrite Forall_forall in Hbytes. apply Hbytes. eapply list_elem_of_lookup_2, Hb.
  - unfold wrapU8. apply Z.mod_pos_bound. lia.
Qed.

Lemma HasPiece_in_range (bf : list Z) (j : Z) :
  0 <= j < 8 * len bf ->
  HasPiece bf j
  = match bf !! Z.to_nat (j / 8) with
    | Some b => Z.testbit b (7 - j mod 8)
    | None => false
    end.
Proof.
  intros Hj. unfold HasPiece.
  rewrite Z.quot_div_nonneg, Z.rem_mod_nonneg by lia.
  assert (Hq : 0 <= j / 8 < len bf) by (unfold len in *; Z.div_mod_to_equations; lia).
  assert (Hm : 0 <= j mod 8 < 8) by (apply Z.mod_pos_bound; lia).
  destruct (Z.ltb_spec (j / 8) 0); [lia|].
  destruct (Z.geb_spec (j / 8) (len bf)); [lia|]. cbn [orb].
  destruct (bf !! Z.to_nat (j / 8)); [|reflexivity].
  rewrite land_shiftr_1 by lia. apply Bool.negb_involutive.
Qed.

Lemma HasPiece_SetPiece_other (bf : list Z) (i j : Z) :
  Forall (fun b => 0 <= b < 256) bf -> i <> j ->
  HasPiece (SetPiece bf i) j = HasPiece bf j.
Proof.
  intros Hbytes Hij.
  destruct (Z_lt_le_dec i 0) as [Hi|Hi];
    [rewrite (proj2 (Bitfield_out_of_range bf i Hbytes (or_introl Hi))); reflexivity|].
  destruct (Z_lt_le_dec i (8 * len bf)) as [Hi'|Hi'];
    [|rewrite (proj2 (Bitfield_out_of_range bf i Hbytes (or_intror Hi'))); reflexivity].
  assert (Hout : j < 0 \/ 8 * len bf <= j -> HasPiece (SetPiece bf i) j = HasPiece bf j).
  { intros Hj.
    rewrite (proj1 (Bitfield_out_of_range bf j Hbytes Hj)).
    apply Bitfield_out_of_range; [apply SetPiece_bytes, Hbytes|].
    unfold len in *. rewrite SetPiece_length. exact Hj. }
  destruct (Z_lt_le_dec j 0) as [Hj|Hj]; [apply Hout; left; exact Hj|].
  destruct (Z_lt_le_dec j (8 * len bf)) as [Hj'|Hj']; [|apply Hout; right; exact Hj'].
  rewrite !HasPiece_in_range
    by (unfold len in *; rewrite ?SetPiece_length; lia).
  destruct (SetPiece_in_range bf i (conj Hi Hi')) as (b & Hb & ->).
  assert (Hmi : 0 <= i mod 8 < 8) by (apply Z.mod_pos_bound; lia).
  assert (Hmj : 0 <= j mod 8 < 8) by (apply Z.mod_pos_bound; lia).
  destruct (Z.eq_dec (i / 8) (j / 8)) as [E|NE].
  - rewrite <- E, Hb.
    rewrite list_lookup_insert_eq by (apply lookup_lt_Some in Hb; exact Hb).
    rewrite Z.lor_spec, Z.pow2_bits_false; [apply Bool.orb_false_r|].
    intros Hm. apply Hij.
    rewrite (Z.div_mod i 8), (Z.div_mod j 8) by lia. rewrite E.
    f_equal. lia.
  - rewrite list_lookup_insert_ne; [reflexivity|].
    assert (0 <= i / 8) by (apply Z.div_pos; lia).
    assert (0 <= j / 8) by (apply Z.div_pos; lia). lia.
Qed.

Lemma HasPiece_after_SetPiece (bf : list Z) (i j : Z) :
  Forall (fun b => 0 <= b < 256) bf ->
  HasPiece (SetPiece bf i) j
  = HasPiece bf j || ((i =? j) && (0 <=? i) && (i <? 8 * len bf)).
Proof.
  intros Hbytes.
  destruct (Z.eqb_spec i j) as [<-|Hij].
  - destruct (Z.leb_spec 0 i); destruct (Z.ltb_spec i (8 * len bf)); cbn [andb];
      try (rewrite (proj2 (Bitfield_out_of_range bf i Hbytes ltac:(lia)));
           rewrite Bool.orb_false_r; reflexivity).
    rewrite HasPiece_SetPiece by lia. symmetry. apply Bool.orb_true_r.
  - cbn [andb]. rewrite Bool.orb_false_r. apply HasPiece_SetPiece_other; assumption.
Qed.

(** X11. [SetPiece] changes the answer of [HasPiece] for the piece it
    sets and for no other: on a bitfield of bytes, [HasPiece j] after
    [SetPiece i] is what it was before, or true when [j = i] and [i] lies
    within the bytes of the bitfield. The length is unchanged, so a
    bit is never cleared and setting twice is the same as setting once. *)
Theorem HasPiece_SetPiece_spec (bf : list Z) (i j : Z) :
  Forall (fun b => 0 <= b < 256) bf ->
  HasPiece (SetPiece bf i) j
  = HasPiece bf j || ((i =? j) && (0 <=? i) && (i <? 8 * len bf))
  /\ len (SetPiece bf i) = len bf
  /\ SetPiece (SetPiece bf i) i = SetPiece bf i.
Proof.
  intros Hbytes. split; [|split].
  - apply HasPiece_after_SetPiece, Hbytes.
  - unfold len. rewrite SetPiece_length. reflexivity.
  - destruct (Z_lt_le_dec i 0) as [Hi|Hi];
      [rewrite !(proj2 (Bitfield_out_of_range bf i Hbytes (or_introl Hi))); reflexivity|].
    destruct (Z_lt_le_dec i (8 * len bf)) as [Hi'|Hi'];
      [|rewrite !(proj2 (Bitfield_out_of_range bf i Hbytes (or_intror Hi'))); reflexivity].
    destruct (SetPiece_in_range bf i (conj Hi Hi')) as (b & Hb & E).
    destruct (SetPiece_in_range (SetPiece bf i) i) as (b' & Hb' & E').
    { unfold len in *. rewrite SetPiece_length. lia. }
    rewrite E'. rewrite E in Hb' |- *.
    rewrite list_lookup_insert_eq in Hb' by (apply lookup_lt_Some in Hb; exact Hb).
    injection Hb' as <-. rewrite list_insert_insert_eq.
    f_equal. rewrite <- Z.lor_assoc, Z.lor_diag. reflexivity.
Qed.

Lemma HasPiece_SetPiece_spec_witness :
  HasPiece (SetPiece [128; 0] 9) 0
  = HasPiece [128; 0] 0 || ((9 =? 0) && (0 <=? 9) && (9 <? 8 * len [128; 0]))
  /\ len (SetPiece [128; 0] 9) = len [128; 0]
  /\ SetPiece (SetPiece [128; 0] 9) 9 = SetPiece [128; 0] 9.
Proof.
  apply (HasPiece_SetPiece_spec [128; 0] 9 0).
  repeat constructor; lia.
Defined.

(** X12. A bitfield that starts as [n] zero bytes and has [SetPiece]
    applied for a list of indices answers [HasPiece j] with true exactly
    for the indices of the list that lie in [0, 8n). *)
Theorem Bitfield_is_set (n : nat) (l : list Z) (j : Z) :
  HasPiece (fold_left SetPiece l (replicate n 0)) j = true
  <-> j ∈ l /\ 0 <= j < 8 * Z.of_nat n.
Proof.
  assert (Hgen : forall bf,
            Forall (fun b => 0 <= b < 256) bf ->
            HasPiece (fold_left SetPiece l bf) j = true
            <-> HasPiece bf j = true \/ (j ∈ l /\ 0 <= j < 8 * len bf)).
  { induction l as [|i l IH]; intros bf Hbytes; cbn [fold_left].
    - split; [auto|]. intros [H|[H _]]; [exact H|]. apply elem_of_nil in H. contradiction.
    - rewrite IH by (apply SetPiece_bytes, Hbytes).
      rewrite HasPiece_after_SetPiece by exact Hbytes.
      unfold len. rewrite SetPiece_length. fold (len bf).
      rewrite Bool.orb_true_iff, !Bool.andb_true_iff, elem_of_cons.
      rewrite Z.eqb_eq, Z.leb_le, Z.ltb_lt. split.
      + intros [[H|[[-> H1] H2]]|[H1 H2]]; auto.
      + intros [H|[[->|H1] H2]]; auto.
        left. right. repeat split; lia. }
  rewrite Hgen by (apply Forall_replicate; lia).
  unfold len. rewrite length_replicate.
  split; [|auto]. intros [H|H]; [|exact H]. exfalso.
  assert (Hz : forall k, HasPiece (replicate n 0) k = false).
  { intros k. unfold HasPiece. destruct (_ || _); [reflexivity|].
    destruct (replicate n 0 !! _) as [b|] eqn:Hb; [|reflexivity].
    apply lookup_replicate in Hb as [-> _]. rewrite Z.shiftr_0_l. reflexivity. }
  rewrite Hz in H. discriminate.
Qed.


(** ** Decode: how far it reads *)

Lemma index_from_Some (c : Z) (content : list Z) : forall (i j : nat),
  index_from c content i = Some j -> (i <= j < length content)%nat /\ content !! j = Some c.
Proof.
  induction content as [|x content IH]; intros i j H; [discriminate|].
  cbn [index_from] in H. destruct i as [|i].
  - destruct (Z.eqb_spec x c) as [->|_].
    + injection H as <-. cbn. split; [lia|reflexivity].
    + destruct (index_from c content 0) as [j'|] eqn:E; [|discriminate].
      injection H as <-. apply IH in E as [E1 E2]. cbn [length]. split; [lia|exact E2].
  - destruct (index_from c content i) as [j'|] eqn:E; [|discriminate].
    injection H as <-. apply IH in E as [E1 E2]. cbn [length]. split; [lia|exact E2].
Qed.

Lemma decode_integer_bounded (content : list Z) (d : Data) (c : nat) (e : option string) :
  decode_integer content = Ret d c e -> (c <= length content)%nat.
Proof.
  unfold decode_integer. destruct (index_from 101 content 1) as [i|] eqn:Hi.
  - apply index_from_Some in Hi as [Hi _].
    destruct (ParseInt _); intros [= _ <- _]; lia.
  - intros [= _ <- _]. lia.
Qed.

Lemma decode_string_bounded (content : list Z) (d : Data) (c : nat) (e : option string) :
  decode_string content = Ret d c e -> (c <= length content)%nat.
Proof.
  unfold decode_string. destruct (index_from 58 content 0) as [i|] eqn:Hi.
  - apply index_from_Some in Hi as [Hi _].
    destruct (Atoi _) as [strLen|]; [|intros [= _ <- _]; lia].
    unfold slice_checked.
    destruct (_ && _) eqn:Hb; [|discriminate].
    apply andb_prop in Hb as [Hb H3]. apply andb_prop in Hb as [H1 H2].
    intros [= _ <- _]. unfold len in *. lia.
  - intros [= _ <- _]. lia.
Qed.

Lemma list_loop_bounded (dec : list Z -> Outcome) (content : list Z) :
  (forall j d c e, (j <= length content)%nat ->
     dec (drop j content) = Ret d c e -> (c <= length content - j)%nat) ->
  forall (n i : nat) (lst : list Data) d c e,
    list_loop dec n content i lst = Ret d c e -> (c <= length content)%nat.
Proof.
  intros Hdec. induction n as [|n IH]; intros i lst d c e H; [discriminate|].
  cbn [list_loop] in H. destruct (content !! i) as [x|] eqn:Hx.
  - apply lookup_lt_Some in Hx.
    destruct (x =? 101); [injection H as _ <- _; lia|].
    destruct (dec (drop i content)) as [elem count [err|]| |] eqn:Hd; try discriminate.
    + injection H as _ <- _. apply Hdec in Hd; lia.
    + eapply IH, H.
  - injection H as _ <- _. lia.
Qed.

Lemma dict_loop_bounded (dec : list Z -> Outcome) (content : list Z) :
  (forall j d c e, (j <= length content)%nat ->
     dec (drop j content) = Ret d c e -> (c <= length content - j)%nat) ->
  forall (n i : nat) (dict : list (list Z * Data)) d c e,
    dict_loop dec n content i dict = Ret d c e -> (c <= length content)%nat.
Proof.
  intros Hdec. induction n as [|n IH]; intros i dict d c e H; [discriminate|].
  cbn [dict_loop] in H. destruct (content !! i) as [x|] eqn:Hx.
  - apply lookup_lt_Some in Hx.
    destruct (x =? 101); [injection H as _ <- _; lia|].
    destruct (dec (drop i content)) as [key count [err|]| |] eqn:Hd; try discriminate.
    + apply Hdec in Hd; [|lia]. destruct key; injection H as _ <- _; lia.
    + apply Hdec in Hd; [|lia].
      destruct key as [| |k|?|?|?]; try (injection H as _ <- _; lia); try discriminate.
      destruct (length content <? i + count)%nat; [discriminate|].
      destruct (dec (drop (i + count) content)) as [val count2 [err|]| |] eqn:Hd2;
        try discriminate.
      * injection H as _ <- _. apply Hdec in Hd2; lia.
      * eapply IH, H.
  - injection H as _ <- _. lia.
Qed.

Lemma DecodeF_bounded (fuel : nat) : forall (content : list Z) d c e,
  DecodeF fuel content = Ret d c e -> (c <= length content)%nat.
Proof.
  induction fuel as [|fuel IH]; intros content d c e H; [discriminate|].
  destruct content as [|firstByte content]; [injection H as _ <- _; lia|].
  assert (Hdec : forall j d c e, (j <= length (firstByte :: content))%nat ->
            DecodeF fuel (drop j (firstByte :: content)) = Ret d c e ->
            (c <= length (firstByte :: content) - j)%nat).
  { intros j d' c' e' Hj Hd. apply IH in Hd. rewrite length_drop in Hd. exact Hd. }
  cbn [DecodeF] in H.
  destruct (firstByte =? 105); [eapply decode_integer_bounded, H|].
  destruct (firstByte =? 108); [eapply list_loop_bounded, H; exact Hdec|].
  destruct (firstByte =? 100); [eapply dict_loop_bounded, H; exact Hdec|].
  eapply decode_string_bounded, H.
Qed.



(** ** Decode: what it accepts beyond the canonical form *)



Lemma dict_loop_any_entries (dec : list Z -> Outcome) (m : list (list Z * Data)) :
  forall (n : nat) (pre : list Z) (acc : list (list Z * Data)) (rest : list Z),
  (forall k, len k < 2^63 -> decodes dec (DString k)) ->
  Forall (fun kv => len (fst kv) < 2^63 /\ decodes dec (snd kv)) m ->
  (length m < n)%nat ->
  dict_loop dec n (pre ++ concat (map entry m) ++ 101 :: rest) (length pre) acc
  = Ret (DDict (dict_of_entries m acc)) (length pre + length (concat (map entry m)) + 1) None.
Proof.
  induction m as [|[k v] m IH]; intros n pre acc rest Hkey Hm Hn;
    (destruct n as [|n]; [cbn in Hn; lia|]).
  - cbn [map concat app dict_loop length]. rewrite lookup_length_app.
    change (101 =? 101) with true. cbv iota.
    rewrite Nat.add_0_r. reflexivity.
  - apply Forall_cons_1 in Hm as [[Hk Hv] Hm]. cbn [fst snd] in Hk, Hv.
    destruct (encode_string_starts k Hk) as (c & tl & Hb & Hc & _).
    assert (Hcontent : pre ++ concat (map entry ((k, v) :: m)) ++ 101 :: rest
              = pre ++ encode_string k ++ bencoding v ++ concat (map entry m) ++ 101 :: rest).
    { cbn [map concat]. unfold entry at 1. cbn [fst snd].
      rewrite <- !app_assoc. reflexivity. }
    assert (Hlen : length (concat (map entry ((k, v) :: m)))
              = (length (encode_string k) + length (bencoding v)
                 + length (concat (map entry m)))%nat).
    { cbn [map concat]. unfold entry at 1. cbn [fst snd]. rewrite !length_app. lia. }
    rewrite Hcontent, Hlen. clear Hcontent Hlen.
    cbn [dict_loop].
    rewrite (lookup_first_of_app pre _ _ c tl Hb).
    destruct (Z.eqb_spec c 101); [contradiction|].
    rewrite drop_app_length.
    pose proof (Hkey k Hk) as Hdk. unfold decodes in Hdk. cbn [bencoding] in Hdk.
    fold (encode_string k) in Hdk. rewrite Hdk.
    assert (Hlt : Nat.ltb (length (pre ++ encode_string k ++ bencoding v ++ concat (map entry m) ++ 101 :: rest))
                          (length pre + length (encode_string k)) = false).
    { apply Nat.ltb_ge. rewrite !length_app. lia. }
    rewrite Hlt.
    replace (pre ++ encode_string k ++ bencoding v ++ concat (map entry m) ++ 101 :: rest)
      with ((pre ++ encode_string k) ++ bencoding v ++ concat (map entry m) ++ 101 :: rest)
      by (rewrite <- app_assoc; reflexivity).
    rewrite <- length_app, drop_app_length, (Hv _).
    replace ((pre ++ encode_string k) ++ bencoding v ++ concat (map entry m) ++ 101 :: rest)
      with ((pre ++ encode_string k ++ bencoding v) ++ concat (map entry m) ++ 101 :: rest)
      by (rewrite <- !app_assoc; reflexivity).
    replace (length (pre ++ encode_string k) + length (bencoding v))%nat
      with (length (pre ++ encode_string k ++ bencoding v))
      by (rewrite !length_app; lia).
    rewrite IH; [|exact Hkey|exact Hm|cbn in Hn; lia].
    cbn [dict_of_entries fold_left fst snd]. unfold dict_of_entries.
    rewrite !length_app. f_equal. lia.
Qed.

Lemma dict_get_app {V} (k : list Z) (m1 m2 : list (list Z * V)) :
  dict_get k (m1 ++ m2)
  = match dict_get k m1 with Some v => Some v | None => dict_get k m2 end.
Proof.
  induction m1 as [|[k' v'] m1 IH]; [reflexivity|].
  cbn [app dict_get]. destruct (key_eqb k k'); [reflexivity|exact IH].
Qed.

Lemma dict_get_of_entries (k : list Z) (m : list (list Z * Data)) : forall acc,
  dict_get k (dict_of_entries m acc)
  = match dict_get k (rev m) with Some v => Some v | None => dict_get k acc end.
Proof.
  unfold dict_of_entries.
  induction m as [|[k' v'] m IH]; intros acc; [reflexivity|].
  cbn [fold_left rev fst snd]. rewrite IH, dict_get_app.
  destruct (dict_get k (rev m)); [reflexivity|].
  cbn [dict_get]. unfold key_eqb.
  destruct (bool_decide_reflect (k = k')) as [->|Hne].
  - apply dict_get_set_eq.
  - apply dict_get_set_ne. congruence.
Qed.

Lemma dict_set_keys {V} (k : list Z) (v : V) (m : list (list Z * V)) :
  dict_keys (dict_set k v m)
  = if bool_decide (k ∈ dict_keys m) then dict_keys m else dict_keys m ++ [k].
Proof.
  unfold dict_keys. induction m as [|[k' v'] m IH]; cbn [dict_set map fst].
  - rewrite bool_decide_eq_false_2 by apply not_elem_of_nil. reflexivity.
  - unfold key_eqb. destruct (bool_decide_reflect (k = k')) as [<-|Hne].
    + rewrite bool_decide_eq_true_2 by (apply elem_of_cons; auto). reflexivity.
    + cbn [map fst]. rewrite IH.
      destruct (bool_decide_reflect (k ∈ map fst m)) as [Hin|Hnin].
      * rewrite bool_decide_eq_true_2 by (apply elem_of_cons; auto). reflexivity.
      * rewrite bool_decide_eq_false_2; [reflexivity|].
        rewrite elem_of_cons. tauto.
Qed.

Lemma dict_of_entries_NoDup (m : list (list Z * Data)) : forall acc,
  NoDup (dict_keys acc) -> NoDup (dict_keys (dict_of_entries m acc)).
Proof.
  unfold dict_of_entries.
  induction m as [|[k v] m IH]; intros acc Hnd; [exact Hnd|].
  cbn [fold_left fst snd]. apply IH. rewrite dict_set_keys.
  destruct (bool_decide_reflect (k ∈ dict_keys acc)) as [Hin|Hnin]; [exact Hnd|].
  apply NoDup_app. split; [exact Hnd|]. split.
  - intros x Hx Hx'. apply list_elem_of_singleton in Hx'. subst. contradiction.
  - apply NoDup_singleton.
Qed.

Lemma entry_length_in (m : list (list Z * Data)) (kv : list Z * Data) :
  kv ∈ m -> (length (bencoding (snd kv)) <= length (concat (map entry m)))%nat.
Proof.
  induction m as [|kv' m IH]; intros Hin; [apply elem_of_nil in Hin; contradiction|].
  cbn [map concat]. rewrite length_app.
  apply elem_of_cons in Hin as [->|Hin].
  - unfold entry. rewrite length_app. lia.
  - specialize (IH Hin). lia.
Qed.

(** X15. [Decode] accepts a dictionary whose keys are in any order and
    may repeat: for entries with canonical values it returns, without
    error, the map in which every key has the value of its last occurrence,
    and it consumes the whole dictionary. *)
Theorem Decode_dict_last_wins (m : list (list Z * Data)) (rest : list Z) :
  Forall (fun kv => len (fst kv) < 2^63 /\ canonicalb (snd kv) = true) m ->
  exists dict,
    Decode ([100] ++ concat (map entry m) ++ [101] ++ rest)
    = Ret (DDict dict) (length (concat (map entry m)) + 2) None
    /\ NoDup (dict_keys dict)
    /\ forall k, dict_get k dict = dict_get k (rev m).
Proof.
  intros Hm. exists (dict_of_entries m []). split; [|split].
  - unfold Decode.
    set (content := [100] ++ concat (map entry m) ++ [101] ++ rest).
    assert (Hlen : (length (concat (map entry m)) + 2 <= length content)%nat).
    { unfold content. rewrite !length_app. cbn [length]. lia. }
    assert (Hcount : (length m <= length (concat (map entry m)))%nat).
    { apply concat_length_items. eapply Forall_impl; [exact Hm|]. cbn.
      intros kv [Hk _]. apply entry_nonend, Hk. }
    cbn [DecodeF]. unfold content at 1. cbn [app].
    change (100 =? 105) with false. change (100 =? 108) with false.
    change (100 =? 100) with true. cbv iota.
    change 1%nat with (length [100]) at 1.
    unfold content at 3. change ([101] ++ rest) with (101 :: rest).
    rewrite dict_loop_any_entries.
    + cbn [length]. f_equal. lia.
    + intros k Hk rest'. destruct (length content) as [|fuel] eqn:E; [lia|].
      apply DecodeF_string, Hk.
    + rewrite Forall_forall in Hm |- *. intros [k v] Hin.
      destruct (Hm _ Hin) as [Hk Hv]. split; [exact Hk|].
      intros rest'. apply DecodeF_bencoding; [exact Hv|]. cbn [snd] in *.
      pose proof (depth_le_length v Hv) as Hd.
      pose proof (entry_length_in m (k, v) Hin) as Hl. cbn [snd] in Hl. lia.
    + lia.
  - apply dict_of_entries_NoDup. apply NoDup_nil_2.
  - intros k. rewrite dict_get_of_entries. destruct (dict_get k (rev m)); reflexivity.
Qed.

Lemma Decode_dict_last_wins_witness :
  exists dict,
    Decode ([100] ++ concat (map entry [(B "b", DInteger 1); (B "a", DInteger 2);
                                        (B "b", DInteger 3)]) ++ [101] ++ [])
    = Ret (DDict dict)
          (length (concat (map entry [(B "b", DInteger 1); (B "a", DInteger 2);
                                      (B "b", DInteger 3)])) + 2) None
    /\ NoDup (dict_keys dict)
    /\ forall k, dict_get k dict
                 = dict_get k (rev [(B "b", DInteger 1); (B "a", DInteger 2);
                                    (B "b", DInteger 3)]).
Proof.
  apply (Decode_dict_last_wins
           [(B "b", DInteger 1); (B "a", DInteger 2); (B "b", DInteger 3)] []).
  repeat constructor; vm_compute; reflexivity.
Defined.


(** ** Encode: the order of a map, and nil values *)

Lemma lex_leb_trans (a b c : list Z) :
  lex_leb a b = true -> lex_leb b c = true -> lex_leb a c = true.
Proof.
  revert b c. induction a as [|x a IH]; intros [|y b] [|z c]; cbn;
    try reflexivity; try discriminate.
  destruct (Z.ltb_spec x y), (Z.ltb_spec y x), (Z.ltb_spec y z), (Z.ltb_spec z y),
           (Z.ltb_spec x z), (Z.ltb_spec z x);
    try reflexivity; try discriminate; try lia.
  apply IH.
Qed.

Lemma lex_leb_antisym (a b : list Z) :
  lex_leb a b = true -> lex_leb b a = true -> a = b.
Proof.
  revert b. induction a as [|x a IH]; intros [|y b]; cbn;
    try reflexivity; try discriminate.
  destruct (Z.ltb_spec x y), (Z.ltb_spec y x); try discriminate; try lia.
  intros H1 H2. f_equal; [lia|]. apply IH; assumption.
Qed.

Lemma sorted_keys_unique (l1 : list (list Z)) : forall l2,
  Sorted lex_le l1 -> Sorted lex_le l2 -> Permutation l1 l2 -> l1 = l2.
Proof.
  assert (Htr : Relations_1.Transitive lex_le).
  { intros a b c. apply lex_leb_trans. }
  induction l1 as [|a l1 IH]; intros l2 H1 H2 Hp.
  - apply Permutation_nil in Hp. congruence.
  - destruct l2 as [|b l2]; [symmetry in Hp; apply Permutation_nil in Hp; discriminate|].
    apply Sorted_StronglySorted in H1 as S1; [|exact Htr].
    apply Sorted_StronglySorted in H2 as S2; [|exact Htr].
    apply StronglySorted_inv in S1 as [S1 F1].
    apply StronglySorted_inv in S2 as [S2 F2].
    assert (Hab : a = b).
    { assert (Ha : In a (b :: l2)) by (eapply Permutation_in; [exact Hp|left; reflexivity]).
      assert (Hb : In b (a :: l1))
        by (eapply Permutation_in; [symmetry; exact Hp|left; reflexivity]).
      destruct Ha as [Ha|Ha]; [congruence|]. destruct Hb as [Hb|Hb]; [congruence|].
      rewrite List.Forall_forall in F1, F2.
      apply lex_leb_antisym; [apply F1, Hb | apply F2, Ha]. }
    subst b. f_equal. apply IH.
    + apply Sorted_inv in H1. tauto.
    + apply Sorted_inv in H2. tauto.
    + eapply Permutation_cons_inv, Hp.
Qed.

Lemma dict_get_elem {V} (k : list Z) (v : V) (m : list (list Z * V)) :
  NoDup (map fst m) -> (k, v) ∈ m -> dict_get k m = Some v.
Proof.
  induction m as [|[k' v'] m IH]; intros Hnd Hin; [apply elem_of_nil in Hin; contradiction|].
  cbn [map fst] in Hnd. apply NoDup_cons in Hnd as [Hk' Hnd].
  cbn [dict_get]. unfold key_eqb.
  apply elem_of_cons in Hin as [[= -> ->]|Hin].
  - rewrite bool_decide_eq_true_2 by reflexivity. reflexivity.
  - rewrite bool_decide_eq_false_2; [apply IH; assumption|].
    intros ->. apply Hk'. change k' with (fst (k', v)). apply elem_of_map. exact Hin.
Qed.

Lemma dict_get_None {V} (k : list Z) (m : list (list Z * V)) :
  dict_get k m = None <-> k ∉ map fst m.
Proof.
  induction m as [|[k' v'] m IH]; cbn [dict_get map fst].
  - split; [intros _; apply not_elem_of_nil|reflexivity].
  - unfold key_eqb. rewrite not_elem_of_cons.
    destruct (bool_decide_reflect (k = k')) as [->|Hne].
    + split; [discriminate|]. intros [H _]. contradiction.
    + rewrite IH. tauto.
Qed.


Lemma dict_get_perm {V} (k : list Z) (m m' : list (list Z * V)) :
  Permutation m m' -> NoDup (map fst m) -> dict_get k m = dict_get k m'.
Proof.
  intros Hp Hnd.
  assert (Hnd' : NoDup (map fst m')).
  { assert (Hpk : Permutation (map fst m) (map fst m')) by (apply Permutation_map, Hp).
    rewrite <- Hpk. exact Hnd. }
  destruct (dict_get k m) as [v|] eqn:E.
  - symmetry. apply dict_get_elem; [exact Hnd'|].
    apply dict_get_split in E as (m1 & m2 & -> & _).
    apply list_elem_of_In. eapply Permutation_in; [exact Hp|].
    apply in_or_app. right. left. reflexivity.
  - symmetry. apply dict_get_None. apply dict_get_None in E.
    intros Hin. apply E. apply list_elem_of_In.
    eapply Permutation_in; [symmetry; apply Permutation_map, Hp|].
    apply list_elem_of_In, Hin.
Qed.

Lemma append_entries_ext (keys : list (list Z)) (vals vals' : list (list Z * option (list Z))) :
  (forall k, dict_get k vals = dict_get k vals') ->
  forall encoded, append_entries keys vals encoded = append_entries keys vals' encoded.
Proof.
  intros Hget. induction keys as [|key keys IH]; intros encoded; [reflexivity|].
  cbn [append_entries]. rewrite Hget.
  destruct (dict_get key vals') as [[e|]|]; [apply IH|reflexivity..].
Qed.

(** X16. The bytes [Encode] writes for a dictionary do not depend on the
    order in which the map hands out its entries: two listings of the same
    map (one a permutation of the other, no key twice) encode to the same
    bytes, or both panic. *)
Theorem Encode_dict_order_irrelevant (m m' : list (list Z * Data)) :
  Permutation m m' -> NoDup (dict_keys m) ->
  Encode (DDict m) = Encode (DDict m').
Proof.
  intros Hp Hnd. cbn [Encode].
  assert (Hkeys : slices_Sort (dict_keys m) = slices_Sort (dict_keys m')).
  { apply sorted_keys_unique; try apply slices_Sort_sorted.
    rewrite !slices_Sort_perm. apply Permutation_map, Hp. }
  rewrite Hkeys.
  rewrite (append_entries_ext _ _ (map (fun kv => (fst kv, Encode (snd kv))) m')).
  - reflexivity.
  - intros k. apply dict_get_perm.
    + apply Permutation_map, Hp.
    + rewrite map_map. cbn [fst]. exact Hnd.
Qed.

Lemma Encode_dict_order_irrelevant_witness :
  Encode (DDict [(B "spam", DString (B "eggs")); (B "cow", DString (B "moo"))])
  = Encode (DDict [(B "cow", DString (B "moo")); (B "spam", DString (B "eggs"))]).
Proof.
  apply (Encode_dict_order_irrelevant
           [(B "spam", DString (B "eggs")); (B "cow", DString (B "moo"))]
           [(B "cow", DString (B "moo")); (B "spam", DString (B "eggs"))]).
  - apply perm_swap.
  - apply NoDup_cons. split.
    + intros H. apply list_elem_of_singleton in H. vm_compute in H. discriminate.
    + apply NoDup_singleton.
Defined.

Lemma append_all_None (encs : list (option (list Z))) : forall encoded,
  append_all encs encoded = None <-> None ∈ encs.
Proof.
  induction encs as [|[e|] encs IH]; intros encoded; cbn [append_all].
  - split; [discriminate|]. intros H. apply elem_of_nil in H. contradiction.
  - rewrite IH, elem_of_cons. split; [auto|]. intros [H|H]; [discriminate|exact H].
  - split; [intros _; left|reflexivity].
Qed.

Lemma append_entries_None (keys : list (list Z)) (vals : list (list Z * option (list Z))) :
  forall encoded,
  append_entries keys vals encoded = None
  <-> exists key, key ∈ keys /\ forall e, dict_get key vals <> Some (Some e).
Proof.
  induction keys as [|key keys IH]; intros encoded; cbn [append_entries].
  - split; [discriminate|]. intros (k & H & _). apply elem_of_nil in H. contradiction.
  - destruct (dict_get key vals) as [[e|]|] eqn:E.
    + rewrite IH. split.
      * intros (k & Hk & Hn). exists k. split; [right; exact Hk|exact Hn].
      * intros (k & Hk & Hn). apply elem_of_cons in Hk as [->|Hk].
        -- exfalso. apply (Hn e). exact E.
        -- exists k. split; assumption.
    + split; [|reflexivity]. intros _. exists key. split; [left|]. rewrite E. discriminate.
    + split; [|reflexivity]. intros _. exists key. split; [left|]. rewrite E. discriminate.
Qed.

(** X17. [Encode] panics exactly when a nil pointer occurs somewhere in
    the value (at the top, as an element of a list or as a value of a
    dictionary, at any depth); on every other value it returns. *)
Theorem Encode_panics_iff_nil (v : Data) :
  unique_keys v = true -> (Encode v = None <-> has_nil v = true).
Proof.
  induction v as [| |s|n|l IH|m IH] using Data_nested_ind;
    cbn [unique_keys has_nil Encode]; intros Hu;
    try (split; [reflexivity|reflexivity]); try (split; discriminate).
  - rewrite forallb_forall in Hu.
    assert (Hiff : append_all (map Encode l) [108] = None <-> existsb has_nil l = true).
    { rewrite append_all_None, existsb_exists. rewrite Forall_forall in IH. split.
      - intros Hin. apply list_elem_of_In, in_map_iff in Hin as (x & Hx & Hin).
        exists x. split; [exact Hin|].
        apply IH; [apply list_elem_of_In, Hin | apply Hu, Hin | exact Hx].
      - intros (x & Hin & Hx). apply list_elem_of_In, in_map_iff.
        exists x. split; [|exact Hin].
        apply IH; [apply list_elem_of_In, Hin | apply Hu, Hin | exact Hx]. }
    destruct (append_all (map Encode l) [108]) as [enc|].
    + split; [discriminate|]. intros H. apply Hiff in H. discriminate.
    + split; [intros _; apply Hiff; reflexivity|reflexivity].
  - apply andb_prop in Hu as [Hnd Hu]. apply bool_decide_eq_true_1 in Hnd.
    rewrite forallb_forall in Hu.
    set (vals := map (fun kv => (fst kv, Encode (snd kv))) m).
    assert (Hvals : forall kv, kv ∈ m -> dict_get (fst kv) vals = Some (Encode (snd kv))).
    { intros [k x] Hin. apply dict_get_elem.
      - unfold vals. rewrite map_map. exact Hnd.
      - unfold vals. apply (elem_of_map (fun kv => (fst kv, Encode (snd kv))) m (k, x) Hin). }
    assert (Hiff : append_entries (slices_Sort (dict_keys m)) vals [100] = None
                   <-> existsb (fun kv => has_nil (snd kv)) m = true).
    { rewrite append_entries_None, existsb_exists. rewrite Forall_forall in IH. split.
      - intros (key & Hkey & Hn).
        assert (Hin : In key (dict_keys m)).
        { eapply Permutation_in; [apply slices_Sort_perm|]. apply list_elem_of_In, Hkey. }
        apply in_map_iff in Hin as (kv & <- & Hin).
        exists kv. split; [exact Hin|].
        apply list_elem_of_In in Hin as Hin'.
        apply IH; [exact Hin' | apply Hu, Hin |].
        specialize (Hvals kv Hin'). destruct (Encode (snd kv)) as [e|]; [|reflexivity].
        exfalso. apply (Hn e). exact Hvals.
      - intros (kv & Hin & Hx). exists (fst kv).
        apply list_elem_of_In in Hin as Hin'. split.
        + apply list_elem_of_In. eapply Permutation_in; [symmetry; apply slices_Sort_perm|].
          apply in_map, Hin.
        + intros e. rewrite (Hvals kv Hin').
          apply IH in Hx; [|exact Hin'|apply Hu, Hin]. rewrite Hx. discriminate. }
    fold vals. destruct (append_entries (slices_Sort (dict_keys m)) vals [100]) as [enc|].
    + split; [discriminate|]. intros H. apply Hiff in H. discriminate.
    + split; [intros _; apply Hiff; reflexivity|reflexivity].
Qed.

Lemma Encode_panics_iff_nil_witness :
  Encode (DList [DInteger 1; DDict [(B "k", DNil)]]) = None
  <-> has_nil (DList [DInteger 1; DDict [(B "k", DNil)]]) = true.
Proof.
  apply (Encode_panics_iff_nil (DList [DInteger 1; DDict [(B "k", DNil)]])).
  vm_compute. reflexivity.
Defined.


(** ** Decode: nil values and panics *)

Lemma DecodeF_integer (fuel : nat) (t rest : list Z) :
  Forall (fun x => x <> 101) t ->
  DecodeF (S fuel) (105 :: t ++ 101 :: rest)
  = match ParseInt t with
    | None => Ret DNil (length t + 2) None
    | Some fVal => Ret (DInteger fVal) (length t + 2) None
    end.
Proof.
  intros Ht. cbn [DecodeF]. change (105 =? 105) with true. cbv iota.
  apply decode_integer_terminated, Ht.
Qed.

Lemma DecodeF_list (fuel : nat) (content : list Z) :
  DecodeF (S fuel) (108 :: content)
  = list_loop (DecodeF fuel) (S (length content)) (108 :: content) 1 [].
Proof. reflexivity. Qed.

Lemma DecodeF_dict (fuel : nat) (content : list Z) :
  DecodeF (S fuel) (100 :: content)
  = dict_loop (DecodeF fuel) (S (length content)) (100 :: content) 1 [].
Proof. reflexivity. Qed.

Lemma list_loop_step (dec : list Z -> Outcome) (n : nat) (content : list Z) (i : nat)
    (lst : list Data) (c : Z) :
  content !! i = Some c ->
  list_loop dec (S n) content i lst
  = if c =? 101 then Ret (DList lst) (i + 1) None
    else match dec (drop i content) with
         | Ret elem count (Some err) => Ret (DList lst) count (Some err)
         | Ret elem count None => list_loop dec n content (i + count) (lst ++ [elem])
         | Panic => Panic
         | OutOfFuel => OutOfFuel
         end.
Proof. intros H. cbn [list_loop]. rewrite H. reflexivity. Qed.

(** X18. Text between ['i'] and the first ['e'] that [strconv.ParseInt]
    rejects decodes to a nil value with a nil error. As an element of a
    list the nil is appended and the list is returned without error, and
    [Encode] of that list panics; as a key of a dictionary it makes
    [Decode] itself panic, at [key.Type]. *)
Theorem Decode_malformed_integer (t rest : list Z) :
  ParseInt t = None -> Forall (fun x => x <> 101) t ->
  Decode (105 :: t ++ 101 :: rest) = Ret DNil (length t + 2) None
  /\ Decode (108 :: 105 :: t ++ 101 :: 101 :: rest) = Ret (DList [DNil]) (length t + 4) None
  /\ Encode (DList [DNil]) = None
  /\ Decode (100 :: 105 :: t ++ 101 :: rest) = Panic.
Proof.
  intros Hp Ht. split; [|split; [|split; [reflexivity|]]].
  - unfold Decode. rewrite DecodeF_integer by exact Ht. rewrite Hp. reflexivity.
  - unfold Decode.
    change (length (108 :: 105 :: t ++ 101 :: 101 :: rest))
      with (S (length (105 :: t ++ 101 :: 101 :: rest))).
    rewrite DecodeF_list.
    set (fuel := length (105 :: t ++ 101 :: 101 :: rest)) at 1.
    set (content := 108 :: 105 :: t ++ 101 :: 101 :: rest).
    assert (Hl : length (105 :: t ++ 101 :: 101 :: rest) = S (S (S (length t + length rest)))).
    { cbn [length]. rewrite length_app. cbn [length]. lia. }
    rewrite Hl.
    rewrite (list_loop_step _ _ content 1 [] 105) by reflexivity.
    change (105 =? 101) with false. cbv iota.
    change (drop 1 content) with (105 :: t ++ 101 :: 101 :: rest).
    rewrite DecodeF_integer by exact Ht. rewrite Hp.
    rewrite (list_loop_step _ _ content (1 + (length t + 2)) _ 101).
    + change (101 =? 101) with true. cbv iota. cbn [app]. f_equal. lia.
    + unfold content.
      replace (108 :: 105 :: t ++ 101 :: 101 :: rest)
        with ((108 :: 105 :: t ++ [101]) ++ 101 :: rest)
        by (cbn [app]; rewrite <- app_assoc; reflexivity).
      replace (1 + (length t + 2))%nat with (length (108 :: 105 :: t ++ [101]))
        by (cbn [length]; rewrite length_app; cbn [length]; lia).
      apply lookup_length_app.
  - unfold Decode.
    change (length (100 :: 105 :: t ++ 101 :: rest))
      with (S (length (105 :: t ++ 101 :: rest))).
    rewrite DecodeF_dict.
    set (fuel := length (105 :: t ++ 101 :: rest)) at 1.
    assert (Hl : length (105 :: t ++ 101 :: rest) = S (S (length t + length rest))).
    { cbn [length]. rewrite length_app. cbn [length]. lia. }
    rewrite Hl. cbn [dict_loop lookup list_lookup drop].
    change (105 =? 101) with false. cbv iota.
    rewrite DecodeF_integer by exact Ht. rewrite Hp. reflexivity.
Qed.

Lemma Decode_malformed_integer_witness :
  Decode (105 :: B "4x2" ++ 101 :: B "tail") = Ret DNil (length (B "4x2") + 2) None
  /\ Decode (108 :: 105 :: B "4x2" ++ 101 :: 101 :: B "tail")
     = Ret (DList [DNil]) (length (B "4x2") + 4) None
  /\ Encode (DList [DNil]) = None
  /\ Decode (100 :: 105 :: B "4x2" ++ 101 :: B "tail") = Panic.
Proof.
  apply (Decode_malformed_integer (B "4x2") (B "tail")).
  - vm_compute. reflexivity.
  - repeat constructor; vm_compute; discriminate.
Defined.

(** X19. A string whose length prefix is negative makes [Decode] panic:
    the prefix is accepted by [strconv.Atoi], and the slice expression
    [content[i+1 : i+1+strLen]] then has its upper bound below its lower
    one. No error is returned. *)
Theorem Decode_negative_length_panics (t rest : list Z) (n : Z) :
  Atoi t = Some n -> n < 0 -> Decode (t ++ 58 :: rest) = Panic.
Proof.
  intros Hn Hneg.
  assert (Hchars : Forall (fun x => x = 43 \/ x = 45 \/ 48 <= x <= 57) t).
  { unfold Atoi, ParseInt in Hn. destruct t as [|c ds]; [discriminate|].
    assert (Hds : forall l v, parse_digits l 0 = Some v ->
                    Forall (fun x => x = 43 \/ x = 45 \/ 48 <= x <= 57) l).
    { intros l v Hl. apply parse_digits_Some_digits in Hl.
      rewrite forallb_forall in Hl. rewrite Forall_forall. intros x Hx.
      apply list_elem_of_In in Hx. specialize (Hl x Hx). unfold is_digit in Hl. lia. }
    destruct ((c =? 43) || (c =? 45)) eqn:Hsign.
    - constructor.
      + apply Bool.orb_true_iff in Hsign as [E|E]; apply Z.eqb_eq in E; lia.
      + destruct ds as [|d ds]; [discriminate|].
        destruct (parse_digits (d :: ds) 0) as [un|] eqn:E; [|discriminate].
        eapply Hds, E.
    - destruct (parse_digits (c :: ds) 0) as [un|] eqn:E; [|discriminate].
      eapply Hds, E. }
  destruct t as [|c ds]; [discriminate|].
  apply Forall_cons_1 in Hchars as Hc. destruct Hc as [Hc _].
  unfold Decode. cbn [app DecodeF].
  destruct (Z.eqb_spec c 105); [lia|].
  destruct (Z.eqb_spec c 108); [lia|].
  destruct (Z.eqb_spec c 100); [lia|].
  unfold decode_string.
  change (c :: ds ++ 58 :: rest) with ((c :: ds) ++ 58 :: rest).
  rewrite index_from_0_found
    by (eapply Forall_impl; [exact Hchars|]; cbn; intros x Hx; lia).
  rewrite take_app_length, Hn.
  unfold slice_checked.
  destruct (Z.leb_spec (Z.of_nat (length (c :: ds)) + 1) (Z.of_nat (length (c :: ds)) + 1 + n));
    [lia|].
  rewrite Bool.andb_false_r. reflexivity.
Qed.

Lemma Decode_negative_length_panics_witness : Decode (B "-1" ++ 58 :: B "spam") = Panic.
Proof.
  apply (Decode_negative_length_panics (B "-1") (B "spam") (-1)).
  - vm_compute. reflexivity.
  - lia.
Defined.


(** ** Orchestrator: the pieces in circulation *)

Lemma holds_update (ws : list Worker) (w : nat) (old new : Worker) :
  ws !! w = Some old ->
  exists A C,
    concat (map holds ws) = A ++ holds old ++ C
    /\ concat (map holds (<[w := new]> ws)) = A ++ holds new ++ C.
Proof.
  intros Hw. apply lookup_lt_Some in Hw as Hlt.
  exists (concat (map holds (take w ws))), (concat (map holds (drop (S w) ws))).
  split.
  - rewrite <- (take_drop_middle ws w old Hw) at 1.
    rewrite map_app, concat_app. reflexivity.
  - rewrite insert_take_drop by exact Hlt.
    rewrite map_app, concat_app. reflexivity.
Qed.

Lemma completedPieces_all (l : list bool) :
  completedPieces l = length l -> Forall (fun b => b = true) l.
Proof.
  unfold completedPieces. induction l as [|b l IH]; intros H; [constructor|].
  pose proof (length_filter (fun b => b = true) l) as Hle.
  rewrite filter_cons in H. destruct b.
  - rewrite decide_True in H by reflexivity. cbn [length] in H.
    constructor; [reflexivity|]. apply IH. lia.
  - rewrite decide_False in H by discriminate. cbn [length] in H. lia.
Qed.

Lemma all_true_lookup (l : list bool) (i : nat) :
  Forall (fun b => b = true) l -> l !! i <> Some false.
Proof.
  intros Hall Hi. rewrite Forall_forall in Hall.
  apply list_elem_of_lookup_2 in Hi. apply Hall in Hi. discriminate.
Qed.

Lemma pool_inv_init (tor : Torrent) (peers : nat) (disk : Disk) :
  pool_inv tor peers (orchestrator_init tor peers disk).
Proof.
  unfold pool_inv, orchestrator_init, circulating. cbn [downloaded workers pieceQueue queueClosed].
  assert (Hnone : concat (map holds (replicate (maxWorkers peers) AtReceive)) = []).
  { induction (maxWorkers peers) as [|k IH]; [reflexivity|]. cbn. exact IH. }
  rewrite Hnone, app_nil_r, !length_replicate.
  split; [reflexivity|]. split; [reflexivity|]. split; [apply NoDup_seq|].
  split; [|split; [discriminate|]].
  - intros i. rewrite elem_of_seq, lookup_replicate. split.
    + intros H. split; [reflexivity|lia].
    + intros [_ H]. lia.
  - intros w Hw. apply lookup_replicate in Hw as [Hw _]. discriminate.
Qed.


Lemma pool_inv_ext (tor : Torrent) (peers : nat) (s s' : Orchestrator) :
  downloaded s' = downloaded s -> pieceQueue s' = pieceQueue s ->
  queueClosed s' = queueClosed s -> workers s' = workers s ->
  pool_inv tor peers s -> pool_inv tor peers s'.
Proof.
  unfold pool_inv, circulating. intros -> -> -> ->. exact id.
Qed.

Lemma exited_after_insert (ws : list Worker) (w w' : nat) (new : Worker) :
  <[w := new]> ws !! w' = Some Exited ->
  new = Exited \/ ws !! w' = Some Exited.
Proof.
  intros H. apply list_lookup_insert_Some in H as [(_ & -> & _)|[_ H]]; auto.
Qed.

Lemma pool_inv_same_hand (tor : Torrent) (peers : nat) (s s' : Orchestrator)
    (w : nat) (old new : Worker) :
  workers s !! w = Some old -> holds new = holds old ->
  (new = Exited -> queueClosed s = true) ->
  downloaded s' = downloaded s -> pieceQueue s' = pieceQueue s ->
  queueClosed s' = queueClosed s -> workers s' = <[w := new]> (workers s) ->
  pool_inv tor peers s -> pool_inv tor peers s'.
Proof.
  intros Hw Hh Hex Hd Hq Hc Hws (I1 & I2 & I3 & I4 & I5 & I6).
  assert (Hcirc : circulating s' = circulating s).
  { unfold circulating. rewrite Hq, Hws.
    destruct (holds_update _ w old new Hw) as (A & C & -> & ->). rewrite Hh. reflexivity. }
  unfold pool_inv. rewrite Hcirc, Hd, Hc, Hws, length_insert.
  repeat split; try assumption; try apply I4.
  intros w' Hw'. apply exited_after_insert in Hw' as [->|Hw']; [auto|eapply I6, Hw'].
Qed.

Lemma held_in_circulation (s : Orchestrator) (w : nat) (pc : Worker) (i : nat) :
  workers s !! w = Some pc -> holds pc = [i] -> i ∈ circulating s.
Proof.
  intros Hw Hh. unfold circulating.
  destruct (holds_update _ w pc pc Hw) as (A & C & -> & _). rewrite Hh.
  rewrite !elem_of_app. right. right. left. left.
Qed.

Lemma closed_nothing_circulates (tor : Torrent) (peers : nat) (s : Orchestrator) (i : nat) :
  pool_inv tor peers s -> queueClosed s = true -> i ∉ circulating s.
Proof.
  intros (_ & _ & _ & I4 & I5 & _) Hc Hin.
  apply I4 in Hin. exact (all_true_lookup _ _ (I5 Hc) Hin).
Qed.

Lemma perm_move (i : nat) (q A C : list nat) :
  Permutation (q ++ A ++ i :: C) (i :: q ++ A ++ C).
Proof.
  rewrite (app_assoc q A (i :: C)), (app_assoc q A C).
  symmetry. apply Permutation_middle.
Qed.

Section Pool.

Variable filepath_Join : list Z -> list Z -> list Z.
Variable tor : Torrent.
Variable downloadPath : list Z.
Variable peers : nat.

Local Abbreviation step' := (step filepath_Join tor downloadPath).

Lemma pool_inv_step (s s' : Orchestrator) :
  pool_inv tor peers s -> step' s s' -> pool_inv tor peers s'.
Proof.
  intros Hinv Hstep.
  destruct Hstep as
    [s w i q _ Hw Hq
    |s w _ Hw Hq Hc
    |s w i _ Hw Hd
    |s w i _ Hw Hd
    |s w i _ Hw
    |s w i piece _ Hw
    |s w i piece expectedHash _ Hw Hp Hne
    |s w i piece _ Hw Hp
    |s w i piece disk' msg _ Hw Hwr
    |s w i piece disk' _ Hw Hwr
    |s w i piece disk' _ Hw Hwr
    |s w i _ Hw Hc
    |s w i _ Hw Hc
    |s w i _ Hw Hlt
    |s w pc i _ Hw Hpc Hlen
    |s w i piece _ Hw Hp
    |s _].
  - (* receive *)
    destruct Hinv as (I1 & I2 & I3 & I4 & I5 & I6).
    destruct (holds_update _ w AtReceive (AtCheck i) Hw) as (A & C & HA & HC).
    assert (Hperm : Permutation (q ++ concat (map holds (<[w := AtCheck i]> (workers s))))
                                (circulating s)).
    { unfold circulating. rewrite Hq, HA, HC. cbn [holds app]. apply perm_move. }
    unfold pool_inv, circulating. cbn [downloaded workers pieceQueue queueClosed].
    rewrite length_insert.
    split; [exact I1|]. split; [exact I2|]. split; [rewrite Hperm; exact I3|].
    split; [intros j; rewrite Hperm; apply I4|]. split; [exact I5|].
    intros w' Hw'. apply exited_after_insert in Hw' as [H|Hw']; [discriminate|eapply I6, Hw'].
  - (* drained *)
    eapply (pool_inv_same_hand _ _ s _ w AtReceive Exited); eauto.
  - (* already done: the piece in hand is never marked *)
    exfalso. destruct Hinv as (_ & _ & _ & I4 & _).
    assert (Hin : i ∈ circulating s) by (eapply held_in_circulation; [exact Hw|reflexivity]).
    apply I4 in Hin. congruence.
  - eapply (pool_inv_same_hand _ _ s _ w (AtCheck i) (AtDownload i));
      eauto; discriminate.
  - eapply (pool_inv_same_hand _ _ s _ w (AtDownload i) (AtRequeue i));
      eauto; discriminate.
  - eapply (pool_inv_same_hand _ _ s _ w (AtDownload i) (AtVerify i piece));
      eauto; discriminate.
  - eapply (pool_inv_same_hand _ _ s _ w (AtVerify i piece) (AtRequeue i));
      eauto; discriminate.
  - eapply (pool_inv_same_hand _ _ s _ w (AtVerify i piece) (AtWrite i piece));
      eauto; discriminate.
  - eapply (pool_inv_same_hand _ _ s _ w (AtWrite i piece) (AtRequeue i));
      eauto; discriminate.
  - eapply (pool_inv_same_hand _ _ s _ w (AtWrite i piece) (AtMark i));
      eauto; discriminate.
  - eapply pool_inv_ext; [..|exact Hinv]; cbn; congruence.
  - (* requeue *)
    destruct Hinv as (I1 & I2 & I3 & I4 & I5 & I6).
    destruct (holds_update _ w (AtRequeue i) AtReceive Hw) as (A & C & HA & HC).
    assert (Hperm : Permutation ((pieceQueue s ++ [i])
                                   ++ concat (map holds (<[w := AtReceive]> (workers s))))
                                (circulating s)).
    { unfold circulating. rewrite HA, HC. cbn [holds app].
      rewrite perm_move.
      apply (Permutation_app_tail (A ++ C) (Permutation_sym (Permutation_cons_append (pieceQueue s) i))). }
    unfold pool_inv, circulating. cbn [downloaded workers pieceQueue queueClosed].
    rewrite length_insert.
    split; [exact I1|]. split; [exact I2|]. split; [rewrite Hperm; exact I3|].
    split; [intros j; rewrite Hperm; apply I4|]. split; [discriminate|].
    intros w' Hw'. apply exited_after_insert in Hw' as [H|Hw']; [discriminate|].
    rewrite (I6 _ Hw') in Hc. discriminate.
  - eapply pool_inv_ext; [..|exact Hinv]; cbn; congruence.
  - (* mark *)
    assert (Hopen : queueClosed s = false).
    { destruct (queueClosed s) eqn:Hc; [|reflexivity]. exfalso.
      eapply closed_nothing_circulates; [exact Hinv|exact Hc|].
      eapply held_in_circulation; [exact Hw|reflexivity]. }
    destruct Hinv as (I1 & I2 & I3 & I4 & I5 & I6).
    destruct (holds_update _ w (AtMark i) AtReceive Hw) as (A & C & HA & HC).
    assert (Hcirc : Permutation (circulating s)
                      (i :: pieceQueue s ++ concat (map holds (<[w := AtReceive]> (workers s))))).
    { unfold circulating. rewrite HA, HC. cbn [holds app]. apply perm_move. }
    rewrite Hcirc in I3. apply NoDup_cons in I3 as [Hfresh I3].
    unfold pool_inv, circulating. cbn [downloaded workers pieceQueue queueClosed].
    subst downloaded' complete.
    rewrite !length_insert. rewrite Hopen. cbn [orb].
    split; [exact I1|]. split; [exact I2|]. split; [exact I3|].
    split; [intros j; split|split].
    + intros Hin.
      assert (Hne : i <> j) by (intros ->; contradiction).
      rewrite list_lookup_insert_ne by exact Hne. apply I4. rewrite Hcirc. right. exact Hin.
    + intros Hf.
      assert (Hne : i <> j).
      { intros ->. rewrite list_lookup_insert_eq in Hf by exact Hlt. discriminate. }
      rewrite list_lookup_insert_ne in Hf by exact Hne.
      apply I4 in Hf. rewrite Hcirc in Hf. apply elem_of_cons in Hf as [->|Hf]; [contradiction|exact Hf].
    + intros Hcomplete. apply bool_decide_eq_true_1 in Hcomplete.
      apply completedPieces_all. rewrite length_insert. congruence.
    + intros w' Hw'. apply exited_after_insert in Hw' as [H|Hw']; [discriminate|].
      rewrite (I6 _ Hw') in Hopen. discriminate.
  - eapply pool_inv_ext; [..|exact Hinv]; cbn; congruence.
  - eapply pool_inv_ext; [..|exact Hinv]; cbn; congruence.
  - eapply pool_inv_ext; [..|exact Hinv]; cbn; congruence.
Qed.

Lemma reachable_pool_inv (disk : Disk) (s : Orchestrator) :
  rtc step' (orchestrator_init tor peers disk) s -> pool_inv tor peers s.
Proof.
  revert s. apply (rtc_ind_r (pool_inv tor peers)).
  - apply pool_inv_init.
  - intros s s' _ Hs Hinv. eapply pool_inv_step; eassumption.
Qed.

End Pool.


(** X20. In every state the worker pool can reach, each piece not yet
    marked downloaded is in circulation exactly once, waiting in the channel
    or in the hands of one worker, and nothing else is in circulation: no
    piece is lost, none is worked on by two workers at a time, and a piece
    already downloaded is never fetched again. The pieces in circulation
    are never more than the capacity of the channel, so putting a piece
    back finds room. The pool keeps its size, which is between 5 and 20
    workers. *)
Theorem pool_pieces_in_circulation :
  forall (filepath_Join : list Z -> list Z -> list Z) (tor : Torrent) (downloadPath : list Z)
         (peers : nat) (disk : Disk) (s : Orchestrator),
    rtc (step filepath_Join tor downloadPath) (orchestrator_init tor peers disk) s ->
    NoDup (circulating s)
    /\ (forall i, i ∈ circulating s <-> downloaded s !! i = Some false)
    /\ (length (circulating s) <= length (Pieces tor))%nat
    /\ length (downloaded s) = length (Pieces tor)
    /\ length (workers s) = maxWorkers peers
    /\ (5 <= maxWorkers peers <= 20)%nat.
Proof.
  intros J tor dp peers disk s Hrun.
  destruct (reachable_pool_inv J tor dp peers disk s Hrun) as (I1 & I2 & I3 & I4 & _).
  split; [exact I3|]. split; [exact I4|]. split.
  { assert (Hseq : length (seq 0 (length (Pieces tor))) = length (Pieces tor))
      by apply length_seq.
    rewrite <- Hseq.
    apply submseteq_length, NoDup_submseteq; [exact I3|].
    intros i Hi. apply I4, lookup_lt_Some in Hi. apply elem_of_seq. lia. }
  split; [exact I1|]. split; [exact I2|].
  unfold maxWorkers.
  destruct (Nat.ltb_spec 20 (peers * 5)); cbv iota zeta.
  - change (20 <? 5)%nat with false. cbv iota. lia.
  - destruct (Nat.ltb_spec (peers * 5) 5); lia.
Qed.

Lemma pool_pieces_in_circulation_witness :
  exists s,
    rtc (step join_slash tor_two_files (B "dl"))
        (orchestrator_init tor_two_files 1 disk_preallocated) s
    /\ circulating s = [1; 0]%nat
    /\ NoDup (circulating s)
    /\ (forall i, i ∈ circulating s <-> downloaded s !! i = Some false)
    /\ (length (circulating s) <= length (Pieces tor_two_files))%nat
    /\ length (downloaded s) = length (Pieces tor_two_files)
    /\ length (workers s) = maxWorkers 1
    /\ (5 <= maxWorkers 1 <= 20)%nat.
Proof.
  set (s0 := orchestrator_init tor_two_files 1 disk_preallocated).
  assert (Hrun : exists s, rtc (step join_slash tor_two_files (B "dl")) s0 s
                           /\ circulating s = [1; 0]%nat).
  { eexists. split.
    - eapply rtc_l; [eapply (step_receive _ _ _ _ 0%nat 0%nat); vm_compute; reflexivity|].
      eapply rtc_l; [eapply (step_not_done _ _ _ _ 0%nat 0%nat); vm_compute; reflexivity|].
      apply rtc_refl.
    - vm_compute. reflexivity. }
  destruct Hrun as (s & Hrun & Hc). exists s.
  split; [exact Hrun|]. split; [exact Hc|].
  apply (pool_pieces_in_circulation join_slash tor_two_files (B "dl") 1 disk_preallocated s Hrun).
Defined.

(** X21. A worker leaves its loop only when the download is complete: in
    every reachable state in which some worker has exited, the channel is
    closed and empty, every piece is marked downloaded, and no worker holds
    a piece. The check for an incomplete download that follows the wait for
    the workers cannot fail. *)
Theorem pool_exit_means_complete :
  forall (filepath_Join : list Z -> list Z -> list Z) (tor : Torrent) (downloadPath : list Z)
         (peers : nat) (disk : Disk) (s : Orchestrator) (w : nat),
    rtc (step filepath_Join tor downloadPath) (orchestrator_init tor peers disk) s ->
    workers s !! w = Some Exited ->
    queueClosed s = true
    /\ Forall (fun b => b = true) (downloaded s)
    /\ completedPieces (downloaded s) = length (Pieces tor)
    /\ circulating s = [].
Proof.
  intros J tor dp peers disk s w Hrun Hw.
  pose proof (reachable_pool_inv J tor dp peers disk s Hrun) as Hinv.
  destruct Hinv as (I1 & I2 & I3 & I4 & I5 & I6).
  pose proof (I6 w Hw) as Hc. pose proof (I5 Hc) as Hall.
  split; [exact Hc|]. split; [exact Hall|]. split.
  - rewrite <- I1. unfold completedPieces.
    clear - Hall. induction Hall as [|b l -> _ IH]; [reflexivity|].
    rewrite filter_cons, decide_True by reflexivity. cbn [length]. rewrite IH. reflexivity.
  - destruct (circulating s) as [|i c] eqn:E; [reflexivity|]. exfalso.
    apply (all_true_lookup _ i Hall). apply I4. left.
Qed.

Lemma pool_exit_means_complete_witness :
  exists s,
    rtc (step join_slash tor_two_files (B "dl"))
        (orchestrator_init tor_two_files 1 disk_preallocated) s
    /\ workers s !! 1%nat = Some Exited
    /\ queueClosed s = true
    /\ Forall (fun b => b = true) (downloaded s)
    /\ completedPieces (downloaded s) = length (Pieces tor_two_files)
    /\ circulating s = [].
Proof.
  set (s0 := orchestrator_init tor_two_files 1 disk_preallocated).
  assert (Hrun : exists s, rtc (step join_slash tor_two_files (B "dl")) s0 s
                           /\ workers s !! 1%nat = Some Exited).
  { eexists. split.
    - eapply rtc_l; [eapply (step_receive _ _ _ _ 0%nat 0%nat); vm_compute; reflexivity|].
      eapply rtc_l; [eapply (step_not_done _ _ _ _ 0%nat 0%nat); vm_compute; reflexivity|].
      eapply rtc_l; [eapply (step_download_ok _ _ _ _ 0%nat 0%nat [1; 2; 3; 4]); vm_compute; reflexivity|].
      eapply rtc_l; [eapply (step_hash_ok _ _ _ _ 0%nat 0%nat [1; 2; 3; 4]); vm_compute; reflexivity|].
      eapply rtc_l; [eapply (step_write_ok _ _ _ _ 0%nat 0%nat [1; 2; 3; 4]); vm_compute; reflexivity|].
      eapply rtc_l; [eapply (step_mark _ _ _ _ 0%nat 0%nat); vm_compute; (reflexivity || lia)|].
      eapply rtc_l; [eapply (step_receive _ _ _ _ 0%nat 1%nat); vm_compute; reflexivity|].
      eapply rtc_l; [eapply (step_not_done _ _ _ _ 0%nat 1%nat); vm_compute; reflexivity|].
      eapply rtc_l; [eapply (step_download_ok _ _ _ _ 0%nat 1%nat [5; 6; 7; 8]); vm_compute; reflexivity|].
      eapply rtc_l; [eapply (step_hash_ok _ _ _ _ 0%nat 1%nat [5; 6; 7; 8]); vm_compute; reflexivity|].
      eapply rtc_l; [eapply (step_write_ok _ _ _ _ 0%nat 1%nat [5; 6; 7; 8]); vm_compute; reflexivity|].
      eapply rtc_l; [eapply (step_mark _ _ _ _ 0%nat 1%nat); vm_compute; (reflexivity || lia)|].
      eapply rtc_l; [eapply (step_drained _ _ _ _ 1%nat); vm_compute; reflexivity|].
      apply rtc_refl.
    - vm_compute. reflexivity. }
  destruct Hrun as (s & Hrun & Hw). exists s.
  split; [exact Hrun|]. split; [exact Hw|].
  apply (pool_exit_means_complete join_slash tor_two_files (B "dl") 1 disk_preallocated s 1%nat
           Hrun Hw).
Defined.




(** ** Metainfo: the piece ranges recorded per file *)

Lemma pieces_of_file_bounds (PL : Z) (f : File) :
  0 < PL -> 0 <= Length f -> 0 <= pieces_of_file PL f <= Length f.
Proof.
  intros HP Hl. unfold pieces_of_file. split.
  - apply Z.div_pos; lia.
  - Z.div_mod_to_equations. nia.
Qed.

Lemma pieces_of_file_code (PL : Z) (f : File) :
  0 < PL -> 0 <= Length f ->
  (if negb (Z.rem (Length f) PL =? 0) then Z.quot (Length f) PL + 1 else Z.quot (Length f) PL)
  = pieces_of_file PL f.
Proof.
  intros HP Hl. unfold pieces_of_file.
  rewrite Z.quot_div_nonneg, Z.rem_mod_nonneg by lia.
  destruct (Z.eqb_spec (Length f mod PL) 0); cbn [negb];
    Z.div_mod_to_equations; nia.
Qed.

Lemma assign_piece_indices_spec (PL : Z) (files : list File) : forall start : Z,
  0 < PL -> 0 <= start ->
  Forall (fun f => 0 <= Length f) files ->
  start + total_length files < 2^63 ->
  exists files',
    assign_piece_indices PL start files = Some files'
    /\ length files' = length files
    /\ forall (k : nat) (f' : File), files' !! k = Some f' ->
         exists f, files !! k = Some f
           /\ Length f' = Length f /\ Path f' = Path f
           /\ FirstPieceIndex f' = start + pieces_before PL files k
           /\ LastPieceIndex f' = FirstPieceIndex f' + pieces_of_file PL f - 1.
Proof.
  induction files as [|f files IH]; intros start HP Hs Hl Hb.
  - exists []. split; [reflexivity|]. split; [reflexivity|]. intros k f' H. discriminate.
  - apply Forall_cons_1 in Hl as [H0 Hl].
    cbn [total_length fold_right] in Hb. fold (total_length files) in Hb.
    pose proof (total_length_nonneg files Hl) as Hnn.
    pose proof (pieces_of_file_bounds PL f HP H0) as Hc.
    cbn [assign_piece_indices].
    destruct (Z.eqb_spec PL 0) as [->|_]; [lia|].
    assert (Hq : 0 <= Z.quot (Length f) PL <= Length f).
    { rewrite Z.quot_div_nonneg by lia. split; [apply Z.div_pos; lia|].
      Z.div_mod_to_equations. nia. }
    rewrite (wrap64_small (Z.quot (Length f) PL)) by lia.
    assert (Hcount : (if negb (Z.rem (Length f) PL =? 0)
                      then wrap64 (Z.quot (Length f) PL + 1) else Z.quot (Length f) PL)
                     = pieces_of_file PL f).
    { pose proof (pieces_of_file_code PL f HP H0) as Hcode.
      destruct (negb (Z.rem (Length f) PL =? 0)); [|exact Hcode].
      rewrite wrap64_small by lia. exact Hcode. }
    rewrite Hcount.
    rewrite (wrap64_small (start + pieces_of_file PL f)) by lia.
    rewrite (wrap64_small (start + pieces_of_file PL f - 1)) by lia.
    destruct (IH (start + pieces_of_file PL f) HP ltac:(lia) Hl ltac:(lia))
      as (rest & -> & Hlen & Hrest).
    cbn [mbind option_bind]. eexists. split; [reflexivity|].
    split; [cbn [length]; rewrite Hlen; reflexivity|].
    intros [|k] f' Hk.
    + injection Hk as <-. exists f. cbn [FirstPieceIndex LastPieceIndex Length Path].
      unfold pieces_before. cbn [take map fold_right].
      repeat split; try reflexivity; lia.
    + destruct (Hrest k f' Hk) as (f0 & Hf0 & H1 & H2 & H3 & H4).
      exists f0. split; [exact Hf0|]. split; [exact H1|]. split; [exact H2|].
      split; [|exact H4]. rewrite H3.
      unfold pieces_before. cbn [take map fold_right]. lia.
Qed.

Lemma pieces_before_aligned (PL : Z) (files : list File) : forall (k : nat) (cur : Z),
  0 < PL ->
  (forall j f, (j < k)%nat -> files !! j = Some f -> 0 <= Length f /\ Length f mod PL = 0) ->
  (k <= length files)%nat ->
  exists f_off,
    (forall f, files !! k = Some f -> file_starts cur files !! k = Some (f, cur + f_off))
    /\ 0 <= f_off /\ f_off mod PL = 0
    /\ pieces_before PL files k = f_off / PL.
Proof.
  induction files as [|f files IH]; intros k cur HP Hal Hk.
  - exists 0. split; [intros f H; discriminate|].
    unfold pieces_before. rewrite take_nil. cbn. repeat split; lia.
  - destruct k as [|k].
    + exists 0. split.
      * intros f0 [= ->]. cbn [file_starts]. rewrite Z.add_0_r. reflexivity.
      * unfold pieces_before. cbn. repeat split; lia.
    + destruct (Hal 0%nat f ltac:(lia) eq_refl) as [H0 Hm].
      destruct (IH k (cur + Length f) HP) as (off & Hstart & Hoff & Hmod & Hpb).
      { intros j f0 Hj Hf0. apply (Hal (S j) f0); [lia|exact Hf0]. }
      { cbn [length] in Hk. lia. }
      exists (Length f + off). split; [|split; [lia|split]].
      * intros f0 Hf0.
        change (file_starts cur (f :: files) !! S k)
          with (file_starts (cur + Length f) files !! k).
        rewrite (Hstart f0 Hf0). f_equal. f_equal. lia.
      * rewrite Z.add_mod, Hm, Hmod by lia. reflexivity.
      * unfold pieces_before in *. cbn [take map fold_right]. rewrite Hpb.
        unfold pieces_of_file.
        apply Z.mod_divide in Hm as [a Ha]; [|lia].
        apply Z.mod_divide in Hmod as [b Hb]; [|lia].
        rewrite Ha, Hb.
        replace (a * PL + PL - 1) with (a * PL + (PL - 1)) by lia.
        rewrite Z.div_add_l, (Z.div_small (PL - 1)), Z.div_mul by lia.
        rewrite <- Z.mul_add_distr_r, Z.div_mul by lia. lia.
Qed.


Lemma pieces_before_covers (PL : Z) (files : list File) :
  0 < PL -> Forall (fun f => 0 <= Length f) files ->
  (total_length files + PL - 1) / PL <= pieces_before PL files (length files).
Proof.
  intros HP Hl. unfold pieces_before. rewrite firstn_all.
  induction Hl as [|f files H0 Hl IH]; cbn [total_length map fold_right].
  - rewrite Z.add_0_l. rewrite Z.div_small by lia. lia.
  - fold (total_length files). pose proof (total_length_nonneg files Hl) as Hnn.
    unfold pieces_of_file at 1.
    assert (Hsplit : (Length f + total_length files + PL - 1) / PL
                     <= (Length f + PL - 1) / PL + (total_length files + PL - 1) / PL).
    { Z.div_mod_to_equations. nia. }
    lia.
Qed.

(** X23. For a positive piece length and files of non-negative lengths
    (sum within int64), the parser gives file [k] the piece range that
    starts right after the range of file [k-1], the first at 0, and that
    holds [ceil(length_k / pieceLength)] indices: an empty file gets the
    empty range [first, first - 1]. Lengths and paths are kept. The indices
    handed out in all are at least the number of pieces of the torrent,
    [ceil(total / pieceLength)]. *)
Theorem assign_piece_indices_ranges (pieceLength : Z) (files : list File) :
  0 < pieceLength ->
  Forall (fun f => 0 <= Length f) files ->
  total_length files < 2^63 ->
  exists files',
    assign_piece_indices pieceLength 0 files = Some files'
    /\ length files' = length files
    /\ (forall (k : nat) (f' : File), files' !! k = Some f' ->
         exists f, files !! k = Some f
           /\ Length f' = Length f /\ Path f' = Path f
           /\ FirstPieceIndex f' = pieces_before pieceLength files k
           /\ LastPieceIndex f' = FirstPieceIndex f' + pieces_of_file pieceLength f - 1)
    /\ (total_length files + pieceLength - 1) / pieceLength
       <= pieces_before pieceLength files (length files).
Proof.
  intros HP Hl Hb.
  destruct (assign_piece_indices_spec pieceLength files 0 HP ltac:(lia) Hl ltac:(lia))
    as (files' & Hrun & Hlen & Hk).
  exists files'. split; [exact Hrun|]. split; [exact Hlen|]. split.
  - intros k f' Hf'. destruct (Hk k f' Hf') as (f & H1 & H2 & H3 & H4 & H5).
    exists f. rewrite Z.add_0_l in H4. auto.
  - apply pieces_before_covers; assumption.
Qed.

Lemma assign_piece_indices_ranges_witness :
  exists files',
    assign_piece_indices 4 0 [mkFile 3 (B "a") 0 0; mkFile 0 (B "e") 0 0; mkFile 5 (B "b") 0 0]
    = Some files'
    /\ length files' = 3%nat
    /\ map (fun f => (FirstPieceIndex f, LastPieceIndex f)) files' = [(0, 0); (1, 0); (1, 2)]
    /\ (total_length [mkFile 3 (B "a") 0 0; mkFile 0 (B "e") 0 0; mkFile 5 (B "b") 0 0] + 4 - 1) / 4
       <= pieces_before 4 [mkFile 3 (B "a") 0 0; mkFile 0 (B "e") 0 0; mkFile 5 (B "b") 0 0] 3.
Proof.
  destruct (assign_piece_indices_ranges 4
              [mkFile 3 (B "a") 0 0; mkFile 0 (B "e") 0 0; mkFile 5 (B "b") 0 0])
    as (files' & Hrun & Hlen & _ & Hcov).
  - lia.
  - repeat constructor; cbn; lia.
  - vm_compute. reflexivity.
  - exists files'. split; [exact Hrun|]. split; [exact Hlen|]. split; [|exact Hcov].
    vm_compute in Hrun. injection Hrun as <-. reflexivity.
Defined.

(** X24. When every file but the last has a length that is a multiple of
    the piece length, the recorded ranges are those of the cumulative
    offsets: file [k], which starts at offset [off] of the concatenated
    content, gets first index [off / pieceLength] and, when it is not empty,
    last index [(off + length - 1) / pieceLength]. *)
Theorem assign_piece_indices_aligned (pieceLength : Z) (files : list File) :
  0 < pieceLength ->
  Forall (fun f => 0 <= Length f) files ->
  total_length files < 2^63 ->
  (forall (j : nat) (f : File), (S j < length files)%nat -> files !! j = Some f ->
     Length f mod pieceLength = 0) ->
  exists files',
    assign_piece_indices pieceLength 0 files = Some files'
    /\ forall (k : nat) (f' : File), files' !! k = Some f' ->
         exists f off, file_starts 0 files !! k = Some (f, off)
           /\ FirstPieceIndex f' = off / pieceLength
           /\ (0 < Length f -> LastPieceIndex f' = (off + Length f - 1) / pieceLength).
Proof.
  intros HP Hl Hb Hal.
  destruct (assign_piece_indices_spec pieceLength files 0 HP ltac:(lia) Hl ltac:(lia))
    as (files' & Hrun & Hlen & Hk).
  exists files'. split; [exact Hrun|].
  intros k f' Hf'. destruct (Hk k f' Hf') as (f & Hf & _ & _ & H4 & H5).
  apply lookup_lt_Some in Hf as Hlt.
  destruct (pieces_before_aligned pieceLength files k 0 HP) as (off & Hstart & Hoff & Hmod & Hpb).
  { intros j f0 Hj Hf0. split.
    - rewrite Forall_forall in Hl. apply Hl. eapply list_elem_of_lookup_2, Hf0.
    - apply (Hal j f0); [lia|exact Hf0]. }
  { lia. }
  exists f, off. split; [rewrite (Hstart f Hf); f_equal|].
  rewrite H5, H4, Hpb, Z.add_0_l. split; [reflexivity|]. intros Hpos.
  unfold pieces_of_file.
  apply Z.mod_divide in Hmod as [b Hb']; [|lia]. rewrite Hb'.
  rewrite Z.div_mul by lia.
  replace (b * pieceLength + Length f - 1) with (b * pieceLength + (Length f - 1)) by lia.
  rewrite Z.div_add_l by lia.
  replace (Length f + pieceLength - 1) with (1 * pieceLength + (Length f - 1)) by lia.
  rewrite Z.div_add_l by lia. lia.
Qed.

Lemma assign_piece_indices_aligned_witness :
  exists files',
    assign_piece_indices 4 0 [mkFile 8 (B "a") 0 0; mkFile 5 (B "b") 0 0] = Some files'
    /\ forall (k : nat) (f' : File), files' !! k = Some f' ->
         exists f off,
           file_starts 0 [mkFile 8 (B "a") 0 0; mkFile 5 (B "b") 0 0] !! k = Some (f, off)
           /\ FirstPieceIndex f' = off / 4
           /\ (0 < Length f -> LastPieceIndex f' = (off + Length f - 1) / 4).
Proof.
  apply (assign_piece_indices_aligned 4 [mkFile 8 (B "a") 0 0; mkFile 5 (B "b") 0 0]).
  - lia.
  - repeat constructor; cbn; lia.
  - vm_compute. reflexivity.
  - intros [|[|j]] f Hj Hf; cbn [length] in Hj; try lia.
    injection Hf as <-. reflexivity.
Defined.


(** ** Metainfo: what every parsed torrent satisfies *)

Lemma SHA1_blocks_length (n : nat) : forall (h bs : list Z),
  length h = 5%nat -> length (SHA1.blocks n h bs) = 5%nat.
Proof.
  induction n as [|n IH]; intros h bs Hh; cbn [SHA1.blocks]; [exact Hh|].
  apply IH. reflexivity.
Qed.

Lemma SHA1_Sum_length (data : list Z) : length (SHA1.Sum data) = 20%nat.
Proof.
  unfold SHA1.Sum.
  pose proof (SHA1_blocks_length (length (SHA1.pad data) / 64) SHA1.init (SHA1.pad data) eq_refl)
    as H.
  destruct (SHA1.blocks _ _ _) as [|a [|b [|c [|d [|e [|]]]]]]; try discriminate H.
  reflexivity.
Qed.

Lemma SHA1_Sum_bytes (data : list Z) : Forall (fun b => 0 <= b < 256) (SHA1.Sum data).
Proof.
  unfold SHA1.Sum. apply Forall_concat, Forall_forall. intros bs Hbs.
  apply list_elem_of_In, in_map_iff in Hbs as (w & <- & _).
  unfold SHA1.be32. apply Forall_forall. intros b Hb.
  apply list_elem_of_In, in_map_iff in Hb as (k & <- & _).
  change 255 with (Z.ones 8). rewrite Z.land_ones by lia.
  apply Z.mod_pos_bound. lia.
Qed.

Lemma hex_length (bs : list Z) : length (hex bs) = (2 * length bs)%nat.
Proof.
  unfold hex. induction bs as [|b bs IH]; [reflexivity|].
  cbn [flat_map length app]. rewrite IH. lia.
Qed.

Lemma pieces_loop_hashes (fuel : nat) : forall (piecesData : list Z) (ps : list (list Z)),
  pieces_loop fuel piecesData = Some ps -> Forall (fun p => length p = 40%nat) ps.
Proof.
  induction fuel as [|fuel IH]; intros piecesData ps H; cbn [pieces_loop] in H.
  - injection H as <-. constructor.
  - destruct piecesData as [|b piecesData]; [injection H as <-; constructor|].
    destruct (slice_checked (b :: piecesData) 0 20) as [piece|] eqn:Hs;
      cbn [mbind option_bind] in H; [|discriminate].
    destruct (pieces_loop fuel (drop 20 (b :: piecesData))) as [rest|] eqn:Hr;
      cbn [mbind option_bind] in H; [|discriminate].
    injection H as <-. constructor; [|eapply IH, Hr].
    unfold slice_checked in Hs. destruct (_ && _) eqn:Hb; [|discriminate].
    injection Hs as <-. apply andb_prop in Hb as [_ Hb]. apply Z.leb_le in Hb.
    rewrite hex_length.
    pose proof (slice_length (b :: piecesData) 0 20 ltac:(lia) Hb) as Hl.
    unfold len in Hl. lia.
Qed.

Lemma assign_piece_indices_nonzero (PL start : Z) (fl fl' : list File) :
  assign_piece_indices PL start fl = Some fl' -> fl' = [] \/ PL <> 0.
Proof.
  destruct fl as [|f fl]; cbn [assign_piece_indices].
  - intros [= <-]. left. reflexivity.
  - destruct (Z.eqb_spec PL 0); [discriminate|]. right. assumption.
Qed.

Lemma assign_piece_indices_single (PL : Z) (f : File) (fl' : list File) :
  assign_piece_indices PL 0 [f] = Some fl' ->
  exists f', fl' = [f'] /\ Path f' = Path f /\ Length f' = Length f
             /\ FirstPieceIndex f' = 0.
Proof.
  cbn [assign_piece_indices]. destruct (PL =? 0); [discriminate|].
  cbn [mbind option_bind]. intros [= <-]. eexists. split; [reflexivity|].
  cbn. auto.
Qed.




(** ** Verifier: a torrent of one file *)

Lemma reads_full_but_last (pl : nat) : forall (fuel : nat) (content : list Z),
  (0 < pl)%nat -> full_but_last pl (reads fuel pl content).
Proof.
  intros fuel content Hpl. revert content.
  induction fuel as [|fuel IH]; intros content; cbn [reads]; [exact I|].
  destruct pl as [|pl']; [lia|].
  destruct content as [|b content]; [exact I|].
  set (pl := S pl') in *. set (c := b :: content).
  specialize (IH (drop pl c)).
  cbn [full_but_last].
  destruct (reads fuel pl (drop pl c)) as [|c' cs] eqn:Hr.
  - rewrite length_take. unfold c. cbn [length]. lia.
  - split; [|exact IH].
    rewrite length_take.
    assert (Hne : drop pl c <> []).
    { intros E. rewrite E in Hr. destruct fuel; discriminate Hr. }
    destruct (Nat.le_gt_cases (length c) pl) as [Hle|Hgt]; [|lia].
    exfalso. apply Hne. apply drop_ge. exact Hle.
Qed.

Lemma copy_at_0 (buf src : list Z) :
  (length src <= length buf)%nat ->
  copy_at buf 0 src = src ++ drop (length src) buf.
Proof.
  intros Hl. unfold copy_at. rewrite take_0, Nat.sub_0_r.
  rewrite (take_ge src) by exact Hl. reflexivity.
Qed.

Lemma copy_at_0_length (buf src : list Z) :
  (length src <= length buf)%nat -> length (copy_at buf 0 src) = length buf.
Proof.
  intros Hl. rewrite copy_at_0 by exact Hl. rewrite length_app, length_drop. lia.
Qed.

Lemma copy_at_0_take (buf src : list Z) :
  (length src <= length buf)%nat -> take (length src) (copy_at buf 0 src) = src.
Proof.
  intros Hl. rewrite copy_at_0 by exact Hl. apply take_app_length.
Qed.

Lemma verify_file_windows (pl : nat) (pieceHashes : list (list Z)) :
  (0 < pl)%nat ->
  forall (chunks : list (list Z)) (st : VerifyState),
    full_but_last pl chunks -> piece_is_full pl st ->
    (chunks = [] \/ pieceIndex st < length pieceHashes)%nat ->
    match list_find (fun ch : list Z * list Z => hex (SHA1.Sum ch.1) <> ch.2)
                    (zip chunks (drop (pieceIndex st) pieceHashes)) with
    | Some (j, _) =>
        verify_file pl pieceHashes true chunks st
        = Error (piece_corrupted (pieceIndex st + j))
    | None => exists st', verify_file pl pieceHashes true chunks st = Ok st'
    end.
Proof.
  intros Hpl. induction chunks as [|c cs IH]; intros st Hch (HA & HB & HP) Hidx.
  { cbn. eexists. reflexivity. }
  destruct Hidx as [Hidx|Hidx]; [discriminate|].
  destruct (lookup_lt_is_Some_2 pieceHashes (pieceIndex st) Hidx) as [h Hh].
  rewrite (drop_S _ _ _ Hh). cbn [zip zip_with].
  assert (Hc : (0 < length c <= pl)%nat).
  { cbn [full_but_last] in Hch. destruct cs; [exact Hch|]. destruct Hch as [-> _]. lia. }
  cbn [verify_file pieceArr pieceBuf piece pieceIndex].
  set (buf1 := copy_at (pieceBuf st) 0 c).
  assert (Hb1 : length buf1 = pl) by (unfold buf1; rewrite copy_at_0_length; lia).
  assert (Ht1 : take (length c) buf1 = c) by (unfold buf1; apply copy_at_0_take; lia).
  set (st2 := if (length c <? pl)%nat
              then short_read pl (length c)
                     (mkVerifyState (pieceArr st) buf1 (piece st) (pieceIndex st))
              else mkVerifyState (pieceArr st) buf1 (InPieceBuf (length c)) (pieceIndex st)).
  assert (Hst2 : piece_bytes st2 = c /\ pieceIndex st2 = pieceIndex st
                 /\ ((length c = pl) -> piece_is_full pl st2)).
  { unfold st2. destruct (Nat.ltb_spec (length c) pl) as [Hlt|Hge].
    - unfold short_read. cbn [pieceArr pieceBuf piece pieceIndex]. rewrite Ht1.
      destruct HP as [-> | ->]; rewrite Nat.ltb_irrefl.
      + unfold piece_bytes. cbn [piece pieceArr pieceIndex].
        split; [apply copy_at_0_take; lia|]. split; [reflexivity|]. lia.
      + unfold piece_bytes. cbn [piece pieceBuf pieceIndex].
        split; [exact Ht1|]. split; [reflexivity|]. lia.
    - unfold piece_bytes, piece_is_full. cbn [piece pieceBuf pieceArr pieceIndex].
      split; [exact Ht1|]. split; [reflexivity|]. intros E. rewrite E. auto. }
  destruct Hst2 as (Hbytes & Hi2 & Hfull).
  rewrite Bool.andb_false_r.
  fold st2. rewrite Hi2, Hh, Hbytes.
  cbn [list_find fst snd].
  destruct (decide (hex (SHA1.Sum c) <> h)) as [Hne|Heq].
  - rewrite bool_decide_eq_false_2 by exact Hne. rewrite Nat.add_0_r. reflexivity.
  - apply dec_stable in Heq. rewrite bool_decide_eq_true_2 by exact Heq.
    rewrite ?Hi2.
    destruct (Nat.eqb_spec (S (pieceIndex st)) (length pieceHashes)) as [E|NE].
    + rewrite drop_ge by lia.
      assert (Hz : zip cs ([] : list (list Z)) = []) by (destruct cs; reflexivity).
      rewrite Hz. cbn. eexists. reflexivity.
    + set (st3 := mkVerifyState (pieceArr st2) (pieceBuf st2) (piece st2) (S (pieceIndex st))).
      destruct cs as [|c' cs'].
      { cbn. eexists. reflexivity. }
      cbn [full_but_last] in Hch. destruct Hch as [Hlen Hrest].
      specialize (IH st3 Hrest).
      destruct (Hfull Hlen) as (HA2 & HB2 & HP2).
      specialize (IH (conj HA2 (conj HB2 HP2))). cbn [pieceIndex st3] in IH.
      specialize (IH ltac:(right; unfold st3; cbn [pieceIndex]; lia)).
      unfold st3 in IH. cbn [pieceIndex] in IH.
      destruct (list_find _ (zip (c' :: cs') (drop (S (pieceIndex st)) pieceHashes)))
        as [[j x]|]; cbn [fmap option_fmap option_map prod_map fst snd id].
      * unfold st3. rewrite IH. f_equal. f_equal. lia.
      * exact IH.
Qed.


Lemma reads_concat (pl : nat) : forall (fuel : nat) (content : list Z),
  (0 < pl)%nat -> (length content < fuel)%nat -> concat (reads fuel pl content) = content.
Proof.
  intros fuel content Hpl. revert content.
  induction fuel as [|fuel IH]; intros content Hf; [lia|].
  cbn [reads]. destruct pl as [|pl']; [lia|].
  destruct content as [|b content]; [reflexivity|].
  cbn [concat]. rewrite IH.
  - apply take_drop.
  - rewrite length_drop. cbn [length] in *. lia.
Qed.

Lemma VerifyTorrent_one_file (filepath_Join : list Z -> list Z -> list Z) (disk : Disk)
    (filename contentPath content data : list Z) (t : Torrent) (file : File) :
  dict_get filename disk = Some content ->
  TorrentFromBytes content = Ok (Some t) ->
  FileList t = [file] -> 0 < PieceLength t ->
  dict_get (filepath_Join contentPath (Path file)) disk = Some data ->
  data = [] \/ Pieces t <> [] ->
  VerifyTorrent filepath_Join disk filename contentPath
  = match list_find (fun ch : list Z * list Z => hex (SHA1.Sum ch.1) <> ch.2)
                    (zip (reads (S (length data)) (Z.to_nat (PieceLength t)) data)
                         (Pieces t)) with
    | Some (i, _) => Error (piece_corrupted i)
    | None => Ok tt
    end.
Proof.
  intros Hfile Hparse Hfl HPL Hdata Hne.
  unfold VerifyTorrent. rewrite Hfile, Hparse, Hfl.
  cbn [list_find]. rewrite Hdata.
  destruct (decide (Some data = None)) as [E|_]; [discriminate E|].
  cbn [fmap option_fmap option_map].
  destruct (Z.ltb_spec (PieceLength t) 0); [lia|].
  set (pl := Z.to_nat (PieceLength t)).
  assert (Hpl : (0 < pl)%nat) by (unfold pl; lia).
  cbn [verify_files]. rewrite Hdata.
  set (st0 := mkVerifyState (replicate pl 0) (replicate pl 0) (InPiece pl) 0).
  assert (Hfull : piece_is_full pl st0).
  { unfold st0, piece_is_full. cbn [pieceArr pieceBuf piece].
    rewrite !length_replicate. auto. }
  assert (Hidx : reads (S (length data)) pl data = []
                 \/ (pieceIndex st0 < length (Pieces t))%nat).
  { destruct Hne as [->|Hne]; [left; cbn [reads length]; destruct pl; reflexivity|right].
    destruct (Pieces t); [contradiction|cbn [length pieceIndex st0]; lia]. }
  pose proof (verify_file_windows pl (Pieces t) Hpl
                (reads (S (length data)) pl data) st0
                (reads_full_but_last pl _ data Hpl) Hfull Hidx) as Hv.
  change (drop (pieceIndex st0) (Pieces t)) with (Pieces t) in Hv.
  change (pieceIndex st0) with 0%nat in Hv.
  destruct (list_find _ (zip (reads (S (length data)) pl data) (Pieces t))) as [[j x]|].
  - rewrite Hv. reflexivity.
  - destruct Hv as [st' ->]. reflexivity.
Qed.




Lemma reads_take (pl : nat) : forall (k fuel fuel' : nat) (content : list Z),
  (0 < pl)%nat -> (length content < fuel)%nat ->
  (length (take (k * pl) content) < fuel')%nat ->
  reads fuel' pl (take (k * pl) content) = take k (reads fuel pl content).
Proof.
  induction k as [|k IH]; intros fuel fuel' content Hpl Hf Hf'.
  - cbn [Nat.mul take]. rewrite take_0.
    destruct fuel' as [|fuel']; [reflexivity|]. cbn [reads].
    destruct pl; reflexivity.
  - destruct fuel as [|fuel]; [lia|]. destruct fuel' as [|fuel']; [lia|].
    cbn [reads]. destruct pl as [|pl']; [lia|]. set (pl := S pl') in *.
    destruct content as [|b content].
    + rewrite take_nil. reflexivity.
    + set (c := b :: content) in *.
      assert (Hlc : (0 < length c)%nat) by (unfold c; cbn [length]; lia).
      assert (Hne : take (S k * pl) c <> []).
      { unfold c, pl. cbn. discriminate. }
      destruct (take (S k * pl) c) as [|b' c'] eqn:E; [contradiction|].
      rewrite <- E in *. cbn [take]. change (firstn k) with (@take (list Z) k).
      rewrite length_take in Hf'.
      f_equal.
      * rewrite take_take. f_equal. lia.
      * rewrite <- (IH fuel fuel' (drop pl c)); [|lia| |].
        -- f_equal. rewrite skipn_firstn_comm. f_equal. lia.
        -- rewrite length_drop. lia.
        -- rewrite length_take, length_drop. lia.
Qed.

(** X27. A file cut short at a piece boundary passes: when a one-file
    torrent verifies against a file, it also verifies against any prefix
    of that file that ends on a multiple of the piece length, the empty file
    included. The verifier never compares the length of the file, or the
    number of windows, with the metainfo. *)
Theorem VerifyTorrent_accepts_truncated (filepath_Join : list Z -> list Z -> list Z)
    (disk disk' : Disk) (filename contentPath content data : list Z) (t : Torrent)
    (file : File) (k : nat) :
  dict_get filename disk = Some content ->
  dict_get filename disk' = Some content ->
  TorrentFromBytes content = Ok (Some t) ->
  FileList t = [file] -> 0 < PieceLength t -> Pieces t <> [] ->
  dict_get (filepath_Join contentPath (Path file)) disk = Some data ->
  dict_get (filepath_Join contentPath (Path file)) disk'
  = Some (take (k * Z.to_nat (PieceLength t)) data) ->
  VerifyTorrent filepath_Join disk filename contentPath = Ok tt ->
  VerifyTorrent filepath_Join disk' filename contentPath = Ok tt.
Proof.
  intros Hfile Hfile' Hparse Hfl HPL Hne Hdata Hdata' Hok.
  rewrite (VerifyTorrent_one_file _ _ _ _ _ _ _ _ Hfile Hparse Hfl HPL Hdata (or_intror Hne))
    in Hok.
  rewrite (VerifyTorrent_one_file _ _ _ _ _ _ _ _ Hfile' Hparse Hfl HPL Hdata' (or_intror Hne)).
  set (pl := Z.to_nat (PieceLength t)) in *.
  assert (Hpl : (0 < pl)%nat) by (unfold pl; lia).
  rewrite (reads_take pl k (S (length data))) by (rewrite ?length_take; lia).
  destruct (list_find _ (zip (reads (S (length data)) pl data) (Pieces t)))
    as [[i x]|] eqn:Hfind; [discriminate Hok|].
  apply list_find_None in Hfind.
  assert (Hnone : list_find (fun ch : list Z * list Z => hex (SHA1.Sum ch.1) <> ch.2)
                    (zip (take k (reads (S (length data)) pl data)) (Pieces t)) = None).
  { apply list_find_None. rewrite Forall_forall in Hfind |- *.
    intros [c h] Hin. apply Hfind.
    apply list_elem_of_lookup in Hin as [i Hi].
    apply lookup_zip_with_Some in Hi as (c0 & h0 & [= <- <-] & Hc & Hh).
    apply lookup_take_Some in Hc as [Hc _].
    apply list_elem_of_lookup. exists i.
    apply lookup_zip_with_Some. exists c, h. auto. }
  rewrite Hnone. reflexivity.
Qed.

Lemma VerifyTorrent_accepts_truncated_witness :
  VerifyTorrent join_slash disk_one_file_cut (B "t.torrent") (B "dl") = Ok tt.
Proof.
  apply (VerifyTorrent_accepts_truncated join_slash disk_one_file disk_one_file_cut
           (B "t.torrent") (B "dl") (bencoding meta_one_file) [1; 2; 3; 4; 5; 6; 7; 8]
           tor_one_file (mkFile 8 (B "f") 0 1) 1).
  - reflexivity.
  - reflexivity.
  - vm_compute. reflexivity.
  - vm_compute. reflexivity.
  - vm_compute. reflexivity.
  - vm_compute. discriminate.
  - vm_compute. reflexivity.
  - vm_compute. reflexivity.
  - vm_compute. reflexivity.
Defined.


(** ** Pre-allocation *)

Lemma createEmptyFiles_loop_negative (filepath_Join : list Z -> list Z -> list Z)
    (downloadPath : list Z) (fl : list File) : forall disk,
  Exists (fun f => Length f < 0) fl ->
  exists disk' msg,
    createEmptyFiles_loop filepath_Join downloadPath fl disk = (disk', Error msg).
Proof.
  induction fl as [|f fl IH]; intros disk Hex; [inversion Hex|].
  cbn [createEmptyFiles_loop].
  destruct (Z.ltb_spec (Length f) 0) as [Hneg|Hpos]; [eauto|].
  apply IH. inversion Hex as [? ? Hf|? ? Hrest]; subst; [lia|exact Hrest].
Qed.




(** ** The length of a piece *)

Lemma ceil_div (L PL : Z) :
  0 < PL -> 0 <= L ->
  (L + PL - 1) / PL = L / PL + (if L mod PL =? 0 then 0 else 1).
Proof.
  intros HPL HL. pose proof (Z.div_mod L PL ltac:(lia)) as Hdm.
  pose proof (Z.mod_pos_bound L PL HPL) as Hr.
  destruct (Z.eqb_spec (L mod PL) 0) as [E|NE].
  - replace (L + PL - 1) with (L / PL * PL + (PL - 1)) by lia.
    rewrite Z.div_add_l, (Z.div_small (PL - 1)) by lia. reflexivity.
  - replace (L + PL - 1) with ((L / PL + 1) * PL + (L mod PL - 1)) by lia.
    rewrite Z.div_add_l, (Z.div_small (L mod PL - 1)) by lia. lia.
Qed.

(** X29. For a torrent with a positive piece length whose number of
    piece hashes is [ceil(length / pieceLength)], the buffer
    [downloadPieceFromPeers] returns for piece [i] has
    [min((i+1) * pieceLength, length) - i * pieceLength] bytes, the length
    of piece [i] of any buffer of the torrent's length: full pieces, and a
    last piece that holds the remainder. It is all zeros: the placeholder
    fetches nothing. *)
Theorem downloadPieceFromPeers_length (tor : Torrent) (buf : list Z) (i : Z) :
  0 < PieceLength tor -> len buf = TorrentLength tor ->
  len (Pieces tor) = (TorrentLength tor + PieceLength tor - 1) / PieceLength tor ->
  0 <= i < len (Pieces tor) ->
  exists p,
    downloadPieceFromPeers tor i = Some p
    /\ len p = Z.min ((i + 1) * PieceLength tor) (TorrentLength tor) - i * PieceLength tor
    /\ len p = len (piece_of buf (PieceLength tor) i)
    /\ 0 < len p <= PieceLength tor
    /\ Forall (fun b => b = 0) p.
Proof.
  intros HPL Hbuf Hn Hi.
  set (PL := PieceLength tor) in *. set (L := TorrentLength tor) in *.
  pose proof (len_nonneg buf) as HL. rewrite Hbuf in HL.
  assert (Hsize : exists sz,
            (if i =? len (Pieces tor) - 1
             then if PL =? 0 then None
                  else Some (if Z.rem L PL >? 0 then Z.rem L PL else PL)
             else Some PL) = Some sz
            /\ sz = Z.min ((i + 1) * PL) L - i * PL /\ 0 < sz <= PL).
  { rewrite Z.rem_mod_nonneg by lia.
    rewrite (ceil_div L PL HPL HL) in Hn.
    pose proof (Z.div_mod L PL ltac:(lia)) as Hdm.
    pose proof (Z.mod_pos_bound L PL HPL) as Hr.
    assert (Hq : 0 <= L / PL) by (apply Z.div_pos; lia).
    set (q := L / PL) in *. set (r := L mod PL) in *.
    destruct (Z.eqb_spec i (len (Pieces tor) - 1)) as [E|NE].
    - destruct (Z.eqb_spec PL 0); [lia|].
      destruct (Z.gtb_spec r 0); eexists; (split; [reflexivity|]);
        destruct (Z.eqb_spec r 0); try lia;
        rewrite Hn in E; subst i; nia.
    - eexists. split; [reflexivity|]. rewrite Hn in Hi, NE.
      destruct (Z.eqb_spec r 0); nia. }
  destruct Hsize as (sz & Hsz & Heq & Hrange).
  unfold downloadPieceFromPeers. fold PL L. rewrite Hsz. cbn [mbind option_bind].
  destruct (Z.ltb_spec sz 0); [lia|].
  eexists. split; [reflexivity|].
  assert (Hlen : len (replicate (Z.to_nat sz) 0) = sz)
    by (unfold len; rewrite length_replicate; lia).
  rewrite Hlen. split; [exact Heq|]. split; [|split; [exact Hrange|]].
  - unfold piece_of. rewrite slice_length; rewrite ?Hbuf; fold L; nia.
  - apply Forall_replicate. reflexivity.
Qed.

Lemma downloadPieceFromPeers_length_witness :
  exists p,
    downloadPieceFromPeers tor_two_files 1 = Some p
    /\ len p = Z.min ((1 + 1) * PieceLength tor_two_files) (TorrentLength tor_two_files)
               - 1 * PieceLength tor_two_files
    /\ len p = len (piece_of [1; 2; 3; 4; 5; 6; 7; 8] (PieceLength tor_two_files) 1)
    /\ 0 < len p <= PieceLength tor_two_files
    /\ Forall (fun b => b = 0) p.
Proof.
  apply (downloadPieceFromPeers_length tor_two_files [1; 2; 3; 4; 5; 6; 7; 8] 1).
  - vm_compute. reflexivity.
  - vm_compute. reflexivity.
  - vm_compute. reflexivity.
  - vm_compute. split; [discriminate|reflexivity].
Defined.


(** ** Tracker response: the compact peer list *)

Lemma compact_peers_spec (n : nat) : forall peersList : list Z,
  (length peersList <= n)%nat ->
  Forall (fun b => 0 <= b < 256) peersList ->
  match compact_peers peersList with
  | None => (length peersList mod 6 <> 0)%nat
  | Some peers =>
      length peersList = (6 * length peers)%nat
      /\ forall (k : nat) (p : Peer), peers !! k = Some p ->
           exists a b c d p1 p0,
             take 6 (drop (6 * k) peersList) = [a; b; c; d; p1; p0]
             /\ ID p = [] /\ IP p = dotted a b c d /\ Port p = 256 * p1 + p0
  end.
Proof.
  induction n as [|n IH]; intros peersList Hn Hbytes.
  { destruct peersList; [|cbn in Hn; lia]. cbn. split; [reflexivity|].
    intros k p H. discriminate. }
  destruct peersList as [|a [|b [|c [|d [|p1 [|p0 rest]]]]]];
    try (cbn; lia).
  { cbn. split; [reflexivity|]. intros k p H. discriminate. }
  cbn [compact_peers].
  rewrite !Forall_cons in Hbytes.
  destruct Hbytes as (Ha & Hb & Hc & Hd & Hp1 & Hp0 & Hrest).
  specialize (IH rest ltac:(cbn [length] in Hn; lia) Hrest).
  assert (Hmod : (length (a :: b :: c :: d :: p1 :: p0 :: rest) mod 6
                  = length rest mod 6)%nat).
  { cbn [length].
    replace (S (S (S (S (S (S (length rest))))))) with (length rest + 1 * 6)%nat by lia.
    apply Nat.Div0.mod_add. }
  destruct (compact_peers rest) as [peers|].
  - destruct IH as [Hlen Hk]. split; [cbn [length]; lia|].
    intros [|k] p Hp.
    + injection Hp as <-. exists a, b, c, d, p1, p0. cbn [ID IP Port].
      split; [reflexivity|]. split; [reflexivity|]. split; [reflexivity|].
      unfold wrapU16. rewrite Z.shiftl_mul_pow2 by lia.
      rewrite Z.mod_small; lia.
    + destruct (Hk k p Hp) as (a' & b' & c' & d' & p1' & p0' & Ht & Hrec).
      exists a', b', c', d', p1', p0'. split; [|exact Hrec].
      replace (6 * S k)%nat with (6 + 6 * k)%nat by lia.
      rewrite <- drop_drop. exact Ht.
  - rewrite Hmod. exact IH.
Qed.

(** X30. The peers string of a tracker response is read six bytes at a
    time: when its length is a multiple of six, peer [k] gets the address
    [a.b.c.d] of bytes [6k] to [6k+3] and the port [256 * p1 + p0] of bytes
    [6k+4] and [6k+5], and no peer id; when it is not, the loop indexes past
    the end of the string and panics. *)
Theorem compact_peers_layout (peersList : list Z) :
  Forall (fun b => 0 <= b < 256) peersList ->
  match compact_peers peersList with
  | None => (length peersList mod 6 <> 0)%nat
  | Some peers =>
      length peersList = (6 * length peers)%nat
      /\ forall (k : nat) (p : Peer), peers !! k = Some p ->
           exists a b c d p1 p0,
             take 6 (drop (6 * k) peersList) = [a; b; c; d; p1; p0]
             /\ ID p = [] /\ IP p = dotted a b c d /\ Port p = 256 * p1 + p0
  end.
Proof. intros Hbytes. apply (compact_peers_spec (length peersList)); [lia|exact Hbytes]. Qed.

Lemma compact_peers_layout_witness :
  match compact_peers [10; 0; 0; 1; 26; 225; 7] with
  | None => (length [10; 0; 0; 1; 26; 225; 7] mod 6 <> 0)%nat
  | Some peers =>
      length [10; 0; 0; 1; 26; 225; 7] = (6 * length peers)%nat
      /\ forall (k : nat) (p : Peer), peers !! k = Some p ->
           exists a b c d p1 p0,
             take 6 (drop (6 * k) [10; 0; 0; 1; 26; 225; 7]) = [a; b; c; d; p1; p0]
             /\ ID p = [] /\ IP p = dotted a b c d /\ Port p = 256 * p1 + p0
  end.
Proof.
  apply (compact_peers_layout [10; 0; 0; 1; 26; 225; 7]).
  repeat constructor; lia.
Defined.

Example compact_peers_one :
  compact_peers [10; 0; 0; 1; 26; 225] = Some [mkPeer [] (B "10.0.0.1") 6881].
Proof. vm_compute. reflexivity. Qed.
